(** * gaia: ordered collections, field inheritance and the orchestrator

    A shallow embedding of the in-memory consistency engine of the gaia
    object-modelling library, and the properties its specification states
    about it.

    The definitions come first:
    - [ObservableCollection] embeds [src/core/collections/ObservableCollection.ts];
    - [FieldInheritance] embeds the [Field] and [Member] classes;
    - [Orchestrator] embeds the orchestrator and [Project.get];
    - [FieldSequences] describes runs of changes on a member and its field;
    - [Values], [EventRouter], [NamedCollection] and [ActionSet] embed the
      value classes of [src/core/values], [src/core/events/EventRouter.ts],
      the [NamedCollection] class and [src/core/actions/ActionSet.ts];
    - [ProjectOps] embeds [Project.create] and [Project.delete].
    The properties follow, in [CollectionFacts], [FieldFacts] and
    [OrchestratorFacts], and in [CollectionExtra], [FieldExtra],
    [ValuesFacts], [EventRouterFacts], [NamedCollectionFacts],
    [ActionSetFacts] and [OrchestratorExtra].

    JavaScript values are modelled as follows: a [number] used as an array
    index is an integer ([Z]); an array is a [list]; an object compared with
    [===] is a reference, a value of a type with decidable equality; the
    arguments of a method have the types of its signature (no [null] where
    the signature has none); a method that can [throw] is a computation in
    the monad [Eff] below, which threads the mutable state and stops at the
    first exception, keeping the state reached so far; an [await] is the
    sequencing of that monad. Collaborators whose code is not part of the
    sources at hand are parameters of a section, or are modelled from the
    specification and marked so. *)

From Stdlib Require Import ZArith Lia Ascii String.
From stdpp Require Import base numbers option list sorting strings pretty gmap.

Local Open Scope Z_scope.

(** ** Exceptions over mutable state *)

Inductive Outcome (E A : Type) : Type :=
  | Returned (a : A)
  | Thrown (e : E).
Arguments Returned {E A} a.
Arguments Thrown {E A} e.

Definition Eff (S E A : Type) : Type := S → Outcome E A * S.

Definition ret {S E A} (a : A) : Eff S E A := λ s, (Returned a, s).

Definition bind {S E A B} (m : Eff S E A) (k : A → Eff S E B) : Eff S E B :=
  λ s, match m s with
       | (Returned a, s') => k a s'
       | (Thrown e, s') => (Thrown e, s')
       end.

Definition throw {S E A} (e : E) : Eff S E A := λ s, (Thrown e, s).

Definition gets {S E A} (f : S → A) : Eff S E A := λ s, (Returned (f s), s).

Definition modify {S E} (f : S → S) : Eff S E unit := λ s, (Returned tt, f s).

Declare Scope eff_scope.
Delimit Scope eff_scope with eff.
Notation "x <- m ;; k" := (bind m (λ x, k))
  (at level 100, m at next level, right associativity) : eff_scope.
Notation "m ;; k" := (bind m (λ _, k))
  (at level 100, right associativity) : eff_scope.

(** [for (x of l) body(x)] *)
Fixpoint for_each {S E A} (l : list A) (body : A → Eff S E unit) : Eff S E unit :=
  match l with
  | [] => ret tt
  | x :: l' => bind (body x) (λ _, for_each l' body)
  end.

(** ** Arrays *)

Section arrays.
Context {A : Type}.

(** [Array.prototype.sort(compare)]: the sort is stable; [x] goes before
    the first element it does not compare greater than. *)
Fixpoint sort_insert (compare : A → A → Z) (x : A) (l : list A) : list A :=
  match l with
  | [] => [x]
  | y :: l' =>
      if compare x y <=? 0 then x :: y :: l'
      else y :: sort_insert compare x l'
  end.

Definition array_sort (compare : A → A → Z) (l : list A) : list A :=
  foldr (sort_insert compare) [] l.

(** The position [Array.prototype.splice] starts at: a negative [start]
    counts from the end, and the result is clamped to [0, length]. *)
Definition splice_start (start : Z) (len : nat) : nat :=
  if start <? 0 then Z.to_nat (Z.max (Z.of_nat len + start) 0)
  else Z.to_nat (Z.min start (Z.of_nat len)).

(** [arr.splice(start, deleteCount, ...ins)], as the array it leaves. *)
Definition splice (start deleteCount : Z) (ins : list A) (arr : list A) : list A :=
  let s := splice_start start (length arr) in
  let d := Z.to_nat (Z.min (Z.max deleteCount 0) (Z.of_nat (length arr - s))) in
  (take s arr ++ ins ++ drop (s + d) arr)%nat.

(** [arr[i]] for an integer [i]; [None] stands for [undefined]. *)
Definition array_at (i : Z) (arr : list A) : option A :=
  if i <? 0 then None else arr !! Z.to_nat i.

(** [arr.indexOf(x)], with [-1] for an absent element. *)
Definition array_indexOf `{EqDecision A} (x : A) (arr : list A) : Z :=
  match list_find (λ y, y = x) arr with
  | Some (i, _) => Z.of_nat i
  | None => -1
  end.
End arrays.

(** ** src/core/collections/ObservableCollection.ts *)

Module ObservableCollection.

Record IndexableItem (T : Type) : Type := mkIndexableItem {
  item : T;
  index : Z
}.
Arguments mkIndexableItem {T} item index.
Arguments item {T} _.
Arguments index {T} _.

Definition ItemAdd {T} (it : T) (i : Z) : IndexableItem T := mkIndexableItem it i.
Definition ItemRemove {T} (it : T) (i : Z) : IndexableItem T := mkIndexableItem it i.

Definition sortByIndex {T} (a b : IndexableItem T) : Z :=
  if index a >? index b then 1
  else if index a <? index b then -1
  else 0.

Definition sortByIndexReverse {T} (a b : IndexableItem T) : Z :=
  sortByIndex a b * -1.

Record EventMap : Type := mkEventMap {
  adding : string;
  added : string;
  moving : string;
  moved : string;
  removing : string;
  removed : string
}.

(** [new EventMap()]: the names of [ObservableEvents]. *)
Definition defaultEventMap : EventMap :=
  {| adding := "adding"; added := "added";
     moving := "moving"; moved := "moved";
     removing := "removing"; removed := "removed" |}.

Inductive CollectionError : Type :=
  | IndexOutOfRangeError (index : Z)
  | Error (message : string).

Section collection.
Context {T : Type} `{EqDecision T}.

(** One call of [emit]: the event name, the change list passed to the
    listeners, and the array a listener reads from the collection while
    it runs (listeners run synchronously inside [emit]). *)
Record Emitted : Type := mkEmitted {
  ev_name : string;
  ev_data : list (IndexableItem T);
  ev_seen : list T
}.

Record Collection : Type := mkCollection {
  items : list T;
  eventMap : EventMap;
  emitted : list Emitted
}.

Definition M := Eff Collection CollectionError.

(** [new ObservableCollection(eventMap = new EventMap())] *)
Definition new (em : option EventMap) : Collection :=
  {| items := []; eventMap := default defaultEventMap em; emitted := [] |}.

Definition length_ (c : Collection) : Z := Z.of_nat (length (items c)).

Definition at_ (i : Z) (c : Collection) : option T := array_at i (items c).

Definition indexOf (x : T) (c : Collection) : Z := array_indexOf x (items c).

Definition contains (x : T) (c : Collection) : bool :=
  bool_decide (indexOf x c >= 0).

Definition emit (name : EventMap → string) (data : list (IndexableItem T)) : M unit :=
  modify (λ c, {| items := items c; eventMap := eventMap c;
                  emitted := emitted c ++ [mkEmitted (name (eventMap c)) data (items c)] |}).

Definition splice_items (start deleteCount : Z) (ins : list T) : M unit :=
  modify (λ c, {| items := splice start deleteCount ins (items c);
                  eventMap := eventMap c; emitted := emitted c |}).

(** The splice of one entry in [_add] and in [_remove], on the array. *)
Definition splice_in (arr : list T) (it : IndexableItem T) : list T :=
  splice (index it) 0 [item it] arr.

Definition splice_out (arr : list T) (it : IndexableItem T) : list T :=
  splice (index it) 1 [] arr.

Definition _add (changes : list (IndexableItem T)) : M unit :=
  (let sorted := array_sort sortByIndex changes in
   emit adding sorted ;;
   for_each sorted (λ it, splice_items (index it) 0 [item it]) ;;
   emit added sorted)%eff.

Definition _remove (changes : list (IndexableItem T)) : M unit :=
  (let sorted := array_sort sortByIndexReverse changes in
   emit removing sorted ;;
   for_each sorted (λ it, splice_items (index it) 1 []) ;;
   emit removed sorted)%eff.

Definition insert (i : Z) (x : T) : M unit :=
  (len <- gets length_ ;;
   if (i <? 0) || (i >? len) then throw (IndexOutOfRangeError i)
   else _add [ItemAdd x i])%eff.

Definition add (args : list T) : M unit :=
  (len <- gets length_ ;;
   _add (imap (λ i x, ItemAdd x (len + Z.of_nat i)) args))%eff.

Definition clear : M unit :=
  (its <- gets items ;;
   _remove (imap (λ i x, ItemRemove x (Z.of_nat i)) its))%eff.

Definition remove (args : list T) : M unit :=
  (its <- gets items ;;
   _remove (omap (λ x, let itemIndex := array_indexOf x its in
                       if itemIndex <? 0 then None
                       else Some (ItemRemove x itemIndex)) args))%eff.

Definition removeAt (i : Z) : M unit :=
  (len <- gets length_ ;;
   if (i <? 0) || (i >=? len)
   then throw (Error ("Index out of bouds when removing at index " +:+ pretty i))
   else
     its <- gets items ;;
     match its !! Z.to_nat i with
     | Some x => _remove [ItemRemove x i]
     | None => ret tt (* not reached: [i] is in range *)
     end)%eff.

Definition removeAll (filter : option (T → Z → list T → bool)) : M bool :=
  (its <- gets items ;;
   match filter with
   | None => ret false
   | Some p =>
       if bool_decide (length its ≤ 0)%nat then ret false
       else
         let toRemove :=
           omap (λ '(i, x), if p x (Z.of_nat i) its
                            then Some (ItemRemove x (Z.of_nat i)) else None)
                (imap pair its) in
         if bool_decide (length toRemove = 0)%nat then ret false
         else (_remove toRemove ;; ret true)
   end)%eff.

(** The two outcomes the ordering rule of batches is meant to secure.
    After the batch of additions, every entry's item is at the entry's
    index. *)
Definition adds_land_at_stated_index (c : Collection)
    (adds : list (IndexableItem T)) : Prop :=
  ∀ it, it ∈ adds → at_ (index it) (_add adds c).2 = Some (item it).

(** At the moment an entry of a batch of removals is spliced out (the
    entries before it in the sorted batch are already gone), the entry's
    index still holds the entry's item. *)
Definition removes_hit_stated_item (c : Collection)
    (removes : list (IndexableItem T)) : Prop :=
  ∀ done_ it rest,
    array_sort sortByIndexReverse removes = done_ ++ it :: rest →
    array_at (index it) (foldl splice_out (items c) done_) = Some (item it).

End collection.
Arguments Emitted : clear implicits.
Arguments Collection : clear implicits.

End ObservableCollection.

(** ** The [Field] and [Member] classes *)

Module FieldInheritance.

(** The change object a value passes to its listeners. *)
Record Change (V : Type) : Type := mkChange {
  from : V;
  to : V
}.
Arguments mkChange {V} from to.
Arguments from {V} _.
Arguments to {V} _.

(** Modelled from the spec: the Value contract. The value classes that
    [Field] and [Member] call ([clone], [equals], [applyChangeSet]) are not
    part of the sources at hand; [V] is the content of a value object,
    [equals] is structural, [clone] gives an independent copy, and
    [applyChangeSet] applies a foreign change-set onto the receiver. *)
Class Value (V : Type) : Type := {
  equals : V → V → bool;
  clone : V → V;
  applyChangeSet : Change V → V → V
}.

(** Modelled from the spec: what the contract promises of these three
    operations. *)
Class ValueLaws (V : Type) `{Value V} : Prop := {
  equals_refl (v : V) : equals v v = true;
  equals_sym (v w : V) : equals v w = equals w v;
  equals_trans (u v w : V) :
    equals u v = true → equals v w = true → equals u w = true;
  clone_equals (v : V) : equals (clone v) v = true;
  applyChangeSet_to (ch : Change V) (v : V) :
    equals v (from ch) = true → equals (applyChangeSet ch v) (to ch) = true
}.

(** [SimpleValue<T>] of [src/core/values]: equal when the payloads are
    [===]; a change-set replaces the payload, as [update] does. *)
#[export] Instance SimpleValue (T : Type) `{EqDecision T} : Value T := {|
  equals v w := bool_decide (v = w);
  clone v := v;
  applyChangeSet ch _ := to ch
|}.

Inductive EventName : Type :=
  | member_valueChanging
  | member_valueChanged
  | field_valueChanging
  | field_valueChanged
  | field_inheritedChanging
  | field_inheritedChanged
  | field_resetStart
  | field_resetEnd.

Section field.
Context {V : Type} `{Value V}.

Record Member : Type := mkMember {
  m_name : string;
  m_value : V
}.

Record Field : Type := mkField {
  f_name : string;
  _isInheriting : bool;
  _value : V
}.

(** One call of [emit]: the event, and what a listener reads from the field
    while it runs. *)
Record Emitted : Type := mkEmitted {
  ev_name : EventName;
  seen_isInheriting : bool;
  seen_value : V
}.

(** A member, the field that was created from it (the field keeps a
    reference to the member, so both live in one state), and the events
    emitted so far. *)
Record World : Type := mkWorld {
  member : Member;
  field : Field;
  emitted : list Emitted
}.

Definition isInheriting (w : World) : bool := _isInheriting (field w).

Definition value (w : World) : V := _value (field w).

Definition emit (e : EventName) (w : World) : World :=
  {| member := member w; field := field w;
     emitted := emitted w ++ [mkEmitted e (isInheriting w) (value w)] |}.

(** [new Field(instance, member)] *)
Definition new_Field (m : Member) : World :=
  {| member := m;
     field := {| f_name := m_name m; _isInheriting := true;
                 _value := clone (m_value m) |};
     emitted := [] |}.

Definition _setIsInheriting (b : bool) (w : World) : World :=
  if bool_decide (isInheriting w = b) then w
  else
    let w1 := emit field_inheritedChanging w in
    let w2 := {| member := member w1;
                 field := {| f_name := f_name (field w1); _isInheriting := b;
                             _value := _value (field w1) |};
                 emitted := emitted w1 |} in
    emit field_inheritedChanged w2.

Definition _onValueChanging (change : Change V) (w : World) : World :=
  emit field_valueChanging w.

Definition _onValueChanged (change : Change V) (w : World) : World :=
  let w1 := if negb (equals (m_value (member w)) (value w))
            then _setIsInheriting false w else w in
  emit field_valueChanged w1.

Definition _onReset (w : World) : World :=
  let w1 := emit field_resetStart w in
  let w2 := _setIsInheriting true w1 in
  emit field_resetEnd w2.

Definition reset (w : World) : World := _onReset w.

Definition _onInheritedValueChanged (change : Change V) (w : World) : World :=
  {| member := member w;
     field := {| f_name := f_name (field w);
                 _isInheriting := _isInheriting (field w);
                 _value := applyChangeSet change (_value (field w)) |};
     emitted := emitted w |}.

(** The [then] callback runs once [applyChangeSet] has resolved. *)
Definition _onMemberValueChanged (change : Change V) (w : World) : World :=
  if isInheriting w then
    let w1 := _onValueChanging change w in
    let w2 := _onInheritedValueChanged change w1 in
    _onValueChanged change w2
  else w.

(** [Member._onValueChanging] and [Member._onValueChanged]: the member
    re-emits the change of its value; the field listens to
    [member.valueChanged]. *)
Definition Member_onValueChanging (change : Change V) (w : World) : World :=
  emit member_valueChanging w.

Definition Member_onValueChanged (change : Change V) (w : World) : World :=
  _onMemberValueChanged change (emit member_valueChanged w).

(** Modelled from the spec: [value.set(other)] on the member's value. The
    value notifies its [valueChanging] listeners, takes the new content and
    notifies its [valueChanged] listeners with the change. *)
Definition member_value_set (v : V) (w : World) : World :=
  let change := mkChange (m_value (member w)) v in
  let w1 := Member_onValueChanging change w in
  let w2 := {| member := {| m_name := m_name (member w1); m_value := v |};
               field := field w1; emitted := emitted w1 |} in
  Member_onValueChanged change w2.

(** Modelled from the spec: [value.set(other)] on the field's own value,
    with the field's two listeners. *)
Definition field_value_set (v : V) (w : World) : World :=
  let change := mkChange (value w) v in
  let w1 := _onValueChanging change w in
  let w2 := {| member := member w1;
               field := {| f_name := f_name (field w1);
                           _isInheriting := _isInheriting (field w1);
                           _value := v |};
               emitted := emitted w1 |} in
  _onValueChanged change w2.

End field.
Arguments Member : clear implicits.
Arguments Field : clear implicits.
Arguments Emitted : clear implicits.
Arguments World : clear implicits.

End FieldInheritance.

(** ** The orchestrator and [Project.get] *)

Module Orchestrator.
Import ObservableCollection.

Inductive QualifiedObjectType : Type := Namespace | Model | Instance.

#[export] Instance QualifiedObjectType_eq_dec : EqDecision QualifiedObjectType.
Proof. solve_decision. Defined.

(** An object in memory is named by its reference; [===] on objects is
    equality of references. *)
Abbreviation Ref := nat (only parsing).

(** The values of [src/core/values]. *)
Inductive IValue : Type :=
  | BoolValue (value : bool)
  | UIntValue (value : Z).

#[export] Instance IValue_eq_dec : EqDecision IValue.
Proof. solve_decision. Defined.

Record QualifiedObject : Type := mkQualifiedObject {
  type : QualifiedObjectType;
  id : string;
  name : string;
  parent : option Ref;
  children : list Ref;   (* of a Namespace: its child namespaces *)
  models : list Ref;     (* of a Namespace *)
  instances : list Ref;  (* of a Namespace *)
  members : list Ref;    (* of a Model *)
  model : option Ref     (* of an Instance *)
}.

Record Member : Type := mkMember {
  m_model : Ref;
  m_name : string;
  m_value : IValue;
  m_id : string
}.

Record MemberCreateInfo : Type := mkMemberCreateInfo {
  ci_name : string;
  ci_value : IValue;
  ci_index : option Z
}.

Record MemberRestoreInfo : Type := mkMemberRestoreInfo {
  ri_id : string;
  ri_name : string;
  ri_value : IValue;
  ri_index : Z
}.

Record RestoreInfo : Type := mkRestoreInfo {
  r_id : string;
  r_name : string;
  r_qualifiedPath : string;
  r_modelId : string
}.

(** [new Field(instance, member, value)]: what the orchestrator reads of a
    field is its instance; the class is not part of the sources at hand. *)
Record Field : Type := mkField {
  f_instance : Ref;
  f_member : Ref;
  f_value : IValue
}.

#[export] Instance Field_eq_dec : EqDecision Field.
Proof. solve_decision. Defined.

(** An entry of the answer to a [FieldGetAction]. *)
Record FieldRestoreInfo : Type := mkFieldRestoreInfo {
  fi_name : string;
  fi_index : Z
}.

#[warnings="-register-all"]
Inductive Action : Type :=
  | NamespaceCreateAction (source : Ref) (index : Z)
  | ModelCreateAction (source : Ref) (index : Z)
  | InstanceCreateAction (source : Ref) (index : Z)
  | MemberCreateAction (model source : Ref) (index : Z)
  | MemberDeleteAction (source : Ref)
  | MemberReorderAction (source : option Ref) (from to : Z)
  | MemberGetAction (model : Ref)
  | BatchedActions (actions : list Action)
  | RenameAction (t : QualifiedObjectType) (source : Ref) (newName : string)
  | MoveAction (t : QualifiedObjectType) (source to : Ref)
  | UpdateAction (t : QualifiedObjectType) (source : Ref)
  | FieldGetAction (instance : Ref)
  | ReorderAction (t : QualifiedObjectType) (source : Ref) (from to : Z)
  | DeleteAction (t : QualifiedObjectType) (source : Ref)
  | MemberValueChangeAction (member : Ref) (oldValue newValue : IValue)
  | FieldValueChangeAction (field : Field) (oldValue newValue : IValue)
  | GetChildrenAction (t : QualifiedObjectType) (parent : Ref)
  | GetByIdAction (t : QualifiedObjectType) (id : string).

(** What the external authority attaches to an action it accepts. *)
Inductive Response : Type :=
  | NoResponse
  | MemberGetResponse (contentsUpdated : bool)
      (results : list (IndexableItem MemberRestoreInfo))
  | UpdateResponse (contentsUpdated exists_ : bool) (restore : option RestoreInfo)
  | FieldGetResponse (contentsUpdated : bool)
      (results : list (IndexableItem FieldRestoreInfo))
  | GetChildrenResponse (contentsUpdated : bool)
      (restore : option (list RestoreInfo))
  | GetByIdResponse (restore : option RestoreInfo).

Inductive Verdict : Type :=
  | Accepted (response : Response)
  | Rejected (cause : string).

Inductive OrchestratorError : Type :=
  | ArgumentError (message : string)
  | NameCollisionError (message : string)
  | RfcError (action : Action) (cause : string)
  | IndexOutOfRange (index : Z) (message : string)
  | DuplicateIdError (uid : string)
  | PlainError (message : string)
  | ObjectDoesNotExistError (message : string)
  | ReferenceError (message : string)
  | TypeError (message : string).

Inductive EventName : Type :=
  | ObservableEvents_adding | ObservableEvents_added
  | ObservableEvents_removing | ObservableEvents_removed
  | ObservableEvents_moving | ObservableEvents_moved
  | Events_Model_MemberAdding | Events_Model_MemberAdded
  | Events_Model_MemberRemoving | Events_Model_MemberRemoved
  | Events_Model_MemberMoving | Events_Model_MemberMoved
  | Events_QualifiedObject_NameChanging | Events_QualifiedObject_NameChanged
  | Events_Member_ValueChanging | Events_Member_ValueChanged
  | Events_Model_ValueChanging | Events_Model_ValueChanged
  | Events_Instance_FieldValueChanging | Events_Instance_FieldValueChanged.

Inductive EventSource : Type :=
  | OfObservable (owner : Ref)
  | OfCollection (owner : Ref)
  | OfObject (r : Ref)
  | OfProject
  | OfMember (member : Ref)
  | OfField (field : Field).

Inductive EventData : Type :=
  | ChangeData (change : list (IndexableItem Ref))
  | MoveData (item : option Ref) (from to : Z)
  | ActionData (action : Action)
  | ActionsData (actions : list Action)
  | MemberValueChange (member : Ref) (oldValue newValue : IValue)
  | FieldValueChange (field : Field) (oldValue newValue : IValue).

Record Event : Type := mkEvent {
  source : EventSource;
  event : EventName;
  data : EventData
}.

(** The project: the objects in memory, the identity registry, and what
    has been sent out (actions raised on the router, events emitted). *)
Record Project : Type := mkProject {
  root : Ref;
  objects : gmap nat QualifiedObject;
  memberObjects : gmap nat Member;
  nextRef : nat;
  uids : gmap string nat;
  nextUid : nat;
  raised : list Action;
  events : list Event
}.

Definition M := Eff Project OrchestratorError.

Definition blankObject : QualifiedObject :=
  mkQualifiedObject Namespace "" "" None [] [] [] [] None.

Definition blankMember : Member := mkMember 0%nat "" (BoolValue true) "".

(** Reading a field of the object behind a reference. *)
Definition obj (r : Ref) (p : Project) : QualifiedObject :=
  default blankObject (objects p !! r).

Definition memberObj (r : Ref) (p : Project) : Member :=
  default blankMember (memberObjects p !! r).

Definition set_objects (f : gmap nat QualifiedObject → gmap nat QualifiedObject)
    (p : Project) : Project :=
  mkProject (root p) (f (objects p)) (memberObjects p) (nextRef p) (uids p)
            (nextUid p) (raised p) (events p).

Definition set_memberObjects (f : gmap nat Member → gmap nat Member)
    (p : Project) : Project :=
  mkProject (root p) (objects p) (f (memberObjects p)) (nextRef p) (uids p)
            (nextUid p) (raised p) (events p).

Definition set_nextRef (n : nat) (p : Project) : Project :=
  mkProject (root p) (objects p) (memberObjects p) n (uids p)
            (nextUid p) (raised p) (events p).

Definition set_uids (f : gmap string nat → gmap string nat) (p : Project) : Project :=
  mkProject (root p) (objects p) (memberObjects p) (nextRef p) (f (uids p))
            (nextUid p) (raised p) (events p).

Definition set_nextUid (n : nat) (p : Project) : Project :=
  mkProject (root p) (objects p) (memberObjects p) (nextRef p) (uids p)
            n (raised p) (events p).

Definition set_raised (f : list Action → list Action) (p : Project) : Project :=
  mkProject (root p) (objects p) (memberObjects p) (nextRef p) (uids p)
            (nextUid p) (f (raised p)) (events p).

Definition set_events (f : list Event → list Event) (p : Project) : Project :=
  mkProject (root p) (objects p) (memberObjects p) (nextRef p) (uids p)
            (nextUid p) (raised p) (f (events p)).

(** Writing fields of the object behind a reference. *)
Definition set_name (n : string) (o : QualifiedObject) : QualifiedObject :=
  mkQualifiedObject (type o) (id o) n (parent o) (children o) (models o)
                    (instances o) (members o) (model o).

Definition set_parent (q : option Ref) (o : QualifiedObject) : QualifiedObject :=
  mkQualifiedObject (type o) (id o) (name o) q (children o) (models o)
                    (instances o) (members o) (model o).

Definition set_members (f : list Ref → list Ref) (o : QualifiedObject) : QualifiedObject :=
  mkQualifiedObject (type o) (id o) (name o) (parent o) (children o) (models o)
                    (instances o) (f (members o)) (model o).

(** The collection of a namespace that holds objects of type [t]. *)
Definition collectionOf (t : QualifiedObjectType) (o : QualifiedObject) : list Ref :=
  match t with
  | Namespace => children o
  | Model => models o
  | Instance => instances o
  end.

Definition set_collectionOf (t : QualifiedObjectType) (f : list Ref → list Ref)
    (o : QualifiedObject) : QualifiedObject :=
  match t with
  | Namespace =>
      mkQualifiedObject (type o) (id o) (name o) (parent o) (f (children o))
                        (models o) (instances o) (members o) (model o)
  | Model =>
      mkQualifiedObject (type o) (id o) (name o) (parent o) (children o)
                        (f (models o)) (instances o) (members o) (model o)
  | Instance =>
      mkQualifiedObject (type o) (id o) (name o) (parent o) (children o)
                        (models o) (f (instances o)) (members o) (model o)
  end.

(** [new Project(name, options)]: the root namespace is the only object;
    its id is [options.rootId] or [root_${name}]. *)
Definition new_Project (projectName : string) (rootId : option string) : Project :=
  {| root := 0%nat;
     objects := {[ 0%nat := mkQualifiedObject Namespace
                              (default ("root_" +:+ projectName) rootId)
                              "" None [] [] [] [] None ]};
     memberObjects := ∅;
     nextRef := 1%nat;
     uids := ∅;
     nextUid := 0%nat;
     raised := [];
     events := [] |}.

(** [emit([...])] of [utils/Eventing]: the listed events, in order. *)
Definition emit (evs : list Event) : M unit :=
  modify (set_events (λ l, l ++ evs)).

(** [new Namespace(..)], [new Model(..)], [new Instance(..)]: a fresh
    object that knows its parent; no collection holds it yet. *)
Definition new_QualifiedObject (t : QualifiedObjectType) (n : string)
    (par : Ref) (mdl : option Ref) (uid : string) : M Ref :=
  (r <- gets nextRef ;;
   modify (set_nextRef (S r)) ;;
   modify (set_objects
             <[r := mkQualifiedObject t uid n (Some par) [] [] [] [] mdl]>) ;;
   ret r)%eff.

(** [new Member(model, name, value, orchestrator, id)] *)
Definition new_Member (mdl : Ref) (n : string) (v : IValue) (uid : string) : M Ref :=
  (r <- gets nextRef ;;
   modify (set_nextRef (S r)) ;;
   modify (set_memberObjects <[r := mkMember mdl n v uid]>) ;;
   ret r)%eff.

(** *** Missing collaborators, modelled from the spec *)

Inductive UidHint : Type :=
  | QualifiedHint (qualifiedName : string) (t : QualifiedObjectType)
  | MemberHint (memberName : string).

(** Modelled from the spec: the identity registry (UID warden), which is not
    part of the sources at hand. [generate(hint)] produces a fresh
    identifier; [register(id, object)] binds an id to a live object and
    fails with [DuplicateIdError] if it is already bound; [get(id)] looks
    the id up. *)
Definition uidWarden_generate (hint : UidHint) : M string :=
  (n <- gets nextUid ;;
   modify (set_nextUid (S n)) ;;
   ret ("uid-" +:+ pretty n))%eff.

(** Modelled from the spec: [register(id, object)] of the identity
    registry. *)
Definition uidWarden_register (uid : string) (r : Ref) : M unit :=
  (bound <- gets (λ p, uids p !! uid) ;;
   match bound with
   | Some _ => throw (DuplicateIdError uid)
   | None => modify (set_uids <[uid := r]>)
   end)%eff.

(** Modelled from the spec: [get(id)] of the identity registry. *)
Definition uidWarden_get (uid : string) : M (option Ref) :=
  gets (λ p, uids p !! uid).

(** Modelled from the spec: a [register] whose promise is never awaited,
    so that its failure is not seen by the caller. *)
Definition uidWarden_register_unawaited (uid : string) (r : Ref) : M unit :=
  (bound <- gets (λ p, uids p !! uid) ;;
   match bound with
   | Some _ => ret tt
   | None => modify (set_uids <[uid := r]>)
   end)%eff.

(** Modelled from the spec: [qualifiedName], the dot-joined names of the
    ancestors; the root has the empty qualified name. The walk up the
    parent chain is bounded by [fuel]. *)
Fixpoint qualifiedName_upto (fuel : nat) (r : Ref) (p : Project) : string :=
  if bool_decide (r = root p) then ""
  else
    match fuel, parent (obj r p) with
    | S fuel', Some q =>
        let parentName := qualifiedName_upto fuel' q p in
        if bool_decide (parentName = "") then name (obj r p)
        else parentName +:+ "." +:+ name (obj r p)
    | _, _ => name (obj r p)
    end.

Definition qualifiedName (r : Ref) (p : Project) : string :=
  qualifiedName_upto (size (objects p)) r p.

(** Modelled from the spec: [collection.get(name)] of a namespace
    collection, the first object of the collection with that name. *)
Definition collection_get (n : string) (l : list Ref) (p : Project) : option Ref :=
  snd <$> list_find (λ r, name (obj r p) = n) l.

(** [String.prototype.split('.')] *)
Fixpoint split_dot_from (acc : string) (s : string) : list string :=
  match s with
  | EmptyString => [String.rev acc]
  | String c s' =>
      if Ascii.eqb c "."%char then String.rev acc :: split_dot_from "" s'
      else split_dot_from (String c acc) s'
  end.

Definition split_dot (s : string) : list string := split_dot_from "" s.

(** The key [k in arr] asks for, for an array of strings: an own property
    of the array (an index below the length written in decimal, or
    [length]) or a property inherited from [Array.prototype] or
    [Object.prototype]. The elements of the array play no part. *)
Definition Array_prototype_keys : list string :=
  ["constructor"; "at"; "concat"; "copyWithin"; "fill"; "find"; "findIndex";
   "findLast"; "findLastIndex"; "lastIndexOf"; "pop"; "push"; "reverse";
   "shift"; "unshift"; "slice"; "sort"; "splice"; "includes"; "indexOf";
   "join"; "keys"; "entries"; "values"; "forEach"; "filter"; "flat";
   "flatMap"; "map"; "every"; "some"; "reduce"; "reduceRight";
   "toReversed"; "toSorted"; "toSpliced"; "with"; "toLocaleString";
   "toString"].

Definition Object_prototype_keys : list string :=
  ["constructor"; "hasOwnProperty"; "isPrototypeOf"; "propertyIsEnumerable";
   "toLocaleString"; "toString"; "valueOf"; "__proto__";
   "__defineGetter__"; "__defineSetter__"; "__lookupGetter__";
   "__lookupSetter__"].

Definition js_in (key : string) (arr : list string) : bool :=
  bool_decide (key ∈ (pretty <$> seq 0 (length arr)) ++ ["length"]
                     ++ Array_prototype_keys ++ Object_prototype_keys).

(** [a || b] for an optional index: [undefined] and [0] are falsy. *)
Definition js_or (a : option Z) (b : Z) : Z :=
  match a with
  | Some i => if i =? 0 then b else i
  | None => b
  end.

(** *** The RFC pipeline *)

(** The builder that [rfc.create(action)] returns. *)
Record Builder (R : Type) : Type := mkBuilder {
  b_action : Action;
  b_fulfill : option (Response → M R);
  b_reject : option (Action → string → M unit)
}.
Arguments mkBuilder {R} _ _ _.
Arguments b_action {R} _.
Arguments b_fulfill {R} _.
Arguments b_reject {R} _.

Section orchestrator.

(** The external authority behind the router: it accepts an action, with
    what it attaches to it, or declines it. *)
Context (resolver : Action → Verdict).

(** The qualified-path utilities, which are not part of the sources at
    hand. *)
Context (parentPath : string → option string) (basename : string → string).

(** [Namespace.orphan] and [Restore.namespace], which are not part of the
    sources at hand; both are called from a fulfillment callback only. *)
Context (orphan : Ref → M unit) (restore_namespace : Ref → RestoreInfo → M unit).

(** Modelled from the spec: the RFC pipeline, which is not part of the
    sources at hand. [create(action)] returns a builder; [.fulfill(callback)]
    registers the callback to run only if the external resolver accepts the
    action; [.reject(callback)] registers the callback to run (and then
    raise an error) if the resolver declines; [.commit()] submits the action
    to the router and awaits resolution. A rejection surfaces as
    [RfcError], which carries the action and the cause. A fulfillment
    callback that assigns a variable of the enclosing method is modelled
    as returning the value; [commit] hands it on. *)
Definition rfc_create {R} (a : Action) : Builder R := mkBuilder a None None.

(** Modelled from the spec: [.fulfill(callback)] of the RFC pipeline. *)
Definition fulfill {R} (cb : Response → M R) (b : Builder R) : Builder R :=
  mkBuilder (b_action b) (Some cb) (b_reject b).

(** Modelled from the spec: [.reject(callback)] of the RFC pipeline. *)
Definition reject {R} (cb : Action → string → M unit) (b : Builder R) : Builder R :=
  mkBuilder (b_action b) (b_fulfill b) (Some cb).

(** Modelled from the spec: [.commit()] of the RFC pipeline. The action
    goes to the router; if the resolver accepts it the fulfillment callback
    runs, and if it declines the reject callback runs and then [RfcError] is
    raised. *)
Definition commit {R} (b : Builder R) : M (option R) :=
  (modify (set_raised (λ l, l ++ [b_action b])) ;;
   match resolver (b_action b) with
   | Accepted response =>
       match b_fulfill b with
       | Some cb => (r <- cb response ;; ret (Some r))
       | None => ret None
       end
   | Rejected cause =>
       match b_reject b with
       | Some cb => cb (b_action b) cause
       | None => ret tt
       end ;;
       throw (RfcError (b_action b) cause)
   end)%eff.

(** *** The composer and the custom collection operations *)

(** Modelled from the spec: [Composer.add], which is not part of the sources
    at hand. On fulfillment the new object is inserted into the parent's
    collection of its kind, at the index of the action. *)
Definition composer_add (r par : Ref) (index : Z) : M unit :=
  (t <- gets (λ p, type (obj r p)) ;;
   modify (set_objects (alter (set_collectionOf t (splice index 0 [r])) par)))%eff.

(** Modelled from the spec: [Composer.move], which is not part of the
    sources at hand. On fulfillment the object is removed from the old
    parent's collection and appended to the new one. *)
Definition composer_move (r to : Ref) (index : Z) : M unit :=
  (t <- gets (λ p, type (obj r p)) ;;
   old <- gets (λ p, parent (obj r p)) ;;
   match old with
   | Some par =>
       modify (set_objects (alter (set_collectionOf t
         (λ l, foldl splice_out l
                 (omap (λ x, if array_indexOf x l <? 0 then None
                             else Some (ItemRemove x (array_indexOf x l))) [r])))
         par))
   | None => ret tt
   end ;;
   modify (set_objects (alter (set_parent (Some to)) r)) ;;
   modify (set_objects (alter (set_collectionOf t (splice index 0 [r])) to)))%eff.

(** [model.members.observable], as the array of its items. *)
Definition members_of (mdl : Ref) (p : Project) : list Ref := members (obj mdl p).

(** Modelled from the spec: the function with which a [customAdd] handler
    commits a batch of additions; the items are sorted by target index
    ascending and spliced low-to-high. *)
Definition commit_adds (mdl : Ref) (batch : list (IndexableItem Ref)) : M unit :=
  modify (set_objects (alter (set_members
    (λ l, foldl splice_in l (array_sort sortByIndex batch))) mdl)).

(** Modelled from the spec: the function with which a [customRemove]
    handler commits a batch of removals; the items are sorted by index
    descending and spliced high-to-low. *)
Definition commit_removes (mdl : Ref) (batch : list (IndexableItem Ref)) : M unit :=
  modify (set_objects (alter (set_members
    (λ l, foldl splice_out l (array_sort sortByIndexReverse batch))) mdl)).

(** Modelled from the spec: [customAdd] of the observable collection of a
    model's members, which is not part of the sources at hand. The custom
    variants let the caller interleave side effects between validating the
    change and committing it: the handler receives the change (the items
    appended) and the function that commits the batch it passes. *)
Definition customAdd (mdl : Ref) (new_items : list Ref)
    (handler : list (IndexableItem Ref) → (list (IndexableItem Ref) → M unit) → M unit)
    : M unit :=
  (len <- gets (λ p, Z.of_nat (length (members_of mdl p))) ;;
   handler (imap (λ i x, ItemAdd x (len + Z.of_nat i)) new_items) (commit_adds mdl))%eff.

(** Modelled from the spec: [customRemove], likewise; the change holds the
    items that are in the collection with their indices, and the handler
    commits it or a batch of its own. *)
Definition customRemove (mdl : Ref) (old_items : list Ref)
    (handler : list (IndexableItem Ref) →
               (option (list (IndexableItem Ref)) → M unit) → M unit)
    : M unit :=
  (its <- gets (members_of mdl) ;;
   let change :=
     omap (λ x, if array_indexOf x its <? 0 then None
                else Some (ItemRemove x (array_indexOf x its))) old_items in
   handler change (λ given, commit_removes mdl (default change given)))%eff.

(** Modelled from the spec: [customMove], likewise; the move takes the
    item out at [from] and puts it in at [to]. *)
Definition customMove (mdl : Ref) (from to : Z)
    (handler : option Ref → M unit → M unit) : M unit :=
  (its <- gets (members_of mdl) ;;
   handler (array_at from its)
     (modify (set_objects (alter (set_members
        (λ l, match array_at from l with
              | Some x => splice to 0 [x] (splice from 1 [] l)
              | None => l
              end)) mdl))))%eff.

(** *** Reconciliation *)

Section sync.
Context {A : Type}.
Context (equal : A → Ref → Project → bool) (local : Project → list Ref).
Context (add : A → Z → M unit) (remove : Ref → Z → M unit)
        (move : Ref → Z → Z → M unit).

(** Modelled from the spec: the local item that matches a master item by
    the identity predicate, with its current position. *)
Definition find_local (m : A) (p : Project) : option (nat * Ref) :=
  list_find (λ r, equal m r p = true) (local p).

(** Modelled from the spec: items present in master but absent locally are
    constructed fresh and added at master's index. *)
Definition sync_add_missing (master : list A) : M unit :=
  for_each (imap pair master) (λ im,
    found <- gets (find_local im.2) ;;
    match found with
    | None => add im.2 (Z.of_nat im.1)
    | Some _ => ret tt
    end)%eff.

(** Modelled from the spec: items present locally but absent in master
    are removed. *)
Definition sync_remove_absent (master : list A) : M unit :=
  (its <- gets local ;;
   for_each its (λ r,
     known <- gets (λ p, existsb (λ m, equal m r p) master) ;;
     if (known : bool) then ret tt
     else (idx <- gets (λ p, array_indexOf r (local p)) ;; remove r idx)))%eff.

(** Modelled from the spec: walking the target order, the matching local
    item of each position is located; if it is already at that slot nothing
    happens, otherwise one move brings it into place. Every step reads the
    current positions. *)
Definition sync_move_into_place (master : list A) : M unit :=
  for_each (imap pair master) (λ im,
    found <- gets (find_local im.2) ;;
    match found with
    | Some (j, r) =>
        if bool_decide (j = im.1) then ret tt
        else move r (Z.of_nat j) (Z.of_nat im.1)
    | None => ret tt
    end)%eff.

(** Modelled from the spec: [syncToMaster] of [utils/Collections], which is
    not part of the sources at hand: the three passes above, in the order
    the spec lists them. *)
Definition syncToMaster (master : list A) : M unit :=
  (sync_add_missing master ;;
   sync_remove_absent master ;;
   sync_move_into_place master)%eff.

End sync.

(** *** The operations of the orchestrator *)

Definition childQualifiedName (parentName n : string) : string :=
  if bool_decide (parentName = "") then n else parentName +:+ "." +:+ n.

Definition createNamespace (par : Ref) (n : string) : M Ref :=
  (parentName <- gets (qualifiedName par) ;;
   uid <- uidWarden_generate
            (QualifiedHint (childQualifiedName parentName n) Namespace) ;;
   namespace <- new_QualifiedObject Namespace n par None uid ;;
   index <- gets (λ p, Z.of_nat (length (children (obj par p)))) ;;
   commit (reject (λ action err, throw (RfcError action err))
          (fulfill (λ _, uidWarden_register uid namespace ;;
                         composer_add namespace par index)
          (rfc_create (NamespaceCreateAction namespace index)))) ;;
   ret namespace)%eff.

Definition createModel (par : Ref) (n : string) : M Ref :=
  (parentName <- gets (qualifiedName par) ;;
   uid <- uidWarden_generate
            (QualifiedHint (childQualifiedName parentName n) Model) ;;
   mdl <- new_QualifiedObject Model n par None uid ;;
   index <- gets (λ p, Z.of_nat (length (models (obj par p)))) ;;
   commit (reject (λ action err, throw (RfcError action err))
          (fulfill (λ _, uidWarden_register uid mdl ;;
                         composer_add mdl par index)
          (rfc_create (ModelCreateAction mdl index)))) ;;
   ret mdl)%eff.

Definition createInstance (par mdl : Ref) (n : string) : M Ref :=
  (parentName <- gets (qualifiedName par) ;;
   uid <- uidWarden_generate
            (QualifiedHint (childQualifiedName parentName n) Instance) ;;
   instance <- new_QualifiedObject Instance n par (Some mdl) uid ;;
   index <- gets (λ p, Z.of_nat (length (instances (obj par p)))) ;;
   commit (reject (λ action err, throw (RfcError action err))
          (fulfill (λ _, uidWarden_register uid instance ;;
                         composer_add instance par index)
          (rfc_create (InstanceCreateAction instance index)))) ;;
   ret instance)%eff.

(** The loop of [createMembers] that builds one [MemberCreateAction] for
    each parameter. *)
Fixpoint createMembers_actions (mdl : Ref) (params : list MemberCreateInfo)
    (index : Z) : M (list (IndexableItem Action)) :=
  match params with
  | [] => ret []
  | param :: rest =>
      (uid <- uidWarden_generate (MemberHint (ci_name param)) ;;
       member <- new_Member mdl (ci_name param) (ci_value param) uid ;;
       let action := MemberCreateAction mdl member (js_or (ci_index param) index) in
       others <- createMembers_actions mdl rest (index + 1) ;;
       ret (mkIndexableItem action (js_or (ci_index param) index) :: others))%eff
  end.

Definition action_source (a : Action) : option Ref :=
  match a with
  | NamespaceCreateAction r _ | ModelCreateAction r _ | InstanceCreateAction r _
  | MemberCreateAction _ r _ | MemberDeleteAction r
  | RenameAction _ r _ | MoveAction _ r _ | UpdateAction _ r
  | ReorderAction _ r _ _ | DeleteAction _ r => Some r
  | MemberReorderAction r _ _ => r
  | MemberGetAction _ | BatchedActions _ | FieldGetAction _
  | MemberValueChangeAction _ _ _ | FieldValueChangeAction _ _ _
  | GetChildrenAction _ _ | GetByIdAction _ _ => None
  end.

Definition four_events (mdl : Ref) (e1 e2 : EventName) (d1 d2 : EventData)
    : list Event :=
  [mkEvent (OfObservable mdl) e1 d1; mkEvent (OfCollection mdl) e1 d1;
   mkEvent (OfObject mdl) e2 d2; mkEvent OfProject e2 d2].

Definition createMembers (mdl : Ref) (params : list MemberCreateInfo)
    : M (list (IndexableItem Ref)) :=
  (index <- gets (λ p, Z.of_nat (length (members_of mdl p))) ;;
   actions <- createMembers_actions mdl params index ;;
   let batch := BatchedActions (item <$> actions) in
   toAdd <- commit
     (reject (λ action err, throw (RfcError action err))
     (fulfill (λ _,
        let new_members := omap (λ a, action_source (item a)) actions in
        let toAdd := omap (λ a, (λ m, ItemAdd m (ObservableCollection.index a))
                                  <$> action_source (item a)) actions in
        customAdd mdl new_members (λ change add_,
          emit (four_events mdl ObservableEvents_adding Events_Model_MemberAdding
                  (ChangeData toAdd) (ActionData batch)) ;;
          add_ toAdd ;;
          current <- gets (members_of mdl) ;;
          for_each current (λ m,
            uid <- gets (λ p, m_id (memberObj m p)) ;;
            uidWarden_register_unawaited uid m) ;;
          emit (four_events mdl ObservableEvents_added Events_Model_MemberAdded
                  (ChangeData change) (ActionData batch))) ;;
        ret toAdd)
     (rfc_create batch))) ;;
   ret (default [] toAdd))%eff.

Definition updateMembers (mdl : Ref) : M (list (IndexableItem Ref)) :=
  (results <- commit
     (fulfill (λ response,
        match response with
        | MemberGetResponse contentsUpdated results =>
            if negb contentsUpdated then
              gets (λ p, (λ m, mkIndexableItem m (array_indexOf m (members_of mdl p)))
                           <$> members_of mdl p)
            else
              let unpacked :=
                array_sort (λ a b, ri_index a - ri_index b) (item <$> results) in
              if negb (bool_decide
                         (ri_index <$> unpacked = Z.of_nat <$> seq 0 (length unpacked)))
              then throw (PlainError "Failed to retrieve an accurate list of Members. The indexes are not sequential.")
              else
                syncToMaster
                  (λ master other p, bool_decide (ri_id master = m_id (memberObj other p)))
                  (members_of mdl)
                  (λ master index,
                     member <- new_Member mdl (ri_name master) (ri_value master)
                                          (ri_id master) ;;
                     customAdd mdl [member] (λ change add_,
                       let action := MemberCreateAction mdl member index in
                       emit (four_events mdl ObservableEvents_adding
                               Events_Model_MemberAdding
                               (ChangeData change) (ActionData action)) ;;
                       add_ [ItemAdd member index] ;;
                       emit (four_events mdl ObservableEvents_added
                               Events_Model_MemberAdded
                               (ChangeData change) (ActionData action))))
                  (λ other index,
                     customRemove mdl [other] (λ change remove_,
                       let action := MemberDeleteAction other in
                       emit (four_events mdl ObservableEvents_removing
                               Events_Model_MemberRemoving
                               (ChangeData change) (ActionData action)) ;;
                       remove_ (Some [ItemRemove other index]) ;;
                       emit (four_events mdl ObservableEvents_removed
                               Events_Model_MemberRemoved
                               (ChangeData change) (ActionData action))))
                  (λ other from to,
                     member <- gets (λ p, array_at from (members_of mdl p)) ;;
                     customMove mdl from to (λ change move_,
                       let action := MemberReorderAction member from to in
                       emit (four_events mdl ObservableEvents_moving
                               Events_Model_MemberMoving
                               (MoveData change from to) (ActionData action)) ;;
                       move_ ;;
                       emit (four_events mdl ObservableEvents_moved
                               Events_Model_MemberMoved
                               (MoveData change from to) (ActionData action))))
                  unpacked ;;
                ret []
        | _ => ret []
        end)
     (rfc_create (MemberGetAction mdl))) ;;
   ret (default [] results))%eff.

Definition rename (src : Ref) (newName : string) : M Ref :=
  (t <- gets (λ p, type (obj src p)) ;;
   let action := RenameAction t src newName in
   commit
     (fulfill (λ _,
        emit [mkEvent (OfObject src) Events_QualifiedObject_NameChanging
                      (ActionData action);
              mkEvent OfProject Events_QualifiedObject_NameChanging
                      (ActionData action)] ;;
        modify (set_objects (alter (set_name newName) src)) ;;
        emit [mkEvent (OfObject src) Events_QualifiedObject_NameChanged
                      (ActionData action);
              mkEvent OfProject Events_QualifiedObject_NameChanged
                      (ActionData action)])
     (rfc_create action)) ;;
   ret src)%eff.

Definition updateQualifiedObject (r : Ref) : M unit :=
  (t <- gets (λ p, type (obj r p)) ;;
   commit
     (fulfill (λ response,
        match t, response with
        | Namespace, UpdateResponse contentsUpdated exists_ (Some restore) =>
            if negb contentsUpdated then ret tt
            else if negb exists_ then orphan r
            else restore_namespace r restore
        | _, _ => ret tt
        end)
     (rfc_create (UpdateAction t r))) ;;
   ret tt)%eff.

(** Modelled from the spec: [update()] of a qualified object, which is not
    part of the sources at hand. An object is refreshed from the external
    authority through the orchestrator, by [updateQualifiedObject]. *)
Definition QualifiedObject_update (r : Ref) : M unit := updateQualifiedObject r.

(** The walk of [Project.get] down the child namespaces. *)
Fixpoint get_walk (tokens : list string) (current : Ref) (p : Project) : option Ref :=
  match tokens with
  | [] => Some current
  | token :: rest =>
      match collection_get token (children (obj current p)) p with
      | Some next => get_walk rest next p
      | None => None
      end
  end.

Definition Project_get (t : QualifiedObjectType) (qualifiedPath : string)
    : M (option Ref) :=
  if bool_decide (qualifiedPath = "") && bool_decide (t = Namespace)
  then (r <- gets root ;; ret (Some r))%eff
  else
    match parentPath qualifiedPath with
    | None => ret None
    | Some parentQPath =>
        let tokens := filter (λ it, it ≠ "") (split_dot parentQPath) in
        (current <- gets (λ p, get_walk tokens (root p) p) ;;
         match current with
         | None => ret None
         | Some cur =>
             result <- gets (λ p, collection_get (basename qualifiedPath)
                                    (collectionOf t (obj cur p)) p) ;;
             match result with
             | Some r => QualifiedObject_update r ;; ret (Some r)
             | None => ret None
             end
         end)%eff
    end.

Definition move (src to : Ref) : M Ref :=
  (rootNamespace <- gets root ;;
   if bool_decide (src = rootNamespace)
   then throw (ArgumentError "Cannot move the Root namespace")
   else
     par <- gets (λ p, parent (obj src p)) ;;
     match par with
     | None => throw (ArgumentError "The source does not belong to any Namespace. Ensure that it exists in the project.")
     | Some q =>
         if bool_decide (q = to) then ret src
         else
           toName <- gets (qualifiedName to) ;;
           found <- Project_get Namespace toName ;;
           match found with
           | None => throw (ArgumentError "The 'to' Namespace provided to move() doesn't exist in this project")
           | Some _ =>
               t <- gets (λ p, type (obj src p)) ;;
               exists_ <- gets (λ p, bool_decide (is_Some
                 (collection_get (name (obj src p)) (collectionOf t (obj to p)) p))) ;;
               if (exists_ : bool)
               then throw (NameCollisionError "A QualifiedObject with that name already exists in the target location")
               else
                 commit
                   (fulfill (λ _,
                      index <- gets (λ p, Z.of_nat (length (collectionOf t (obj to p)))) ;;
                      composer_move src to index)
                   (rfc_create (MoveAction t src to))) ;;
                 ret src
           end
     end)%eff.

Definition reorderMember (mdl : Ref) (from to : Z) : M Ref :=
  (member <- gets (λ p, array_at from (members_of mdl p)) ;;
   match member with
   | None => throw (PlainError ("A Member does not exist at that index (" +:+ pretty from +:+ ")"))
   | Some m =>
       len <- gets (λ p, Z.of_nat (length (members_of mdl p))) ;;
       if (to <? 0) || (to >=? len + 1)
       then throw (IndexOutOfRange to ("The to index is out of range (" +:+ pretty to +:+ ") for reodering a Member"))
       else
         let action := MemberReorderAction (Some m) from to in
         commit
           (fulfill (λ _,
              customMove mdl from to (λ change move_,
                emit (four_events mdl ObservableEvents_moving Events_Model_MemberMoving
                        (MoveData change from to) (ActionData action)) ;;
                move_ ;;
                emit (four_events mdl ObservableEvents_moved Events_Model_MemberMoved
                        (MoveData change from to) (ActionData action))))
           (rfc_create action)) ;;
         ret m
   end)%eff.

Definition deleteMembers (mdl : Ref) (names : list string)
    : M (list (IndexableItem Ref)) :=
  (collection <- gets (members_of mdl) ;;
   sources <- gets (λ p, filter (λ m, js_in (m_name (memberObj m p)) names = true)
                                collection) ;;
   let actions := MemberDeleteAction <$> sources in
   let results := (λ m, mkIndexableItem m (array_indexOf m collection)) <$> sources in
   commit
     (fulfill (λ _,
        customRemove mdl sources (λ change remove_,
          emit (four_events mdl ObservableEvents_removing Events_Model_MemberRemoving
                  (ChangeData change) (ActionsData actions)) ;;
          remove_ None ;;
          emit (four_events mdl ObservableEvents_removed Events_Model_MemberRemoved
                  (ChangeData change) (ActionsData actions))))
     (rfc_create (BatchedActions actions))) ;;
   ret results)%eff.

(** *** The other operations *)

(** [Restore.collection], [Composer.reorder] and the [fields] collection of
    an instance, which are not part of the sources at hand.
    [restore_collection parent type master factory] is the reconciliation of
    the collection of kind [type] of [parent] against [master];
    [composer_reorder item owner type from to action] is the move inside the
    collection of kind [type] of [owner]; both are called from a fulfillment
    callback only. [instance_fields instance] reads the items of
    [instance.fields.observable]. *)
Context (restore_collection :
           Ref → QualifiedObjectType → list RestoreInfo → (RestoreInfo → M Ref) → M unit).
Context (composer_reorder :
           Ref → Ref → QualifiedObjectType → Z → Z → Action → M unit).
Context (instance_fields : Ref → Project → list Field).

(** The loop of [updateFields] over the entries of the answer. *)
Fixpoint updateFields_results (instance mdl : Ref)
    (results : list (IndexableItem FieldRestoreInfo))
    : M (list (IndexableItem Field)) :=
  match results with
  | [] => ret []
  | entry :: rest =>
      (member <- gets (λ p, list_find
                  (λ m, m_name (memberObj m p) = fi_name (item entry))
                  (members_of mdl p)) ;;
       match member with
       | None =>
           throw (PlainError ("Expected Member to exist ("
                              +:+ fi_name (item entry)
                              +:+ ") does not exist in the Model"))
       | Some (_, m) =>
           value <- gets (λ p, m_value (memberObj m p)) ;;
           others <- updateFields_results instance mdl rest ;;
           ret (mkIndexableItem (mkField instance m value) (fi_index (item entry))
                :: others)
       end)%eff
  end.

(** [updateFields(instance)]; an instance without a model makes
    [updateMembers] read a property of [undefined]. *)
Definition updateFields (instance : Ref) : M (list (IndexableItem Field)) :=
  (mdl <- gets (λ p, model (obj instance p)) ;;
   match mdl with
   | None => throw (TypeError "Cannot read properties of undefined (reading 'members')")
   | Some mdl =>
       updateMembers mdl ;;
       updateQualifiedObject instance ;;
       results <- commit
         (fulfill (λ response,
            match response with
            | FieldGetResponse true results =>
                updateFields_results instance mdl results
            | _ =>
                gets (λ p, let observable := instance_fields instance p in
                           (λ field, mkIndexableItem field
                                       (array_indexOf field observable))
                           <$> observable)
            end)
         (rfc_create (FieldGetAction instance))) ;;
       ret (default [] results)
   end)%eff.

(** [updateMemberValue(member, oldValue, newValue, changeValue)]; [None]
    is [undefined]. *)
Definition updateMemberValue (member : Ref) (oldValue newValue : IValue)
    (changeValue : M IValue) : M (option IValue) :=
  (let change := MemberValueChange member oldValue newValue in
   commit
     (fulfill (λ _,
        mdl <- gets (λ p, m_model (memberObj member p)) ;;
        emit [mkEvent (OfMember member) Events_Member_ValueChanging change;
              mkEvent (OfObject mdl) Events_Model_ValueChanging change;
              mkEvent OfProject Events_Model_ValueChanging change] ;;
        updatedValue <- changeValue ;;
        emit [mkEvent (OfMember member) Events_Member_ValueChanged change;
              mkEvent (OfObject mdl) Events_Model_ValueChanged change;
              mkEvent OfProject Events_Model_ValueChanged change] ;;
        ret updatedValue)
     (rfc_create (MemberValueChangeAction member oldValue newValue))))%eff.

(** [updateFieldValue(field, oldValue, newValue, changeValue)] *)
Definition updateFieldValue (field : Field) (oldValue newValue : IValue)
    (changeValue : M IValue) : M (option IValue) :=
  (let change := FieldValueChange field oldValue newValue in
   commit
     (fulfill (λ _,
        emit [mkEvent (OfField field) Events_Member_ValueChanging change;
              mkEvent (OfObject (f_instance field))
                      Events_Instance_FieldValueChanging change;
              mkEvent OfProject Events_Instance_FieldValueChanging change] ;;
        updatedValue <- changeValue ;;
        emit [mkEvent (OfField field) Events_Member_ValueChanged change;
              mkEvent (OfObject (f_instance field))
                      Events_Instance_FieldValueChanged change;
              mkEvent OfProject Events_Instance_FieldValueChanged change] ;;
        ret updatedValue)
     (rfc_create (FieldValueChangeAction field oldValue newValue))))%eff.

(** [getById(type, id)] *)
Definition getById (t : QualifiedObjectType) (id : string) : M Ref :=
  (let missing :=
     ObjectDoesNotExistError ("The id " +:+ id +:+ " requested does not exist") in
   known <- uidWarden_get id ;;
   match known with
   | Some r => ret r
   | None =>
       result <- commit
         (fulfill (λ response,
            match response with
            | GetByIdResponse (Some restore) =>
                found <- Project_get t (r_qualifiedPath restore) ;;
                match found with
                | Some r => ret r
                | None => throw missing
                end
            | _ => throw missing
            end)
         (rfc_create (GetByIdAction t id))) ;;
       match result with
       | Some r => ret r
       | None => throw missing
       end
   end)%eff.

(** [Project.getById(type, id)]: the orchestrator's [getById]; its result
    is never [undefined]. *)
Definition Project_getById (t : QualifiedObjectType) (id : string) : M Ref :=
  getById t id.

(** [updateQualifiedObjects(type, parent)] *)
Definition updateQualifiedObjects (t : QualifiedObjectType) (par : Ref) : M unit :=
  (commit
     (fulfill (λ response,
        match response with
        | GetChildrenResponse true (Some restore) =>
            restore_collection par t restore (λ info,
              match t with
              | Namespace =>
                  new_QualifiedObject Namespace (r_name info) par None (r_id info)
              | Model =>
                  new_QualifiedObject Model (r_name info) par None (r_id info)
              | Instance =>
                  mdl <- Project_getById Model (r_modelId info) ;;
                  new_QualifiedObject Instance (r_name info) par (Some mdl)
                                      (r_id info)
              end)
        | _ => ret tt
        end)
     (rfc_create (GetChildrenAction t par))) ;;
   ret tt)%eff.

(** [reorder(source, from, to)]. The action is the one [composer.action]
    builds for the kind of the source. The branches for a model and for an
    instance read [ns], which is not bound there; the branch for a
    namespace reads the children of its parent. *)
Definition reorder (source : Ref) (from to : Z) : M Ref :=
  (t <- gets (λ p, type (obj source p)) ;;
   let action := ReorderAction t source from to in
   commit
     (fulfill (λ _,
        match t with
        | Namespace =>
            par <- gets (λ p, parent (obj source p)) ;;
            match par with
            | Some q => composer_reorder source q Namespace from to action
            | None =>
                throw (TypeError "Cannot read properties of null (reading 'children')")
            end
        | Model | Instance => throw (ReferenceError "ns is not defined")
        end)
     (rfc_create action)) ;;
   ret source)%eff.

(** Modelled from the spec: [Composer.delete], which is not part of the
    sources at hand. The items are deleted by one batched action; on
    fulfillment each item leaves the collection of its kind of its
    parent. *)
Definition composer_delete (items : list Ref) : M bool :=
  (actions <- gets (λ p, (λ r, DeleteAction (type (obj r p)) r) <$> items) ;;
   result <- commit
     (fulfill (λ _,
        for_each items (λ r,
          t <- gets (λ p, type (obj r p)) ;;
          par <- gets (λ p, parent (obj r p)) ;;
          match par with
          | Some q =>
              modify (set_objects (alter (set_collectionOf t
                        (filter (λ x, x ≠ r))) q))
          | None => ret tt
          end) ;;
        ret true)
     (rfc_create (BatchedActions actions))) ;;
   ret (default false result))%eff.

(** [delete(item | items)] *)
Definition delete_ (items : list Ref) : M bool := composer_delete items.

(** The operations above, as one type, and a call of one of them with its
    result dropped. *)
Inductive Operation : Type :=
  | CreateNamespace (par : Ref) (n : string)
  | CreateModel (par : Ref) (n : string)
  | CreateInstance (par mdl : Ref) (n : string)
  | CreateMembers (mdl : Ref) (params : list MemberCreateInfo)
  | UpdateMembers (mdl : Ref)
  | Rename (src : Ref) (newName : string)
  | Move (src to : Ref)
  | ReorderMember (mdl : Ref) (from to : Z)
  | DeleteMembers (mdl : Ref) (names : list string)
  | UpdateQualifiedObject (r : Ref)
  | UpdateFields (instance : Ref)
  | Reorder (source : Ref) (from to : Z)
  | Delete (items : list Ref)
  | UpdateMemberValue (member : Ref) (oldValue newValue : IValue)
      (changeValue : M IValue)
  | UpdateFieldValue (field : Field) (oldValue newValue : IValue)
      (changeValue : M IValue)
  | UpdateQualifiedObjects (t : QualifiedObjectType) (par : Ref)
  | GetById (t : QualifiedObjectType) (id : string).

Definition run (op : Operation) : M unit :=
  match op with
  | CreateNamespace par n => (createNamespace par n ;; ret tt)%eff
  | CreateModel par n => (createModel par n ;; ret tt)%eff
  | CreateInstance par mdl n => (createInstance par mdl n ;; ret tt)%eff
  | CreateMembers mdl params => (createMembers mdl params ;; ret tt)%eff
  | UpdateMembers mdl => (updateMembers mdl ;; ret tt)%eff
  | Rename src newName => (rename src newName ;; ret tt)%eff
  | Move src to => (move src to ;; ret tt)%eff
  | ReorderMember mdl from to => (reorderMember mdl from to ;; ret tt)%eff
  | DeleteMembers mdl names => (deleteMembers mdl names ;; ret tt)%eff
  | UpdateQualifiedObject r => updateQualifiedObject r
  | UpdateFields instance => (updateFields instance ;; ret tt)%eff
  | Reorder source from to => (reorder source from to ;; ret tt)%eff
  | Delete items => (delete_ items ;; ret tt)%eff
  | UpdateMemberValue member oldValue newValue changeValue =>
      (updateMemberValue member oldValue newValue changeValue ;; ret tt)%eff
  | UpdateFieldValue field oldValue newValue changeValue =>
      (updateFieldValue field oldValue newValue changeValue ;; ret tt)%eff
  | UpdateQualifiedObjects t par => updateQualifiedObjects t par
  | GetById t id => (getById t id ;; ret tt)%eff
  end.

End orchestrator.

(** The action an operation submits to the pipeline (the first one, if it
    submits several), if it gets that far: what the router receives from
    the call when the authority declines whatever it is sent. *)
Definition submitted (parentPath : string → option string)
    (basename : string → string) (op : Operation) (p : Project) : option Action :=
  raised (run (λ _, Rejected "") parentPath basename
              (λ _, ret tt) (λ _ _, ret tt)
              (λ _ _ _ _, ret tt) (λ _ _ _ _ _ _, ret tt) (λ _ _, [])
              op p).2 !! length (raised p).

(** What [Project.get] finds for a path, before it refreshes the object;
    the empty path of a namespace, which is the root and is not refreshed,
    is left aside. *)
Definition looked_up (parentPath : string → option string)
    (basename : string → string) (t : QualifiedObjectType) (path : string)
    (p : Project) : option Ref :=
  if bool_decide (path = "") && bool_decide (t = Namespace) then None
  else
    match parentPath path with
    | None => None
    | Some parentQPath =>
        match get_walk (filter (λ it, it ≠ "") (split_dot parentQPath)) (root p) p with
        | None => None
        | Some cur => collection_get (basename path) (collectionOf t (obj cur p)) p
        end
    end.

(** Whether the answer to an [UpdateAction] makes [updateQualifiedObject]
    change the object: only a namespace is changed, when the answer says
    that the contents were updated and carries what to restore. *)
Definition brings_update (t : QualifiedObjectType) (response : Response) : bool :=
  match t, response with
  | Namespace, UpdateResponse true _ (Some _) => true
  | _, _ => false
  end.

(** The action a call of an operation submits first, read off the
    arguments and the state before the call: the objects the call creates
    get the next references, and an index is the length of the collection;
    [None] when a guard ends the call before it submits anything. *)
Definition first_action (parentPath : string → option string)
    (basename : string → string) (op : Operation) (p : Project) : option Action :=
  match op with
  | CreateNamespace par n =>
      Some (NamespaceCreateAction (nextRef p)
              (Z.of_nat (length (children (obj par p)))))
  | CreateModel par n =>
      Some (ModelCreateAction (nextRef p) (Z.of_nat (length (models (obj par p)))))
  | CreateInstance par mdl n =>
      Some (InstanceCreateAction (nextRef p)
              (Z.of_nat (length (instances (obj par p)))))
  | CreateMembers mdl params =>
      Some (BatchedActions
              (imap (λ k param,
                       MemberCreateAction mdl (nextRef p + k)%nat
                         (js_or (ci_index param)
                            (Z.of_nat (length (members_of mdl p)) + Z.of_nat k)))
                    params))
  | UpdateMembers mdl => Some (MemberGetAction mdl)
  | Rename src newName => Some (RenameAction (type (obj src p)) src newName)
  | Move src to =>
      if bool_decide (src = root p) then None
      else
        match parent (obj src p) with
        | None => None
        | Some q =>
            if bool_decide (q = to) then None
            else if bool_decide (qualifiedName to p = "") then
              if bool_decide (is_Some
                   (collection_get (name (obj src p))
                      (collectionOf (type (obj src p)) (obj to p)) p))
              then None
              else Some (MoveAction (type (obj src p)) src to)
            else
              match looked_up parentPath basename Namespace (qualifiedName to p) p with
              | Some found => Some (UpdateAction (type (obj found p)) found)
              | None => None
              end
        end
  | ReorderMember mdl from to =>
      match array_at from (members_of mdl p) with
      | None => None
      | Some m =>
          if (to <? 0) || (to >=? Z.of_nat (length (members_of mdl p)) + 1)
          then None
          else Some (MemberReorderAction (Some m) from to)
      end
  | DeleteMembers mdl names =>
      Some (BatchedActions
              (MemberDeleteAction
               <$> filter (λ m, js_in (m_name (memberObj m p)) names = true)
                          (members_of mdl p)))
  | UpdateQualifiedObject r => Some (UpdateAction (type (obj r p)) r)
  | UpdateFields instance =>
      match model (obj instance p) with
      | Some mdl => Some (MemberGetAction mdl)
      | None => None
      end
  | Reorder source from to =>
      Some (ReorderAction (type (obj source p)) source from to)
  | Delete items =>
      Some (BatchedActions ((λ r, DeleteAction (type (obj r p)) r) <$> items))
  | UpdateMemberValue member oldValue newValue _ =>
      Some (MemberValueChangeAction member oldValue newValue)
  | UpdateFieldValue field oldValue newValue _ =>
      Some (FieldValueChangeAction field oldValue newValue)
  | UpdateQualifiedObjects t par => Some (GetChildrenAction t par)
  | GetById t id =>
      match uids p !! id with
      | Some _ => None
      | None => Some (GetByIdAction t id)
      end
  end.

(** References are handed out in increasing order: every object in memory
    has a reference below the next one. *)
Definition heap_wf (p : Project) : Prop :=
  (∀ r, is_Some (objects p !! r) → (r < nextRef p)%nat)
  ∧ (∀ r, is_Some (memberObjects p !! r) → (r < nextRef p)%nat).

(** No local mutation between [p] and [p']: every object and member that
    is in memory in [p] is the same in [p'] (its name, its parent and its
    collections, in their order), and so are the root, the identity registry
    and the emitted events. *)
Definition untouched (p p' : Project) : Prop :=
  objects p ⊆ objects p' ∧ memberObjects p ⊆ memberObjects p'
  ∧ uids p' = uids p ∧ events p' = events p ∧ root p' = root p.

(** Modelled from the spec: the qualified-path utilities [parentPath] and
    [basename], with the dot separator. The parent path of a name without a
    dot is the empty path (the root); the empty path has no parent. *)
Definition dot_basename (path : string) : string :=
  List.last (split_dot path) "".

(** Modelled from the spec: [parentPath], see [dot_basename]. *)
Definition dot_parentPath (path : string) : option string :=
  if bool_decide (path = "") then None
  else Some (String.concat "." (removelast (split_dot path))).


(** *** Sample states *)

(** A project with one model (reference 1, named [Model]) under the root,
    whose members are [ms] in this order, at the references 2, 3, ... *)
Definition project_with_members (ms : list Member) : Project :=
  {| root := 0%nat;
     objects :=
       {[ 0%nat := mkQualifiedObject Namespace "root_demo" "" None
                     [] [1%nat] [] [] None;
          1%nat := mkQualifiedObject Model "model-1" "Model" (Some 0%nat)
                     [] [] [] (seq 2 (length ms)) None ]};
     memberObjects := list_to_map (zip (seq 2 (length ms)) ms);
     nextRef := (2 + length ms)%nat;
     uids := ∅;
     nextUid := 0%nat;
     raised := [];
     events := [] |}.

(** An authority that accepts every action and answers a [MemberGetAction]
    with the list [master]. *)
Definition authority_with_members (master : list MemberRestoreInfo)
    (a : Action) : Verdict :=
  match a with
  | MemberGetAction _ =>
      Accepted (MemberGetResponse true
                  ((λ m, mkIndexableItem m (ri_index m)) <$> master))
  | _ => Accepted NoResponse
  end.

(** A project whose root holds the namespace [A] (reference 1), and a
    namespace [X] (reference 2) that belongs to no namespace and holds a
    namespace that is also named [A] (reference 3). *)
Definition project_with_detached_namespace : Project :=
  {| root := 0%nat;
     objects :=
       {[ 0%nat := mkQualifiedObject Namespace "root_demo" "" None
                     [1%nat] [] [] [] None;
          1%nat := mkQualifiedObject Namespace "ns-1" "A" (Some 0%nat)
                     [] [] [] [] None;
          2%nat := mkQualifiedObject Namespace "ns-2" "X" None
                     [3%nat] [] [] [] None;
          3%nat := mkQualifiedObject Namespace "ns-3" "A" (Some 2%nat)
                     [] [] [] [] None ]};
     memberObjects := ∅;
     nextRef := 4%nat;
     uids := ∅;
     nextUid := 0%nat;
     raised := [];
     events := [] |}.

(** A stand-in for [Namespace.orphan], which is not part of the sources at
    hand: the namespace leaves the children of its parent and has no parent
    afterwards. *)
Definition orphan_detaches (r : Ref) : M unit :=
  (par <- gets (λ p, parent (obj r p)) ;;
   match par with
   | Some q =>
       modify (set_objects (alter (set_collectionOf Namespace
                 (filter (λ x, x ≠ r))) q))
   | None => ret tt
   end ;;
   modify (set_objects (alter (set_parent None) r)))%eff.

(** A project whose root holds the namespaces [A] (reference 1) and [B]
    (reference 2); [A] holds the namespace [C] (reference 3). *)
Definition project_with_three_namespaces : Project :=
  {| root := 0%nat;
     objects :=
       {[ 0%nat := mkQualifiedObject Namespace "root_demo" "" None
                     [1%nat; 2%nat] [] [] [] None;
          1%nat := mkQualifiedObject Namespace "ns-1" "A" (Some 0%nat)
                     [3%nat] [] [] [] None;
          2%nat := mkQualifiedObject Namespace "ns-2" "B" (Some 0%nat)
                     [] [] [] [] None;
          3%nat := mkQualifiedObject Namespace "ns-3" "C" (Some 1%nat)
                     [] [] [] [] None ]};
     memberObjects := ∅;
     nextRef := 4%nat;
     uids := ∅;
     nextUid := 0%nat;
     raised := [];
     events := [] |}.

(** An authority that answers a refresh of a namespace with "updated, and
    the namespace does not exist any more", and declines every move. *)
Definition authority_that_lost_the_namespace (a : Action) : Verdict :=
  match a with
  | UpdateAction _ _ =>
      Accepted (UpdateResponse true false (Some (mkRestoreInfo "ns-2" "B" "B" "")))
  | MoveAction _ _ _ => Rejected "declined"
  | _ => Accepted NoResponse
  end.

End Orchestrator.


(** ** Runs of value changes on a member and its field *)

Module FieldSequences.
Import FieldInheritance.

Section ops.
Context {V : Type} `{Value V}.

(** One step of a client: [member.value.set(v)], [field.value.set(v)] or
    [field.reset()]. *)
Inductive ValueOp : Type :=
  | MemberSet (v : V)
  | FieldSet (v : V)
  | Reset.

Definition apply_op (op : ValueOp) (w : World V) : World V :=
  match op with
  | MemberSet v => member_value_set v w
  | FieldSet v => field_value_set v w
  | Reset => reset w
  end.

Definition apply_ops (ops : list ValueOp) (w : World V) : World V :=
  foldl (λ w op, apply_op op w) w ops.

(** The value the last [FieldSet] of a run asked for, [v0] when there is
    none. *)
Definition last_FieldSet (v0 : V) (ops : list ValueOp) : V :=
  foldl (λ acc op, match op with FieldSet v => v | _ => acc end) v0 ops.

(** The field and its member agree: a field that says it inherits holds a
    value equal to the member's. *)
Definition agrees (w : World V) : Prop :=
  isInheriting w = true → equals (value w) (m_value (member w)) = true.

End ops.
Arguments ValueOp : clear implicits.

End FieldSequences.

(** ** The value classes: [Value], [SimpleValue], [BoolValue], [UIntValue] *)

Module Values.

Inductive ValueError : Type :=
  | ArgumentError (message : string)
  | NotImplementedError (message : string)
  | Error (message : string).

(** [IType]: a type object is read through its [name] only. *)
Record IType : Type := mkIType {
  type_name : string
}.

(** [BoolType.equals] and [UIntType.equals], which have the same body;
    [None] is a [null] or [undefined] argument. *)
Definition IType_equals (this : IType) (other : option IType)
    : Outcome ValueError bool :=
  match other with
  | None => Thrown (ArgumentError "other value must be valid")
  | Some o => Returned (bool_decide (type_name o = type_name this))
  end.

Definition SingletonBoolType : IType := mkIType "type-bool".

Definition SingletonUIntType : IType := mkIType "type-uint".

(** What a [SimpleValue<T>] holds at run time: a boolean or a number. A
    number is an integer or [NaN]; under [===] and [<] the other numbers
    (fractions, the infinities, the negative zero) behave as integers do. *)
Inductive Payload : Type :=
  | PBool (b : bool)
  | PNumber (n : Z)
  | PNaN.

#[export] Instance Payload_eq_dec : EqDecision Payload.
Proof. solve_decision. Defined.

(** [a === b]: [NaN] is not identical to anything, itself included; a
    boolean is not identical to a number. *)
Definition strict_equals (a b : Payload) : bool :=
  match a, b with
  | PNaN, _ | _, PNaN => false
  | _, _ => bool_decide (a = b)
  end.

(** [value < 0]: a boolean is converted to 0 or 1 first; a comparison with
    [NaN] is false. *)
Definition lt_zero (value : Payload) : bool :=
  match value with
  | PBool _ => false
  | PNumber n => n <? 0
  | PNaN => false
  end.

(** The class of a value object, which decides the [clone] it runs. *)
Inductive ValueClass : Type :=
  | SimpleValue_class
  | BoolValue_class
  | UIntValue_class.

Section values.

(** [IValueAttachment], which is not part of the sources at hand, with the
    attachment that [new EmptyValueAttachment()] builds. *)
Context {Attachment : Type} (EmptyValueAttachment : Attachment).

Record SimpleValue : Type := mkSimpleValue {
  class : ValueClass;
  type : IType;
  _value : Payload;
  _attachment : Attachment
}.

Definition value (this : SimpleValue) : Payload := _value this.

Definition attachment (this : SimpleValue) : Attachment := _attachment this.

(** [new SimpleValue(value, type, attachment?)]: the constructor of [Value]
    takes an empty attachment when none is given. *)
Definition new_SimpleValue (value : Payload) (type : IType)
    (attachment : option Attachment) : SimpleValue :=
  {| class := SimpleValue_class; type := type; _value := value;
     _attachment := default EmptyValueAttachment attachment |}.

(** [new BoolValue(value = true, attachment)] *)
Definition new_BoolValue (value : option Payload) (attachment : option Attachment)
    : SimpleValue :=
  {| class := BoolValue_class; type := SingletonBoolType;
     _value := default (PBool true) value;
     _attachment := default EmptyValueAttachment attachment |}.

(** [new UIntValue(value = 0, attachment)] *)
Definition new_UIntValue (value : option Payload) (attachment : option Attachment)
    : Outcome ValueError SimpleValue :=
  let value := default (PNumber 0) value in
  if lt_zero value then Thrown (ArgumentError "value must be positive")
  else Returned {| class := UIntValue_class; type := SingletonUIntType;
                   _value := value;
                   _attachment := default EmptyValueAttachment attachment |}.

(** [attach(attachment)] *)
Definition attach (attachment : Attachment) (this : SimpleValue) : SimpleValue :=
  {| class := class this; type := type this; _value := _value this;
     _attachment := attachment |}.

(** [SimpleValue.equals(other)] *)
Definition equals (this : SimpleValue) (other : option SimpleValue)
    : Outcome ValueError bool :=
  match other with
  | None => Thrown (ArgumentError "other value must be valid")
  | Some o =>
      match IType_equals (type this) (Some (type o)) with
      | Returned same => Returned (same && strict_equals (value this) (value o))
      | Thrown e => Thrown e
      end
  end.

(** [clone()]: [BoolValue] and [UIntValue] build a new object of their
    class; a plain [SimpleValue] inherits the [clone] of [Value]. *)
Definition clone (this : SimpleValue) : Outcome ValueError SimpleValue :=
  match class this with
  | BoolValue_class =>
      Returned (new_BoolValue (Some (value this)) (Some (attachment this)))
  | UIntValue_class => new_UIntValue (Some (value this)) (Some (attachment this))
  | SimpleValue_class => Thrown (NotImplementedError "clone() not implemented")
  end.

(** [setLocally(other)], as a computation on the receiver; the method
    returns the receiver. *)
Definition setLocally (other : option SimpleValue) : Eff SimpleValue ValueError unit :=
  match other with
  | None => throw (Error "other Value must be valid")
  | Some o =>
      (this <- gets id ;;
       match IType_equals (type this) (Some (type o)) with
       | Thrown e => throw e
       | Returned false => throw (Error "Cannot set Value. Incompatible Type")
       | Returned true =>
           modify (λ this, {| class := class this; type := type this;
                              _value := value o;
                              _attachment := _attachment this |})
       end)%eff
  end.

End values.
Arguments SimpleValue : clear implicits.

End Values.

(** ** The event router *)

Module EventRouter.

Section router.

(** [IEvent], which is not part of the sources at hand, is read through its
    [name] only. *)
Context {IEvent : Type} (name : IEvent → string).

(** An [EventHandler]: a function, which has a [name] of its own, and the
    promise a call of it returns, which fulfils or rejects. [h_id] tells
    two functions apart. *)
Record EventHandler : Type := mkEventHandler {
  h_id : nat;
  h_name : string;
  h_fulfils : IEvent → bool
}.

(** [_handlerMap] *)
Definition Router : Type := gmap string (list EventHandler).

Definition new : Router := ∅.

(** [on(event)]: the handler is filed under its own name. *)
Definition on (event : EventHandler) (r : Router) : Router :=
  match r !! h_name event with
  | None => <[h_name event := [event]]> r
  | Some found => <[h_name event := found ++ [event]]> r
  end.

(** [raise(event)]: the handlers that are called, in the order of the
    calls, and whether the promise that [raise] returns fulfils
    ([Promise.all] fulfils when every promise does). *)
Definition raise (event : IEvent) (r : Router) : list EventHandler * bool :=
  match r !! name event with
  | None => ([], true)
  | Some found => (found, forallb (λ handler, h_fulfils handler event) found)
  end.

End router.
Arguments EventHandler : clear implicits.
Arguments Router : clear implicits.

End EventRouter.

(** ** [NamedCollection] *)

Module NamedCollection.

(** An argument of a lookup by name: a string, or any other value. *)
Inductive JsValue : Type :=
  | JsString (s : string)
  | JsOther.

(** What [indexByName] returns: an index, [undefined], or what
    [this.emit('error', message)] returns. *)
Inductive IndexResult : Type :=
  | Index (i : nat)
  | Undefined
  | EmitError (message : string).

Section named.

(** The items have a [name] property. *)
Context {T : Type} (name : T → string).

(** [collection.length] *)
Definition length_ (_items : list T) : Z := Z.of_nat (length _items).

(** [at(index)] *)
Definition at_ (index : Z) (_items : list T) : option T := array_at index _items.

(** [findByName(name)]; [None] is [null]. *)
Definition findByName (n : JsValue) (_items : list T) : Outcome string (option T) :=
  match n with
  | JsOther => Thrown "Invalid name type passed to findByName()"
  | JsString s => Returned (snd <$> list_find (λ item, name item = s) _items)
  end.

(** [get(name)] *)
Definition get (n : JsValue) (_items : list T) : Outcome string (option T) :=
  findByName n _items.

(** [indexByName(name)] *)
Definition indexByName (n : JsValue) (_items : list T) : IndexResult :=
  match n with
  | JsOther => EmitError "indexByName expects a string argument"
  | JsString s =>
      match list_find (λ current, name current = s) _items with
      | Some (i, _) => Index i
      | None => Undefined
      end
  end.

End named.

End NamedCollection.

(** ** The names of the actions *)

Module ActionSet.

Inductive ActionSet : Type :=
  | Batched
  | InstanceCreate | InstanceDelete | InstanceGetById | InstanceGetChildren
  | InstanceMove | InstanceRename | InstanceReorder | InstanceUpdate
  | FieldCreate | FieldDelete | FieldGet | FieldRename | FieldReorder
  | FieldReset | FieldValueChange
  | ModelCreate | ModelDelete | ModelGetById | ModelGetChildren
  | ModelMove | ModelRename | ModelReorder | ModelUpdate
  | MemberCreate | MemberDelete | MemberGet | MemberRename | MemberReorder
  | MemberValueChange
  | NamespaceCreate | NamespaceDelete | NamespaceGetById | NamespaceGetChildren
  | NamespaceMove | NamespaceRename | NamespaceReorder | NamespaceUpdate
  | ParentChange | ProjectCommit | ProjectOpen | ObjectGetById.

(** The string each member of the enum stands for. *)
Definition to_string (a : ActionSet) : string :=
  match a with
  | Batched => "rfc-batched-actions"
  | InstanceCreate => "instance-create"
  | InstanceDelete => "instance-delete"
  | InstanceGetById => "instance-get-by-id"
  | InstanceGetChildren => "instance-get-children"
  | InstanceMove => "instance-move"
  | InstanceRename => "instance-rename"
  | InstanceReorder => "instance-reoder"
  | InstanceUpdate => "instance-update"
  | FieldCreate => "field-create"
  | FieldDelete => "field-delete"
  | FieldGet => "field-get"
  | FieldRename => "field-rename"
  | FieldReorder => "field-reorder"
  | FieldReset => "field-reset"
  | FieldValueChange => "field-value-change"
  | ModelCreate => "model-create"
  | ModelDelete => "model-delete"
  | ModelGetById => "model-get-by-id"
  | ModelGetChildren => "model-get-children"
  | ModelMove => "model-move"
  | ModelRename => "model-rename"
  | ModelReorder => "model-reorder"
  | ModelUpdate => "model-update"
  | MemberCreate => "member-create"
  | MemberDelete => "member-delete"
  | MemberGet => "member-get"
  | MemberRename => "member-rename"
  | MemberReorder => "member-reorder"
  | MemberValueChange => "member-value-change"
  | NamespaceCreate => "namespace-create"
  | NamespaceDelete => "namespace-delete"
  | NamespaceGetById => "namespace-get-by-id"
  | NamespaceGetChildren => "namespace-get-children"
  | NamespaceMove => "namespace-move"
  | NamespaceRename => "namespace-rename"
  | NamespaceReorder => "namespace-reorder"
  | NamespaceUpdate => "namespace-update"
  | ParentChange => "qualifiedobject-parent-change"
  | ProjectCommit => "project-commit"
  | ProjectOpen => "project-open"
  | ObjectGetById => "object-get-by-id"
  end.

(** The members of the enum, in the order of the source. *)
Definition members : list ActionSet :=
  [Batched; InstanceCreate; InstanceDelete; InstanceGetById; InstanceGetChildren;
   InstanceMove; InstanceRename; InstanceReorder; InstanceUpdate;
   FieldCreate; FieldDelete; FieldGet; FieldRename; FieldReorder;
   FieldReset; FieldValueChange;
   ModelCreate; ModelDelete; ModelGetById; ModelGetChildren;
   ModelMove; ModelRename; ModelReorder; ModelUpdate;
   MemberCreate; MemberDelete; MemberGet; MemberRename; MemberReorder;
   MemberValueChange;
   NamespaceCreate; NamespaceDelete; NamespaceGetById; NamespaceGetChildren;
   NamespaceMove; NamespaceRename; NamespaceReorder; NamespaceUpdate;
   ParentChange; ProjectCommit; ProjectOpen; ObjectGetById].

End ActionSet.

(** ** [Project.create] and [Project.delete] *)

Module ProjectOps.
Import ObservableCollection Orchestrator.

Section project.
Context (resolver : Action → Verdict).
Context (parentPath : string → option string) (basename : string → string).
Context (orphan : Ref → M unit) (restore_namespace : Ref → RestoreInfo → M unit).

(** [children.create(name)] of a namespace and [delete(name)] of the
    collection of a kind of a namespace, which are not part of the sources
    at hand; [None] is [undefined]. *)
Context (children_create : Ref → string → M Ref).
Context (collection_delete : QualifiedObjectType → Ref → string → M (option bool)).

(** The loop of [Project.create] over the tokens of the path. *)
Fixpoint create_walk (tokens : list string) (current : Ref) : M Ref :=
  match tokens with
  | [] => ret current
  | token :: rest =>
      (child <- gets (λ p, collection_get token (children (obj current p)) p) ;;
       next <- match child with
               | None => children_create current token
               | Some c => ret c
               end ;;
       create_walk rest next)%eff
  end.

Definition Project_create (qualifiedPath : string) : M Ref :=
  if bool_decide (qualifiedPath = "")
  then throw (ArgumentError "qualifiedPath must be valid")
  else (current <- gets root ;;
        create_walk (split_dot qualifiedPath) current)%eff.

Definition Project_delete (t : QualifiedObjectType) (qualifiedPath : string)
    : M bool :=
  (found <- Project_get resolver parentPath basename orphan restore_namespace
              t qualifiedPath ;;
   match found with
   | None => ret false
   | Some o =>
       rootNamespace <- gets root ;;
       if bool_decide (o = rootNamespace)
       then throw (PlainError "Cannot delete the Root Namespace")
       else
         par <- gets (λ p, parent (obj o p)) ;;
         match par with
         | None => throw (PlainError "The QualifiedObject's parent is not valid. Validate the project is in the correct state. This should never happen, and may be a bug with the system.")
         | Some q =>
             result <- collection_delete t q (basename qualifiedPath) ;;
             ret (default false result)
         end
   end)%eff.

End project.

End ProjectOps.
(** *** Facts about [for_each], [array_sort] and [splice] *)

Lemma for_each_modify {S E A} (f : A → S → S) (l : list A) (s : S) :
  for_each (E:=E) l (λ x, modify (f x)) s = (Returned tt, foldl (λ s x, f x s) s l).
Proof.
  revert s. induction l as [|x l IH]; intros s; simpl; [done|].
  unfold bind at 1. simpl. apply IH.
Qed.

Section array_facts.
Context {A : Type}.
Implicit Types (l arr : list A) (x : A).

Lemma sort_insert_perm (compare : A → A → Z) x l :
  sort_insert compare x l ≡ₚ x :: l.
Proof.
  induction l as [|y l IH]; simpl; [done|].
  destruct (compare x y <=? 0); [done|].
  rewrite IH. apply Permutation_swap.
Qed.

Lemma array_sort_perm (compare : A → A → Z) l :
  array_sort compare l ≡ₚ l.
Proof.
  induction l as [|y l IH]; simpl; [done|].
  unfold array_sort in *. simpl. rewrite sort_insert_perm. by rewrite IH.
Qed.

Lemma array_sort_length (compare : A → A → Z) l :
  length (array_sort compare l) = length l.
Proof. apply Permutation_length, array_sort_perm. Qed.

(** Sorting a sorted array changes nothing. *)
Lemma array_sort_sorted_id (compare : A → A → Z) l :
  StronglySorted (λ a b, compare a b ≤ 0) l → array_sort compare l = l.
Proof.
  induction 1 as [|x l Hs IH Hx]; [done|].
  unfold array_sort in *. simpl. rewrite IH.
  destruct l as [|y l]; [done|]. simpl.
  apply Forall_cons in Hx as [Hxy _].
  destruct (Z.leb_spec (compare x y) 0); [done|lia].
Qed.

(** A comparator that orders by an integer key sorts by that key. *)
Section keyed.
Context (compare : A → A → Z) (key : A → Z).
Hypothesis compare_key : ∀ x y, compare x y ≤ 0 ↔ key x ≤ key y.

Lemma sort_insert_sorted x l :
  StronglySorted (λ a b, key a ≤ key b) l →
  StronglySorted (λ a b, key a ≤ key b) (sort_insert compare x l).
Proof.
  induction 1 as [|y l Hs IH Hy]; simpl.
  - repeat constructor.
  - destruct (Z.leb_spec (compare x y) 0) as [Hle|Hgt].
    + apply compare_key in Hle. constructor.
      * by constructor.
      * constructor; [done|].
        eapply Forall_impl; [exact Hy|]. intros z Hz. simpl in Hz. lia.
    + assert (key y ≤ key x) as Hyx.
      { destruct (Z.le_gt_cases (key x) (key y)) as [Hc|Hc]; [|lia].
        apply compare_key in Hc. lia. }
      constructor; [done|].
      rewrite sort_insert_perm. by constructor.
Qed.

Lemma array_sort_sorted l :
  StronglySorted (λ a b, key a ≤ key b) (array_sort compare l).
Proof.
  induction l as [|y l IH]; [constructor|].
  unfold array_sort in *. simpl. by apply sort_insert_sorted.
Qed.

Lemma array_sort_strictly_sorted l :
  NoDup (key <$> l) →
  StronglySorted (λ a b, key a < key b) (array_sort compare l).
Proof.
  intros Hnd.
  assert (NoDup (key <$> array_sort compare l)) as Hnd'.
  { by rewrite array_sort_perm. }
  pose proof (array_sort_sorted l) as Hs.
  induction Hs as [|y s Hs IH Hy]; [constructor|].
  simpl in Hnd'. apply NoDup_cons in Hnd' as [Hnotin Hnd'].
  constructor; [by apply IH|].
  apply Forall_forall. intros z Hz.
  rewrite Forall_forall in Hy. specialize (Hy z Hz). simpl in Hy.
  assert (key y ≠ key z); [|lia].
  intros Heq. apply Hnotin. rewrite Heq. by apply list_elem_of_fmap_2.
Qed.
End keyed.

Lemma splice_start_in_range (i : Z) (len : nat) :
  0 ≤ i ≤ Z.of_nat len → splice_start i len = Z.to_nat i.
Proof.
  intros Hi. unfold splice_start.
  destruct (Z.ltb_spec i 0); [lia|]. f_equal. lia.
Qed.

Lemma splice_start_beyond (i : Z) (len : nat) :
  Z.of_nat len ≤ i → splice_start i len = len.
Proof.
  intros Hi. unfold splice_start.
  destruct (Z.ltb_spec i 0); lia.
Qed.

(** [arr.splice(i, 0, x)] with [i] in range puts [x] at position [i]. *)
Lemma splice_insert (i : Z) x arr :
  0 ≤ i ≤ Z.of_nat (length arr) →
  splice i 0 [x] arr = take (Z.to_nat i) arr ++ x :: drop (Z.to_nat i) arr.
Proof.
  intros Hi. unfold splice. rewrite splice_start_in_range by done.
  simpl. do 3 f_equal. lia.
Qed.

(** [arr.splice(i, 1)] with [i] in range deletes position [i]. *)
Lemma splice_delete (i : Z) arr :
  0 ≤ i < Z.of_nat (length arr) →
  splice i 1 [] arr = delete (Z.to_nat i) arr.
Proof.
  intros Hi. unfold splice. rewrite splice_start_in_range by lia.
  simpl. rewrite delete_take_drop. do 2 f_equal. lia.
Qed.

(** Beyond the end [arr.splice(i, 1)] deletes nothing. *)
Lemma splice_delete_beyond (i : Z) arr :
  Z.of_nat (length arr) ≤ i → splice i 1 [] arr = arr.
Proof.
  intros Hi. unfold splice. rewrite splice_start_beyond by done.
  rewrite Nat.sub_diag. simpl. rewrite Nat.add_0_r.
  by rewrite take_drop.
Qed.

Lemma splice_insert_length (i : Z) x arr :
  length (splice i 0 [x] arr) = S (length arr).
Proof.
  unfold splice. cbv zeta. set (s := splice_start i (length arr)).
  assert (s ≤ length arr)%nat as Hs.
  { subst s. unfold splice_start. destruct (Z.ltb_spec i 0); lia. }
  rewrite !length_app, length_take, length_drop. simpl. lia.
Qed.

(** A splice that starts after position [k] leaves position [k] alone. *)
Lemma splice_lookup_before (i d : Z) ins arr (k : nat) :
  Z.of_nat k < i → (k < length arr)%nat ∨ ins = [] →
  splice i d ins arr !! k = arr !! k.
Proof.
  intros Hk Hlen. unfold splice. cbv zeta.
  set (s := splice_start i (length arr)).
  assert (s = Z.to_nat (i `min` Z.of_nat (length arr))) as Hs.
  { subst s. unfold splice_start. destruct (Z.ltb_spec i 0); lia. }
  destruct (decide (k < s)%nat) as [Hks|Hks].
  - rewrite lookup_app_l by (rewrite length_take; lia).
    by rewrite lookup_take_lt.
  - assert (s = length arr) as Hs' by lia.
    destruct Hlen as [Hlen| ->]; [lia|].
    rewrite Hs', Nat.sub_diag.
    replace (Z.to_nat ((d `max` 0) `min` Z.of_nat 0)) with 0%nat by lia.
    rewrite Nat.add_0_r. simpl. by rewrite take_drop.
Qed.
End array_facts.

(** ** Properties of [ObservableCollection] *)

Module CollectionFacts.
Import ObservableCollection.

Lemma sortByIndex_key {T} (a b : IndexableItem T) :
  sortByIndex a b ≤ 0 ↔ index a ≤ index b.
Proof.
  unfold sortByIndex.
  destruct (Z.gtb_spec (index a) (index b)), (Z.ltb_spec (index a) (index b)); lia.
Qed.

Lemma sortByIndexReverse_key {T} (a b : IndexableItem T) :
  sortByIndexReverse a b ≤ 0 ↔ - index a ≤ - index b.
Proof.
  unfold sortByIndexReverse, sortByIndex.
  destruct (Z.gtb_spec (index a) (index b)), (Z.ltb_spec (index a) (index b)); lia.
Qed.

Section facts.
Context {T : Type} `{EqDecision T}.
Implicit Types (c : Collection T) (changes sorted : list (IndexableItem T)).
Implicit Types (arr : list T) (it : IndexableItem T).

Lemma foldl_items (g : list T → IndexableItem T → list T) sorted c :
  foldl (λ s it, {| items := g (items s) it; eventMap := eventMap s;
                    emitted := emitted s |}) c sorted
  = {| items := foldl g (items c) sorted; eventMap := eventMap c;
       emitted := emitted c |}.
Proof.
  revert c. induction sorted as [|it sorted IH]; intros c; simpl.
  - by destruct c.
  - by rewrite IH.
Qed.

(** What a call of [_add] does to the whole state. *)
Lemma _add_run changes c :
  let sorted := array_sort sortByIndex changes in
  let final := foldl splice_in (items c) sorted in
  _add changes c =
    (Returned tt,
     {| items := final; eventMap := eventMap c;
        emitted := emitted c ++
          [mkEmitted (adding (eventMap c)) sorted (items c);
           mkEmitted (added (eventMap c)) sorted final] |}).
Proof.
  intros sorted final. unfold _add, emit, splice_items.
  fold sorted. unfold bind at 1. unfold modify at 1.
  unfold bind at 1. rewrite for_each_modify.
  rewrite (foldl_items splice_in). unfold modify. simpl.
  by rewrite <- app_assoc.
Qed.

(** What a call of [_remove] does to the whole state. *)
Lemma _remove_run changes c :
  let sorted := array_sort sortByIndexReverse changes in
  let final := foldl splice_out (items c) sorted in
  _remove changes c =
    (Returned tt,
     {| items := final; eventMap := eventMap c;
        emitted := emitted c ++
          [mkEmitted (removing (eventMap c)) sorted (items c);
           mkEmitted (removed (eventMap c)) sorted final] |}).
Proof.
  intros sorted final. unfold _remove, emit, splice_items.
  fold sorted. unfold bind at 1. unfold modify at 1.
  unfold bind at 1. rewrite for_each_modify.
  rewrite (foldl_items splice_out). unfold modify. simpl.
  by rewrite <- app_assoc.
Qed.

(** *** Additions *)

(** Insertions that all start after position [k] leave position [k] alone. *)
Lemma foldl_splice_in_before sorted arr (k : nat) :
  Forall (λ it, Z.of_nat k < index it) sorted → (k < length arr)%nat →
  foldl splice_in arr sorted !! k = arr !! k.
Proof.
  revert arr. induction sorted as [|it sorted IH]; intros arr Hall Hk; simpl; [done|].
  apply Forall_cons in Hall as [Hit Hall].
  rewrite IH; [|done|unfold splice_in; rewrite splice_insert_length; lia].
  apply splice_lookup_before; auto.
Qed.

(** Strictly increasing indices below [b]: the first one leaves room for
    the others. *)
Lemma strictly_ascending_room it sorted (b : Z) :
  StronglySorted (λ x y, index x < index y) (it :: sorted) →
  Forall (λ x, index x < b) (it :: sorted) →
  index it + Z.of_nat (length sorted) < b.
Proof.
  revert it. induction sorted as [|it' sorted IH]; intros it Hs Hall.
  - apply Forall_cons in Hall as [Hb _]. simpl. lia.
  - apply StronglySorted_inv in Hs as [Hs Hit].
    apply Forall_cons in Hit as [Hlt _].
    apply Forall_cons in Hall as [_ Hall].
    specialize (IH it' Hs Hall). simpl length. lia.
Qed.

Lemma foldl_splice_in_lookup sorted arr :
  StronglySorted (λ x y, index x < index y) sorted →
  Forall (λ it, 0 ≤ index it < Z.of_nat (length arr + length sorted)) sorted →
  Forall (λ it, foldl splice_in arr sorted !! Z.to_nat (index it) = Some (item it))
         sorted.
Proof.
  intros Hs. revert arr.
  induction Hs as [|it sorted Hs IH Hit]; intros arr Hall; [constructor|].
  apply Forall_cons in Hall as [[Hit0 Hitlen] Hall]. simpl in Hitlen.
  assert (index it ≤ Z.of_nat (length arr)) as Hle.
  { assert (index it + Z.of_nat (length sorted)
            < Z.of_nat (length arr + S (length sorted))); [|lia].
    apply strictly_ascending_room; [by constructor|].
    constructor; [done|].
    eapply Forall_impl; [exact Hall|]. intros z Hz. simpl in *. lia. }
  constructor; simpl.
  - rewrite foldl_splice_in_before.
    + unfold splice_in. rewrite splice_insert by lia.
      apply list_lookup_middle. rewrite length_take. lia.
    + eapply Forall_impl; [exact Hit|]. intros z Hz. simpl in Hz. lia.
    + unfold splice_in. rewrite splice_insert_length. lia.
  - apply IH. unfold splice_in. rewrite splice_insert_length.
    eapply Forall_impl; [exact Hall|]. intros z Hz. simpl in *. lia.
Qed.

(** *** Removals *)

(** Deletions that all start after position [k] leave position [k] alone. *)
Lemma foldl_splice_out_before sorted arr (k : nat) :
  Forall (λ it, Z.of_nat k < index it) sorted →
  foldl splice_out arr sorted !! k = arr !! k.
Proof.
  revert arr. induction sorted as [|it sorted IH]; intros arr Hall; simpl; [done|].
  apply Forall_cons in Hall as [Hit Hall].
  rewrite IH by done. apply splice_lookup_before; auto.
Qed.

Lemma foldl_splice_out_lookup sorted arr done_ it rest :
  StronglySorted (λ x y, index y < index x) sorted →
  0 ≤ index it →
  sorted = done_ ++ it :: rest →
  foldl splice_out arr done_ !! Z.to_nat (index it) = arr !! Z.to_nat (index it).
Proof.
  intros Hs Hit ->. apply foldl_splice_out_before.
  apply Forall_forall. intros z Hz.
  pose proof (StronglySorted_app_1_elem_of _ _ _ z it Hs Hz) as Hlt.
  rewrite Z2Nat.id by done. apply Hlt. by left.
Qed.

Lemma StronglySorted_descending sorted :
  StronglySorted (λ x y, - index x < - index y) sorted →
  StronglySorted (λ x y, index y < index x) sorted.
Proof.
  induction 1 as [|it sorted Hs IH Hit]; constructor; [done|].
  eapply Forall_impl; [exact Hit|]. intros z Hz. simpl in Hz. lia.
Qed.

Lemma NoDup_index_opp changes :
  NoDup (index <$> changes) → NoDup ((λ it, - index it) <$> changes).
Proof.
  intros Hnd.
  change ((λ it, - index it) <$> changes) with (Z.opp ∘ index <$> changes).
  rewrite (list_fmap_compose index Z.opp).
  apply NoDup_fmap_2; [|done]. intros x y Hxy. lia.
Qed.

(** *** The ordering rule of batches *)

(** C1, as amended: a batch of additions is sorted by index ascending and
    spliced in that order, and a batch of removals is sorted by index
    descending and spliced in that order. When the indices of the additions
    are pairwise distinct and lie in [0, length + batch size), every added
    item ends at its stated index. When the indices of the removals are
    pairwise distinct and each entry names the item at its index, every
    stated index still holds its item at the moment it is spliced out. *)
Theorem batch_order_secures_stated_indices c adds removes :
  NoDup (index <$> adds) →
  (∀ it, it ∈ adds →
     0 ≤ index it < Z.of_nat (length (items c) + length adds)) →
  NoDup (index <$> removes) →
  (∀ it, it ∈ removes → at_ (index it) c = Some (item it)) →
  (array_sort sortByIndex adds ≡ₚ adds ∧
   StronglySorted (λ x y, index x < index y) (array_sort sortByIndex adds) ∧
   items (_add adds c).2 = foldl splice_in (items c) (array_sort sortByIndex adds) ∧
   adds_land_at_stated_index c adds)
  ∧
  (array_sort sortByIndexReverse removes ≡ₚ removes ∧
   StronglySorted (λ x y, index y < index x) (array_sort sortByIndexReverse removes) ∧
   items (_remove removes c).2
     = foldl splice_out (items c) (array_sort sortByIndexReverse removes) ∧
   removes_hit_stated_item c removes).
Proof.
  intros Hnd_a Hrange Hnd_r Hitems. split.
  - assert (StronglySorted (λ x y, index x < index y) (array_sort sortByIndex adds))
      as Hs.
    { apply (array_sort_strictly_sorted sortByIndex index); [|done].
      apply sortByIndex_key. }
    split; [apply array_sort_perm|]. split; [done|].
    split; [by rewrite _add_run|].
    intros it Hit. rewrite _add_run. simpl. unfold at_, array_at. simpl.
    destruct (Hrange it Hit) as [H0 _].
    destruct (Z.ltb_spec (index it) 0); [lia|].
    assert (Forall (λ it, 0 ≤ index it < Z.of_nat (length (items c) +
              length (array_sort sortByIndex adds))) (array_sort sortByIndex adds))
      as Hrange'.
    { apply Forall_forall. intros z Hz.
      rewrite array_sort_length. apply Hrange.
      by rewrite <- (array_sort_perm sortByIndex adds). }
    pose proof (foldl_splice_in_lookup _ (items c) Hs Hrange') as Hall.
    rewrite Forall_forall in Hall. apply Hall.
    by rewrite (array_sort_perm sortByIndex adds).
  - assert (StronglySorted (λ x y, index y < index x)
              (array_sort sortByIndexReverse removes)) as Hs.
    { apply StronglySorted_descending.
      apply (array_sort_strictly_sorted sortByIndexReverse (λ it, - index it)).
      - apply sortByIndexReverse_key.
      - by apply NoDup_index_opp. }
    split; [apply array_sort_perm|]. split; [done|].
    split; [by rewrite _remove_run|].
    intros done_ it rest Hsplit.
    assert (it ∈ removes) as Hit.
    { rewrite <- (array_sort_perm sortByIndexReverse removes), Hsplit.
      apply elem_of_app. right. by left. }
    specialize (Hitems it Hit). unfold at_, array_at in *.
    destruct (Z.ltb_spec (index it) 0); [done|].
    rewrite <- Hitems. by eapply foldl_splice_out_lookup.
Qed.

(** *** Events around a batch *)

(** C8: a batch add emits exactly two events, [adding] while the array is
    still the one before the call and [added] when the array is the one after
    the last splice; a batch remove does the same with [removing] and
    [removed]. Both events of a batch carry the same change list, which holds
    every entry of the batch. *)
Theorem batch_events_bracket_the_splices c changes :
  (emitted (_add changes c).2 = emitted c ++
     [mkEmitted (adding (eventMap c)) (array_sort sortByIndex changes) (items c);
      mkEmitted (added (eventMap c)) (array_sort sortByIndex changes)
                (items (_add changes c).2)]
   ∧ items (_add changes c).2
       = foldl splice_in (items c) (array_sort sortByIndex changes)
   ∧ array_sort sortByIndex changes ≡ₚ changes)
  ∧
  (emitted (_remove changes c).2 = emitted c ++
     [mkEmitted (removing (eventMap c)) (array_sort sortByIndexReverse changes)
                (items c);
      mkEmitted (removed (eventMap c)) (array_sort sortByIndexReverse changes)
                (items (_remove changes c).2)]
   ∧ items (_remove changes c).2
       = foldl splice_out (items c) (array_sort sortByIndexReverse changes)
   ∧ array_sort sortByIndexReverse changes ≡ₚ changes).
Proof.
  split.
  - rewrite _add_run. simpl. repeat split. apply array_sort_perm.
  - rewrite _remove_run. simpl. repeat split. apply array_sort_perm.
Qed.

(** Every public mutator hands one batch to [_add] or [_remove]. *)
Lemma add_is_a_batch args c :
  add args c
  = _add (imap (λ i x, ItemAdd x (length_ c + Z.of_nat i)) args) c.
Proof. reflexivity. Qed.

Lemma clear_is_a_batch c :
  clear c = _remove (imap (λ i x, ItemRemove x (Z.of_nat i)) (items c)) c.
Proof. reflexivity. Qed.

(** The batch that [add] builds is in ascending order of index. *)
Lemma add_batch_sorted (args : list T) (from : Z) :
  StronglySorted (λ a b, sortByIndex a b ≤ 0)
    (imap (λ i x, ItemAdd x (from + Z.of_nat i)) args).
Proof.
  revert from. induction args as [|x args IH]; intros from; [constructor|].
  simpl. constructor.
  - erewrite imap_ext; [apply (IH (from + 1))|]. intros i y _. simpl.
    unfold ItemAdd. f_equal. lia.
  - apply Forall_forall. intros it Hit.
    apply list_elem_of_lookup in Hit as (i & Hi). rewrite list_lookup_imap in Hi.
    destruct (args !! i); [|done]. injection Hi as <-.
    apply sortByIndex_key. simpl. lia.
Qed.

Lemma foldl_splice_in_appends (args : list T) arr :
  foldl splice_in arr
    (imap (λ i x, ItemAdd x (Z.of_nat (length arr) + Z.of_nat i)) args)
  = arr ++ args.
Proof.
  revert arr. induction args as [|x args IH]; intros arr; simpl.
  - by rewrite app_nil_r.
  - unfold splice_in at 2. simpl. rewrite splice_insert by lia.
    replace (Z.to_nat (Z.of_nat (length arr) + 0)) with (length arr) by lia.
    rewrite take_ge, drop_ge by lia.
    rewrite (cons_middle x arr args), app_assoc, <- IH.
    f_equal. apply imap_ext. intros i y _. simpl. unfold ItemAdd. f_equal.
    rewrite length_app. simpl. lia.
Qed.

(** [add] appends its arguments, in their order. *)
Lemma add_appends args c : items (add args c).2 = items c ++ args.
Proof.
  rewrite add_is_a_batch, _add_run. simpl.
  rewrite array_sort_sorted_id by apply add_batch_sorted.
  apply foldl_splice_in_appends.
Qed.

(** In range, [removeAt] hands the item at the index to [_remove]. *)
Lemma removeAt_in_range (i : Z) c :
  0 ≤ i < length_ c →
  ∃ x, at_ i c = Some x ∧ removeAt i c = _remove [ItemRemove x i] c.
Proof.
  intros Hi. unfold length_ in Hi.
  destruct (lookup_lt_is_Some_2 (items c) (Z.to_nat i)) as [x Hx]; [lia|].
  exists x. split.
  - unfold at_, array_at. destruct (Z.ltb_spec i 0); [lia|done].
  - unfold removeAt. unfold bind at 1. unfold gets at 1. cbv beta iota.
    unfold length_.
    destruct (Z.ltb_spec i 0), (Z.geb_spec i (Z.of_nat (length (items c)))); try lia.
    simpl. unfold bind at 1. unfold gets. cbv beta iota. by rewrite Hx.
Qed.
(** *** Index checks *)

Lemma insert_out_of_range (i : Z) (x : T) c :
  i < 0 ∨ length_ c < i →
  insert i x c = (Thrown (IndexOutOfRangeError i), c).
Proof.
  intros Hi. unfold insert, bind, gets, throw.
  destruct (Z.ltb_spec i 0), (Z.gtb_spec i (length_ c)); simpl; try done; lia.
Qed.

Lemma insert_in_range (i : Z) (x : T) c :
  0 ≤ i ≤ length_ c → insert i x c = _add [ItemAdd x i] c.
Proof.
  intros Hi. unfold insert, bind, gets.
  destruct (Z.ltb_spec i 0), (Z.gtb_spec i (length_ c)); simpl; try done; lia.
Qed.

(** C6, as the code has it: [insert] outside [0, length] raises
    [IndexOutOfRangeError], and [removeAt] outside [0, length) raises too, but
    a plain [Error] with a message; both leave the array and the emitted
    events as they were. *)
Theorem out_of_range_raises_and_keeps_collection (i : Z) (x : T) c :
  i < 0 ∨ length_ c ≤ i →
  removeAt i c
    = (Thrown (Error ("Index out of bouds when removing at index " +:+ pretty i)), c)
  ∧ (∀ j, (removeAt i c).1 ≠ Thrown (IndexOutOfRangeError j))
  ∧ (i ≠ length_ c → insert i x c = (Thrown (IndexOutOfRangeError i), c)).
Proof.
  intros Hi.
  assert (removeAt i c
    = (Thrown (Error ("Index out of bouds when removing at index " +:+ pretty i)), c))
    as Hrun.
  { unfold removeAt, bind, gets, throw.
    destruct (Z.ltb_spec i 0), (Z.geb_spec i (length_ c)); simpl; try done; lia. }
  split; [done|]. split.
  - intros j. by rewrite Hrun.
  - intros Hne. apply insert_out_of_range. lia.
Qed.

(** *** [remove] *)

Lemma array_indexOf_absent (x : T) arr : x ∉ arr → array_indexOf x arr = -1.
Proof.
  intros Hx. unfold array_indexOf.
  destruct (list_find (λ y, y = x) arr) as [[i y]|] eqn:Hfind; [|done].
  apply list_find_Some in Hfind as (Hi & -> & _).
  exfalso. apply Hx. by eapply list_elem_of_lookup_2.
Qed.

Lemma array_indexOf_present (x : T) arr :
  x ∈ arr →
  0 ≤ array_indexOf x arr ∧ array_at (array_indexOf x arr) arr = Some x.
Proof.
  intros Hx. unfold array_indexOf, array_at.
  destruct (list_find (λ y, y = x) arr) as [[i y]|] eqn:Hfind.
  - apply list_find_Some in Hfind as (Hi & -> & _).
    split; [lia|]. destruct (Z.ltb_spec (Z.of_nat i) 0); [lia|].
    by rewrite Nat2Z.id.
  - apply list_find_None in Hfind. rewrite Forall_forall in Hfind.
    by destruct (Hfind x Hx).
Qed.

(** Arguments that are not in the collection are skipped; when none is in
    it the array stays as it is and the two events carry an empty list. *)
Lemma remove_absent args c :
  (∀ x, x ∈ args → x ∉ items c) →
  remove args c =
    (Returned tt,
     {| items := items c; eventMap := eventMap c;
        emitted := emitted c ++
          [mkEmitted (removing (eventMap c)) [] (items c);
           mkEmitted (removed (eventMap c)) [] (items c)] |}).
Proof.
  intros Habs. unfold remove. unfold bind at 1. unfold gets. cbv beta iota.
  match goal with |- _remove ?l c = _ => assert (l = []) as -> end.
  { induction args as [|x args IH]; [done|]. simpl.
    rewrite array_indexOf_absent by (apply Habs; by left). simpl.
    apply IH. intros y Hy. apply Habs. by right. }
  by rewrite _remove_run.
Qed.

Lemma filter_keeps_all (P : T → Prop) `{∀ x, Decision (P x)} arr :
  Forall P arr → filter P arr = arr.
Proof.
  induction 1 as [|y arr Hy _ IH]; [done|].
  rewrite filter_cons_True by done. by rewrite IH.
Qed.

Lemma filter_ext_elem_of (P Q : T → Prop) `{∀ x, Decision (P x)}
    `{∀ x, Decision (Q x)} arr :
  (∀ x, x ∈ arr → P x ↔ Q x) → filter P arr = filter Q arr.
Proof.
  induction arr as [|y arr IH]; intros Hiff; [done|].
  assert (filter P arr = filter Q arr) as Htl.
  { apply IH. intros x Hx. apply Hiff. by right. }
  destruct (decide (P y)) as [Hy|Hy].
  - rewrite !filter_cons_True; [by rewrite Htl|by apply Hiff; [left|]|done].
  - rewrite !filter_cons_False; [done| |done].
    intros HQ. apply Hy. apply Hiff; [by left|done].
Qed.

(** In an array without repetitions, deleting the position of [x] is
    filtering [x] out. *)
Lemma delete_is_filter arr (i : nat) (x : T) :
  NoDup arr → arr !! i = Some x → delete i arr = filter (λ y, y ≠ x) arr.
Proof.
  intros Hnd. revert i. induction Hnd as [|y arr Hy Hnd IH]; intros i Hi; [done|].
  destruct i as [|i]; simpl in *.
  - injection Hi as ->. rewrite filter_cons_False by naive_solver.
    symmetry. apply filter_keeps_all. apply Forall_forall. intros z Hz ->. done.
  - assert (y ≠ x) as Hne.
    { intros ->. apply Hy. by eapply list_elem_of_lookup_2. }
    rewrite filter_cons_True by done. f_equal. by apply IH.
Qed.

(** What a batch of removals leaves, when the array has no repetitions,
    the indices of the batch are pairwise distinct and each entry names the
    item at its index: the array without the items of the batch. *)
Lemma foldl_splice_out_filter sorted arr :
  StronglySorted (λ x y, index y < index x) sorted →
  NoDup arr →
  (∀ it, it ∈ sorted → array_at (index it) arr = Some (item it)) →
  foldl splice_out arr sorted = filter (λ y, y ∉ item <$> sorted) arr.
Proof.
  intros Hs. revert arr.
  induction Hs as [|it sorted Hs IH Hit]; intros arr Hnd Hat; simpl.
  - symmetry. apply filter_keeps_all. apply Forall_forall. intros z _.
    apply not_elem_of_nil.
  - assert (0 ≤ index it ∧ arr !! Z.to_nat (index it) = Some (item it)) as [H0 Hi].
    { specialize (Hat it (ltac:(by left))). unfold array_at in Hat.
      destruct (Z.ltb_spec (index it) 0); [done|]. by split. }
    assert (splice_out arr it = delete (Z.to_nat (index it)) arr) as Hout.
    { unfold splice_out. apply splice_delete.
      apply lookup_lt_Some in Hi. lia. }
    rewrite Hout. rewrite IH.
    + rewrite (delete_is_filter arr _ (item it)) by done.
      rewrite list_filter_filter. apply list_filter_iff.
      intros z. rewrite elem_of_cons. tauto.
    + eapply sublist_NoDup; [exact Hnd|apply sublist_delete].
    + intros it' Hit'. rewrite Forall_forall in Hit. specialize (Hit it' Hit').
      simpl in Hit. specialize (Hat it' (ltac:(by right))).
      unfold array_at in *. destruct (Z.ltb_spec (index it') 0); [done|].
      rewrite list_lookup_delete_lt by lia. done.
Qed.

(** [remove] with pairwise distinct arguments, on a collection without
    repetitions, removes exactly the arguments that are in it. *)
Lemma remove_distinct args c :
  NoDup args → NoDup (items c) →
  items (remove args c).2 = filter (λ y, y ∉ args) (items c).
Proof.
  intros Hargs Hitems. unfold remove. unfold bind at 1. unfold gets. cbv beta iota.
  match goal with |- items (_remove ?l c).2 = _ => set (changes := l) end.
  rewrite _remove_run. simpl.
  assert (∀ it, it ∈ changes →
            item it ∈ args ∧ array_at (index it) (items c) = Some (item it)
            ∧ index it = array_indexOf (item it) (items c)) as Hch.
  { intros it Hit. subst changes. apply list_elem_of_omap in Hit as (x & Hx & Hit).
    destruct (Z.ltb_spec (array_indexOf x (items c)) 0) as [|Hge]; [done|].
    injection Hit as <-. simpl. split; [done|]. split; [|done].
    unfold array_indexOf, array_at in *.
    destruct (list_find (λ y, y = x) (items c)) as [[i y]|] eqn:Hfind; [|lia].
    apply list_find_Some in Hfind as (Hi & -> & _).
    destruct (Z.ltb_spec (Z.of_nat i) 0); [lia|]. by rewrite Nat2Z.id. }
  assert (NoDup (index <$> changes)) as Hnd.
  { subst changes. clear Hch. induction Hargs as [|x args Hx Hargs IH]; [constructor|].
    simpl. destruct (Z.ltb_spec (array_indexOf x (items c)) 0) as [|Hge]; [done|].
    simpl. constructor; [|done].
    intros Hin. apply list_elem_of_fmap in Hin as (it & Hidx & Hit).
    apply list_elem_of_omap in Hit as (y & Hy & Hit).
    destruct (Z.ltb_spec (array_indexOf y (items c)) 0) as [|Hge']; [done|].
    injection Hit as <-. simpl in Hidx.
    assert (x = y); [|by subst].
    destruct (array_indexOf_present x (items c)) as [_ Hx'].
    { unfold array_indexOf in Hge.
      destruct (list_find (λ z, z = x) (items c)) as [[i z]|] eqn:Hfind; [|lia].
      apply list_find_Some in Hfind as (Hi & -> & _). by eapply list_elem_of_lookup_2. }
    destruct (array_indexOf_present y (items c)) as [_ Hy'].
    { unfold array_indexOf in Hge'.
      destruct (list_find (λ z, z = y) (items c)) as [[i z]|] eqn:Hfind; [|lia].
      apply list_find_Some in Hfind as (Hi & -> & _). by eapply list_elem_of_lookup_2. }
    rewrite Hidx in Hx'. congruence. }
  pose proof (array_sort_perm sortByIndexReverse changes) as Hperm.
  rewrite foldl_splice_out_filter.
  - apply filter_ext_elem_of. intros x Hx.
    rewrite Hperm. split.
    + intros Hnot Hargs'. apply Hnot.
      destruct (array_indexOf_present x (items c) Hx) as [H0 Hat].
      apply list_elem_of_fmap. exists (ItemRemove x (array_indexOf x (items c))).
      split; [done|]. subst changes. apply list_elem_of_omap. exists x.
      split; [done|]. destruct (Z.ltb_spec (array_indexOf x (items c)) 0); [lia|done].
    + intros Hnot Hin. apply Hnot.
      apply list_elem_of_fmap in Hin as (it & -> & Hit). by apply Hch.
  - apply StronglySorted_descending.
    apply (array_sort_strictly_sorted sortByIndexReverse (λ it, - index it)).
    + apply sortByIndexReverse_key.
    + by apply NoDup_index_opp.
  - done.
  - intros it Hit. apply Hch. by rewrite <- Hperm.
Qed.
End facts.

Lemma batch_order_secures_stated_indices_witness :
  let c : Collection nat :=
    {| items := [10; 20; 30]%nat; eventMap := defaultEventMap; emitted := [] |} in
  adds_land_at_stated_index c [ItemAdd 7%nat 4; ItemAdd 5%nat 0]
  ∧ removes_hit_stated_item c [ItemRemove 10%nat 0; ItemRemove 30%nat 2].
Proof.
  intros c.
  assert (NoDup (index <$> [ItemAdd 7%nat 4; ItemAdd 5%nat 0])) as Ha.
  { apply (bool_decide_unpack _). vm_compute. exact I. }
  assert (NoDup (index <$> [ItemRemove 10%nat 0; ItemRemove 30%nat 2])) as Hr.
  { apply (bool_decide_unpack _). vm_compute. exact I. }
  assert (∀ it, it ∈ [ItemAdd 7%nat 4; ItemAdd 5%nat 0] →
            0 ≤ index it < Z.of_nat (length (items c) + 2)) as Hrange.
  { intros it Hit.
    apply elem_of_cons in Hit as [->|Hit]; [simpl; lia|].
    apply elem_of_cons in Hit as [->|Hit]; [simpl; lia|].
    by apply not_elem_of_nil in Hit. }
  assert (∀ it, it ∈ [ItemRemove 10%nat 0; ItemRemove 30%nat 2] →
            at_ (index it) c = Some (item it)) as Hitems.
  { intros it Hit.
    apply elem_of_cons in Hit as [->|Hit]; [reflexivity|].
    apply elem_of_cons in Hit as [->|Hit]; [reflexivity|].
    by apply not_elem_of_nil in Hit. }
  destruct (batch_order_secures_stated_indices c _ _ Ha Hrange Hr Hitems)
    as [(_ & _ & _ & Hadd) (_ & _ & _ & Hrem)].
  by split.
Defined.

(** C1, as stated, fails: two additions that name one index cannot both end
    there, an addition beyond the end of the array lands at the end, and two
    removals that name one index take out a second item. *)
Lemma batch_sharing_an_index_breaks_stated_indices :
  ¬ adds_land_at_stated_index (new (T:=nat) None) [ItemAdd 1%nat 0; ItemAdd 2%nat 0]
  ∧ ¬ adds_land_at_stated_index (new (T:=nat) None) [ItemAdd 1%nat 5]
  ∧ ¬ removes_hit_stated_item
        {| items := [1; 2]%nat; eventMap := defaultEventMap; emitted := [] |}
        [ItemRemove 1%nat 0; ItemRemove 1%nat 0].
Proof.
  split; [|split].
  - intros Hland. specialize (Hland (ItemAdd 1%nat 0)).
    assert (ItemAdd 1%nat 0 ∈ [ItemAdd 1%nat 0; ItemAdd 2%nat 0]) as Hin by by left.
    specialize (Hland Hin). vm_compute in Hland. discriminate.
  - intros Hland. specialize (Hland (ItemAdd 1%nat 5)).
    assert (ItemAdd 1%nat 5 ∈ [ItemAdd 1%nat 5]) as Hin by by left.
    specialize (Hland Hin). vm_compute in Hland. discriminate.
  - intros Hhit.
    specialize (Hhit [ItemRemove 1%nat 0] (ItemRemove 1%nat 0) [] eq_refl).
    vm_compute in Hhit. discriminate.
Qed.

Lemma out_of_range_raises_and_keeps_collection_witness :
  let c : Collection nat := new None in
  removeAt 5 c
    = (Thrown (Error "Index out of bouds when removing at index 5"), c)
  ∧ (∀ j, (removeAt 5 c).1 ≠ Thrown (IndexOutOfRangeError j))
  ∧ (5 ≠ length_ c → insert 5 1%nat c = (Thrown (IndexOutOfRangeError 5), c)).
Proof.
  intros c.
  apply (out_of_range_raises_and_keeps_collection 5 1%nat c).
  right. vm_compute. discriminate.
Defined.

(** C10 at the failing input: [remove(a, a)] on the collection [a, b] looks
    up index 0 twice and splices position 0 twice, so [b], which is not an
    argument, is removed as well. *)
Theorem remove_repeated_argument_removes_neighbour :
  let c : Collection nat :=
    {| items := [1; 2]%nat; eventMap := defaultEventMap; emitted := [] |} in
  items (remove [1; 1]%nat c).2 = []
  ∧ ev_data <$> emitted (remove [1; 1]%nat c).2
    = [[ItemRemove 1%nat 0; ItemRemove 1%nat 0];
       [ItemRemove 1%nat 0; ItemRemove 1%nat 0]].
Proof. split; reflexivity. Qed.

End CollectionFacts.
(** ** Properties of [Field] *)

Module FieldFacts.
Import FieldInheritance.

Lemma SimpleValue_laws (T : Type) `{EqDecision T} : ValueLaws T.
Proof.
  split; simpl.
  - intros v. by apply bool_decide_eq_true.
  - intros v w. apply bool_decide_ext. naive_solver.
  - intros u v w Huv Hvw.
    apply bool_decide_eq_true in Huv, Hvw. apply bool_decide_eq_true. congruence.
  - intros v. by apply bool_decide_eq_true.
  - intros ch v _. by apply bool_decide_eq_true.
Qed.

Section facts.
Context {V : Type} {HV : Value V} {HL : ValueLaws V}.
Implicit Types (w : World V) (m : Member V) (v : V).

Lemma emit_field e w : field (emit e w) = field w.
Proof. reflexivity. Qed.

Lemma emit_member e w : member (emit e w) = member w.
Proof. reflexivity. Qed.

Lemma _setIsInheriting_flag b w : isInheriting (_setIsInheriting b w) = b.
Proof.
  unfold _setIsInheriting. case_bool_decide as Hb; [done|reflexivity].
Qed.

Lemma _setIsInheriting_value b w : value (_setIsInheriting b w) = value w.
Proof. unfold _setIsInheriting. by case_bool_decide. Qed.

Lemma _setIsInheriting_member b w : member (_setIsInheriting b w) = member w.
Proof. unfold _setIsInheriting. by case_bool_decide. Qed.

(** A new field inherits and holds a copy of the member's value. *)
Lemma new_Field_inherits m :
  isInheriting (new_Field m) = true ∧ equals (value (new_Field m)) (m_value m) = true.
Proof. split; [done|]. apply clone_equals. Qed.

(** While the field inherits and agrees with the member, a change of the
    member's value is applied to the field and the field keeps inheriting. *)
Lemma member_value_set_inherited v w :
  isInheriting w = true →
  equals (value w) (m_value (member w)) = true →
  isInheriting (member_value_set v w) = true
  ∧ equals (value (member_value_set v w)) v = true
  ∧ m_value (member (member_value_set v w)) = v.
Proof.
  destruct w as [[mn mv] [fn fi fv] log]. unfold isInheriting, value. simpl.
  intros -> Heq.
  pose proof (applyChangeSet_to (mkChange mv v) fv Heq) as Happ. simpl in Happ.
  unfold member_value_set, Member_onValueChanged, Member_onValueChanging,
    _onMemberValueChanged, _onValueChanged, _onInheritedValueChanged,
    _onValueChanging, emit, isInheriting, value. simpl.
  rewrite (equals_sym v), Happ. simpl. by rewrite Happ.
Qed.

(** Setting the field's value to something the member's value does not
    equal turns inheritance off. *)
Lemma field_value_set_diverges v w :
  equals (m_value (member w)) v = false →
  isInheriting (field_value_set v w) = false
  ∧ value (field_value_set v w) = v
  ∧ member (field_value_set v w) = member w.
Proof.
  destruct w as [[mn mv] [fn fi fv] log]. simpl. intros Hne.
  unfold field_value_set, _onValueChanged, _onValueChanging, emit,
    isInheriting, value. simpl. rewrite Hne. simpl.
  unfold _setIsInheriting, isInheriting. simpl.
  by destruct fi.
Qed.

(** A field that does not inherit ignores changes of the member's value. *)
Lemma member_value_set_ignored v w :
  isInheriting w = false →
  field (member_value_set v w) = field w.
Proof.
  destruct w as [[mn mv] [fn fi fv] log]. unfold isInheriting. simpl.
  intros ->. reflexivity.
Qed.

(** *** Inheritance *)

(** C3: a field created from a member with value [V0] inherits and equals
    [V0]; after the member's value is set to [V1] the field equals [V1] and
    still inherits; after the field's value is set to a [V2] that the
    member's value does not equal, the field no longer inherits; a later
    change of the member's value to [V3] leaves the field's value alone. *)
Theorem field_follows_member_until_set_directly (name : string) (V0 V1 V2 V3 : V) :
  equals V1 V2 = false →
  let w0 := new_Field (mkMember name V0) in
  let w1 := member_value_set V1 w0 in
  let w2 := field_value_set V2 w1 in
  let w3 := member_value_set V3 w2 in
  (isInheriting w0 = true ∧ equals (value w0) V0 = true)
  ∧ (isInheriting w1 = true ∧ equals (value w1) V1 = true)
  ∧ isInheriting w2 = false
  ∧ value w3 = value w2.
Proof.
  intros Hne w0 w1 w2 w3.
  destruct (new_Field_inherits (mkMember name V0)) as [Hi0 He0].
  destruct (member_value_set_inherited V1 w0 Hi0 He0) as (Hi1 & He1 & Hm1).
  assert (equals (m_value (member w1)) V2 = false) as Hne1.
  { subst w1. by rewrite Hm1. }
  destruct (field_value_set_diverges V2 w1 Hne1) as (Hi2 & Hv2 & _).
  repeat split; try done.
  unfold value. subst w3. by rewrite member_value_set_ignored.
Qed.

(** *** Reset *)

(** C9: [reset] leaves the field inheriting, emits [resetStart] first and
    [resetEnd] last (the listeners of [resetStart] still see the old flag,
    those of [resetEnd] see it set), and changes neither the field's value
    nor the member: the member's current value is not copied to the field. *)
Theorem reset_flips_flag_and_keeps_value w :
  isInheriting (reset w) = true
  ∧ value (reset w) = value w
  ∧ member (reset w) = member w
  ∧ emitted (reset w) = emitted w
      ++ [mkEmitted field_resetStart (isInheriting w) (value w)]
      ++ (if isInheriting w then []
          else [mkEmitted field_inheritedChanging false (value w);
                mkEmitted field_inheritedChanged true (value w)])
      ++ [mkEmitted field_resetEnd true (value w)].
Proof.
  destruct w as [[mn mv] [fn fi fv] log].
  unfold reset, _onReset, _setIsInheriting, emit, isInheriting, value. simpl.
  destruct fi; simpl.
  - repeat split. by rewrite <- app_assoc.
  - repeat split. by rewrite <- !app_assoc.
Qed.

End facts.

Lemma field_follows_member_until_set_directly_witness :
  let w0 := new_Field (mkMember "speed" 3) in
  let w1 := member_value_set 5 w0 in
  let w2 := field_value_set 8 w1 in
  let w3 := member_value_set 13 w2 in
  (isInheriting w0 = true ∧ equals (value w0) 3 = true)
  ∧ (isInheriting w1 = true ∧ equals (value w1) 5 = true)
  ∧ isInheriting w2 = false
  ∧ value w3 = value w2.
Proof.
  apply (field_follows_member_until_set_directly
           (HL := SimpleValue_laws Z) "speed" 3 5 8 13).
  reflexivity.
Defined.

End FieldFacts.
(** ** Properties of the orchestrator *)

Module OrchestratorFacts.
Import ObservableCollection Orchestrator.

(** *** Running a computation on a state *)

Section eff_run.
Context {S E : Type}.

Lemma bind_gets_run {A B} (f : S → A) (k : A → Eff S E B) (s : S) :
  bind (gets f) k s = k (f s) s.
Proof. reflexivity. Qed.

Lemma bind_modify_run {B} (f : S → S) (k : unit → Eff S E B) (s : S) :
  bind (modify f) k s = k tt (f s).
Proof. reflexivity. Qed.

Lemma bind_ret_run {A B} (x : A) (k : A → Eff S E B) (s : S) :
  bind (ret x) k s = k x s.
Proof. reflexivity. Qed.

Lemma bind_throw_run {A B} (e : E) (k : A → Eff S E B) (s : S) :
  bind (throw e) k s = (Thrown e, s).
Proof. reflexivity. Qed.

Lemma bind_assoc_run {A B C} (m : Eff S E A) (f : A → Eff S E B)
    (g : B → Eff S E C) (s : S) :
  bind (bind m f) g s = bind m (λ x, bind (f x) g) s.
Proof. unfold bind. destruct (m s) as [[a|e] s']; reflexivity. Qed.

Lemma bind_run_returned {A B} (m : Eff S E A) (k : A → Eff S E B) s a s' :
  m s = (Returned a, s') → bind m k s = k a s'.
Proof. intros Hm. unfold bind. by rewrite Hm. Qed.

Lemma bind_run_thrown {A B} (m : Eff S E A) (k : A → Eff S E B) s e s' :
  m s = (Thrown e, s') → bind m k s = (Thrown e, s').
Proof. intros Hm. unfold bind. by rewrite Hm. Qed.
End eff_run.

(** One step of a computation applied to a state. *)
Ltac eff_step :=
  first [ rewrite bind_assoc_run
        | rewrite bind_gets_run
        | rewrite bind_modify_run
        | rewrite bind_ret_run
        | rewrite bind_throw_run ];
  cbn beta.

Lemma untouched_refl p : untouched p p.
Proof. by repeat split. Qed.

Lemma untouched_trans p1 p2 p3 : untouched p1 p2 → untouched p2 p3 → untouched p1 p3.
Proof.
  intros (Ho & Hm & Hu & He & Hr) (Ho' & Hm' & Hu' & He' & Hr').
  repeat split; try congruence; by etrans.
Qed.

Lemma untouched_raised f p : untouched p (set_raised f p).
Proof. by repeat split. Qed.

Lemma untouched_nextUid n p : untouched p (set_nextUid n p).
Proof. by repeat split. Qed.

(** Storing a new object at the next reference keeps every object. *)
Lemma untouched_new_object o p :
  heap_wf p → untouched p (set_objects <[nextRef p := o]> p).
Proof.
  intros [Hwf _]. repeat split; simpl; try done.
  apply insert_subseteq. destruct (objects p !! nextRef p) eqn:Hl; [|done].
  assert (nextRef p < nextRef p)%nat; [|lia]. apply Hwf. by rewrite Hl.
Qed.

Lemma untouched_new_member m p :
  heap_wf p → untouched p (set_memberObjects <[nextRef p := m]> p).
Proof.
  intros [_ Hwf]. repeat split; simpl; try done.
  apply insert_subseteq. destruct (memberObjects p !! nextRef p) eqn:Hl; [|done].
  assert (nextRef p < nextRef p)%nat; [|lia]. apply Hwf. by rewrite Hl.
Qed.

Lemma untouched_nextRef n p : untouched p (set_nextRef n p).
Proof. by repeat split. Qed.

Section facts.
Context (resolver : Action → Verdict).
Context (parentPath : string → option string) (basename : string → string).
Context (orphan : nat → M unit) (restore_namespace : nat → RestoreInfo → M unit).

(** *** A declined action *)

(** The callback registered with [fulfill] does not run, and [commit]
    raises [RfcError]. The [reject] callback of the orchestrator, where
    there is one, raises the same error. *)
Lemma commit_rejected {R} (b : Builder R) (cause : string) (p : Project) :
  resolver (b_action b) = Rejected cause →
  (b_reject b = None
   ∨ b_reject b = Some (λ action err, throw (RfcError action err))) →
  commit resolver b p
  = (Thrown (RfcError (b_action b) cause), set_raised (λ l, l ++ [b_action b]) p).
Proof.
  intros Hres Hrej. unfold commit. rewrite Hres.
  destruct Hrej as [-> | ->]; reflexivity.
Qed.

End facts.

Lemma untouched_object_alloc p p' o :
  heap_wf p →
  objects p' = <[nextRef p := o]> (objects p) →
  memberObjects p' = memberObjects p →
  uids p' = uids p → events p' = events p → root p' = root p →
  untouched p p'.
Proof.
  intros Hwf Ho Hm Hu He Hr. repeat split; try done.
  - rewrite Ho. by apply (untouched_new_object o p).
  - by rewrite Hm.
Qed.

Lemma untouched_member_alloc p p' m :
  heap_wf p →
  objects p' = objects p →
  memberObjects p' = <[nextRef p := m]> (memberObjects p) →
  uids p' = uids p → events p' = events p → root p' = root p →
  untouched p p'.
Proof.
  intros Hwf Ho Hm Hu He Hr. repeat split; try done.
  - by rewrite Ho.
  - rewrite Hm. by apply (untouched_new_member m p).
Qed.

(** The loop of [createMembers] creates the member objects and touches
    nothing else. *)
Lemma createMembers_actions_run mdl params index p :
  heap_wf p →
  ∃ actions p1,
    createMembers_actions mdl params index p = (Returned actions, p1)
    ∧ untouched p p1 ∧ raised p1 = raised p ∧ heap_wf p1.
Proof.
  revert index p. induction params as [|param rest IH]; intros index p Hwf.
  - exists [], p. repeat split; try done; apply Hwf.
  - cbn [createMembers_actions]. unfold uidWarden_generate, new_Member.
    repeat eff_step.
    set (p0 := set_memberObjects _ _).
    assert (heap_wf p0) as Hwf0.
    { destruct Hwf as [Ho Hm]. split; simpl.
      - intros r Hr. specialize (Ho r Hr). lia.
      - intros r Hr. destruct (decide (r = nextRef p)) as [->|Hne]; [lia|].
        rewrite lookup_insert_ne in Hr by done. specialize (Hm r Hr). lia. }
    assert (untouched p p0) as Hframe0.
    { eapply untouched_member_alloc; [exact Hwf|reflexivity..]. }
    destruct (IH (index + 1) p0 Hwf0) as (others & p1 & Hrun & Hframe & Hraised & Hwf1).
    erewrite bind_run_returned by exact Hrun.
    eexists _, p1. split; [reflexivity|]. split; [|by split].
    by eapply untouched_trans.
Qed.

Lemma alloc_keeps_collections p p' (o : QualifiedObject) par :
  heap_wf p →
  objects p' = <[nextRef p := o]> (objects p) →
  children o = [] → models o = [] → instances o = [] →
  children (obj par p') = children (obj par p)
  ∧ models (obj par p') = models (obj par p)
  ∧ instances (obj par p') = instances (obj par p).
Proof.
  intros [Hwf _] Ho Hc Hm Hi. unfold obj. rewrite Ho.
  destruct (decide (par = nextRef p)) as [->|Hne].
  - rewrite lookup_insert_eq. simpl.
    destruct (objects p !! nextRef p) eqn:Hl.
    + assert (nextRef p < nextRef p)%nat; [apply Hwf; by rewrite Hl|lia].
    + simpl. by rewrite Hc, Hm, Hi.
  - by rewrite lookup_insert_ne.
Qed.

(** The loop of [createMembers]: the actions it builds and the members it
    allocates; it sends nothing and touches nothing else. *)
Lemma createMembers_actions_built mdl params index p :
  ∃ p1,
    createMembers_actions mdl params index p
    = (Returned (imap (λ k param,
                   let i := js_or (ci_index param) (index + Z.of_nat k) in
                   mkIndexableItem (MemberCreateAction mdl (nextRef p + k)%nat i) i)
                 params), p1)
    ∧ nextRef p1 = (nextRef p + length params)%nat
    ∧ raised p1 = raised p.
Proof.
  revert index p. induction params as [|param rest IH]; intros index p.
  - exists p. repeat split. simpl. lia.
  - cbn [createMembers_actions]. unfold uidWarden_generate, new_Member.
    repeat eff_step.
    set (p0 := set_memberObjects _ _).
    destruct (IH (index + 1) p0) as (p1 & Hrun & Hnext & Hraised).
    erewrite bind_run_returned by exact Hrun.
    exists p1. split; [|split].
    + unfold ret. simpl. rewrite Z.add_0_r, Nat.add_0_r. do 3 f_equal.
      apply imap_ext. intros k y _. simpl.
      replace (index + 1 + Z.of_nat k) with (index + Z.of_nat (S k)) by lia.
      by rewrite <- Nat.add_succ_r.
    + rewrite Hnext. simpl. lia.
    + by rewrite Hraised.
Qed.

Section declined.
Context (resolver : Action → Verdict).
Context (parentPath : string → option string) (basename : string → string).
Context (orphan : nat → M unit) (restore_namespace : nat → RestoreInfo → M unit).
Context (restore_collection :
           nat → QualifiedObjectType → list RestoreInfo → (RestoreInfo → M nat) → M unit).
Context (composer_reorder :
           nat → nat → QualifiedObjectType → Z → Z → Action → M unit).
Context (instance_fields : nat → Project → list Field).

Abbreviation run_ :=
  (run resolver parentPath basename orphan restore_namespace
       restore_collection composer_reorder instance_fields).
Abbreviation first_action_ := (first_action parentPath basename).
Abbreviation submitted_ := (submitted parentPath basename).
Abbreviation move_ := (move resolver parentPath basename orphan restore_namespace).
Abbreviation Project_get_ :=
  (Project_get resolver parentPath basename orphan restore_namespace).
Abbreviation updateMembers_ := (updateMembers resolver).
Abbreviation updateQualifiedObject_ :=
  (updateQualifiedObject resolver orphan restore_namespace).

Abbreviation plain_reject b :=
  (b_reject b = None
   ∨ b_reject b = Some (λ action err, throw (RfcError action err))).

(** A [commit] whose action is declined, with the rest of the call after
    it: the call ends there. *)
Lemma commit_declined_at {R Y} (b : Builder R) (K : option R → M Y) p1 a c :
  b_action b = a → plain_reject b → resolver a = Rejected c →
  bind (commit resolver b) K p1
  = (Thrown (RfcError a c), set_raised (λ l, l ++ [a]) p1).
Proof.
  intros <- Hrej Hres. eapply bind_run_thrown. by apply commit_rejected.
Qed.

Lemma commit_declined {R Y} (b : Builder R) (K : option R → M Y) p p1 a c :
  b_action b = a → plain_reject b →
  raised p1 = raised p → untouched p p1 → resolver a = Rejected c →
  ∃ p', bind (commit resolver b) K p1 = (Thrown (RfcError a c), p')
        ∧ untouched p p' ∧ raised p' = raised p ++ [a].
Proof.
  intros Hact Hrej Hraised Hframe Hres. eexists. split; [|split].
  - by apply commit_declined_at.
  - eapply untouched_trans; [exact Hframe|apply untouched_raised].
  - simpl. by rewrite Hraised.
Qed.

Ltac declined_here Hres :=
  eapply commit_declined;
    [reflexivity|first [by left|by right]|reflexivity|apply untouched_refl|exact Hres].

Lemma createNamespace_declined par n p a c :
  heap_wf p →
  first_action_ (CreateNamespace par n) p = Some a →
  resolver a = Rejected c →
  ∃ p', run_ (CreateNamespace par n) p = (Thrown (RfcError a c), p')
        ∧ untouched p p' ∧ raised p' = raised p ++ [a].
Proof.
  intros Hwf Hfirst Hres. cbn [first_action] in Hfirst. injection Hfirst as <-.
  unfold run, createNamespace, uidWarden_generate, new_QualifiedObject.
  repeat eff_step.
  match goal with |- context [obj par ?p1] =>
    destruct (alloc_keeps_collections p p1 _ par Hwf eq_refl eq_refl eq_refl eq_refl)
      as (Hc & Hm & Hi)
  end.
  eapply commit_declined; [|by right|reflexivity| |exact Hres].
  - unfold reject, fulfill, rfc_create. cbn [b_action].
    by rewrite ?Hc, ?Hm, ?Hi.
  - eapply untouched_object_alloc; [exact Hwf|reflexivity..].
Qed.

Lemma createModel_declined par n p a c :
  heap_wf p →
  first_action_ (CreateModel par n) p = Some a →
  resolver a = Rejected c →
  ∃ p', run_ (CreateModel par n) p = (Thrown (RfcError a c), p')
        ∧ untouched p p' ∧ raised p' = raised p ++ [a].
Proof.
  intros Hwf Hfirst Hres. cbn [first_action] in Hfirst. injection Hfirst as <-.
  unfold run, createModel, uidWarden_generate, new_QualifiedObject.
  repeat eff_step.
  match goal with |- context [obj par ?p1] =>
    destruct (alloc_keeps_collections p p1 _ par Hwf eq_refl eq_refl eq_refl eq_refl)
      as (Hc & Hm & Hi)
  end.
  eapply commit_declined; [|by right|reflexivity| |exact Hres].
  - unfold reject, fulfill, rfc_create. cbn [b_action].
    by rewrite ?Hc, ?Hm, ?Hi.
  - eapply untouched_object_alloc; [exact Hwf|reflexivity..].
Qed.

Lemma createInstance_declined par mdl n p a c :
  heap_wf p →
  first_action_ (CreateInstance par mdl n) p = Some a →
  resolver a = Rejected c →
  ∃ p', run_ (CreateInstance par mdl n) p = (Thrown (RfcError a c), p')
        ∧ untouched p p' ∧ raised p' = raised p ++ [a].
Proof.
  intros Hwf Hfirst Hres. cbn [first_action] in Hfirst. injection Hfirst as <-.
  unfold run, createInstance, uidWarden_generate, new_QualifiedObject.
  repeat eff_step.
  match goal with |- context [obj par ?p1] =>
    destruct (alloc_keeps_collections p p1 _ par Hwf eq_refl eq_refl eq_refl eq_refl)
      as (Hc & Hm & Hi)
  end.
  eapply commit_declined; [|by right|reflexivity| |exact Hres].
  - unfold reject, fulfill, rfc_create. cbn [b_action].
    by rewrite ?Hc, ?Hm, ?Hi.
  - eapply untouched_object_alloc; [exact Hwf|reflexivity..].
Qed.

Lemma createMembers_declined mdl params p a c :
  heap_wf p →
  first_action_ (CreateMembers mdl params) p = Some a →
  resolver a = Rejected c →
  ∃ p', run_ (CreateMembers mdl params) p = (Thrown (RfcError a c), p')
        ∧ untouched p p' ∧ raised p' = raised p ++ [a].
Proof.
  intros Hwf Hfirst Hres. cbn [first_action] in Hfirst. injection Hfirst as <-.
  unfold run, createMembers. repeat eff_step.
  destruct (createMembers_actions_run mdl params
              (Z.of_nat (length (members_of mdl p))) p Hwf)
    as (actions & p1 & Hrun & Hframe & Hraised & _).
  destruct (createMembers_actions_built mdl params
              (Z.of_nat (length (members_of mdl p))) p) as (p1' & Hbuilt & _).
  rewrite Hrun in Hbuilt. injection Hbuilt as -> <-.
  erewrite bind_run_returned by exact Hrun.
  repeat eff_step.
  eapply commit_declined; [|by right|exact Hraised|exact Hframe|exact Hres].
  simpl. f_equal. rewrite fmap_imap. by apply imap_ext.
Qed.

Lemma updateMembers_declined mdl p a c :
  first_action_ (UpdateMembers mdl) p = Some a →
  resolver a = Rejected c →
  ∃ p', run_ (UpdateMembers mdl) p = (Thrown (RfcError a c), p')
        ∧ untouched p p' ∧ raised p' = raised p ++ [a].
Proof.
  intros Hfirst Hres. cbn [first_action] in Hfirst. injection Hfirst as <-.
  unfold run, updateMembers. repeat eff_step. declined_here Hres.
Qed.

Lemma rename_declined src newName p a c :
  first_action_ (Rename src newName) p = Some a →
  resolver a = Rejected c →
  ∃ p', run_ (Rename src newName) p = (Thrown (RfcError a c), p')
        ∧ untouched p p' ∧ raised p' = raised p ++ [a].
Proof.
  intros Hfirst Hres. cbn [first_action] in Hfirst. injection Hfirst as <-.
  unfold run, rename. repeat eff_step. declined_here Hres.
Qed.

Lemma deleteMembers_declined mdl names p a c :
  first_action_ (DeleteMembers mdl names) p = Some a →
  resolver a = Rejected c →
  ∃ p', run_ (DeleteMembers mdl names) p = (Thrown (RfcError a c), p')
        ∧ untouched p p' ∧ raised p' = raised p ++ [a].
Proof.
  intros Hfirst Hres. cbn [first_action] in Hfirst. injection Hfirst as <-.
  unfold run, deleteMembers. repeat eff_step. declined_here Hres.
Qed.

Lemma updateQualifiedObject_declined r p a c :
  first_action_ (UpdateQualifiedObject r) p = Some a →
  resolver a = Rejected c →
  ∃ p', run_ (UpdateQualifiedObject r) p = (Thrown (RfcError a c), p')
        ∧ untouched p p' ∧ raised p' = raised p ++ [a].
Proof.
  intros Hfirst Hres. cbn [first_action] in Hfirst. injection Hfirst as <-.
  unfold run, updateQualifiedObject. repeat eff_step. declined_here Hres.
Qed.

Lemma reorderMember_declined mdl from to p a c :
  first_action_ (ReorderMember mdl from to) p = Some a →
  resolver a = Rejected c →
  ∃ p', run_ (ReorderMember mdl from to) p = (Thrown (RfcError a c), p')
        ∧ untouched p p' ∧ raised p' = raised p ++ [a].
Proof.
  intros Hfirst Hres. cbn [first_action] in Hfirst.
  unfold run, reorderMember. repeat eff_step.
  destruct (array_at from (members_of mdl p)) as [m|]; [|done].
  repeat eff_step.
  destruct ((to <? 0) || (to >=? Z.of_nat (length (members_of mdl p)) + 1)); [done|].
  injection Hfirst as <-. repeat eff_step. declined_here Hres.
Qed.

(** [Project.get] up to the refresh of the object it has found. *)
Lemma Project_get_looked_up t path p r :
  looked_up parentPath basename t path p = Some r →
  Project_get_ t path p
  = bind (updateQualifiedObject_ r) (λ _, ret (Some r)) p.
Proof.
  unfold looked_up, Project_get. intros Hlook.
  destruct (bool_decide (path = "") && bool_decide (t = Namespace)); [done|].
  destruct (parentPath path) as [parentQPath|]; [|done].
  rewrite bind_gets_run.
  destruct (get_walk _ (root p) p) as [cur|]; [|done].
  rewrite bind_gets_run. by rewrite Hlook.
Qed.

Lemma Project_get_not_looked_up t path p :
  (path = "" ∧ t = Namespace → False) →
  looked_up parentPath basename t path p = None →
  Project_get_ t path p = (Returned None, p).
Proof.
  unfold looked_up, Project_get. intros Hroot Hlook.
  destruct (bool_decide (path = "") && bool_decide (t = Namespace)) eqn:Hb.
  { apply andb_true_iff in Hb as [H1 H2].
    apply bool_decide_eq_true in H1, H2. by destruct Hroot. }
  destruct (parentPath path) as [parentQPath|]; [|done].
  rewrite bind_gets_run.
  destruct (get_walk _ (root p) p) as [cur|]; [|done].
  rewrite bind_gets_run. by rewrite Hlook.
Qed.

(** The refresh of an object, when the authority accepts it and has
    nothing new. *)
Lemma updateQualifiedObject_nothing_new r p response :
  resolver (UpdateAction (type (obj r p)) r) = Accepted response →
  brings_update (type (obj r p)) response = false →
  updateQualifiedObject_ r p
  = (Returned tt, set_raised (λ l, l ++ [UpdateAction (type (obj r p)) r]) p).
Proof.
  intros Hres Hnew. unfold updateQualifiedObject, commit, fulfill, rfc_create.
  simpl. repeat eff_step. rewrite Hres. simpl.
  destruct (type (obj r p)), response as [| | [] ? [?|] | | |]; try done.
Qed.

Lemma move_declined src to p a c :
  first_action_ (Move src to) p = Some a →
  resolver a = Rejected c →
  ∃ p', run_ (Move src to) p = (Thrown (RfcError a c), p')
        ∧ untouched p p' ∧ raised p' = raised p ++ [a].
Proof.
  intros Hfirst Hres. cbn [first_action] in Hfirst.
  unfold run, move. repeat eff_step.
  destruct (bool_decide (src = root p)); [done|].
  repeat eff_step.
  destruct (parent (obj src p)) as [q|]; [|done].
  destruct (bool_decide (q = to)); [done|].
  repeat eff_step.
  destruct (bool_decide (qualifiedName to p = "")) eqn:Hname.
  - apply bool_decide_eq_true in Hname.
    unfold Project_get. rewrite Hname. simpl. repeat eff_step.
    destruct (bool_decide (is_Some (collection_get (name (obj src p))
                (collectionOf (type (obj src p)) (obj to p)) p))); [done|].
    injection Hfirst as <-. repeat eff_step. declined_here Hres.
  - destruct (looked_up parentPath basename Namespace (qualifiedName to p) p)
      as [found|] eqn:Hlook; [|done].
    injection Hfirst as <-.
    rewrite (bind_run_thrown _ _ _ (RfcError (UpdateAction (type (obj found p)) found) c)
               (set_raised (λ l, l ++ [UpdateAction (type (obj found p)) found]) p)).
    { eexists. split; [reflexivity|]. split; [apply untouched_raised|done]. }
    rewrite (Project_get_looked_up _ _ _ _ Hlook).
    apply bind_run_thrown.
    unfold updateQualifiedObject. repeat eff_step.
    by apply commit_declined_at; [|left|].
Qed.

Lemma updateFields_declined instance p a c :
  first_action_ (UpdateFields instance) p = Some a →
  resolver a = Rejected c →
  ∃ p', run_ (UpdateFields instance) p = (Thrown (RfcError a c), p')
        ∧ untouched p p' ∧ raised p' = raised p ++ [a].
Proof.
  intros Hfirst Hres. cbn [first_action] in Hfirst.
  unfold run, updateFields. repeat eff_step.
  destruct (model (obj instance p)) as [mdl|]; [|done].
  injection Hfirst as <-. unfold updateMembers. repeat eff_step.
  declined_here Hres.
Qed.

Lemma reorder_declined source from to p a c :
  first_action_ (Reorder source from to) p = Some a →
  resolver a = Rejected c →
  ∃ p', run_ (Reorder source from to) p = (Thrown (RfcError a c), p')
        ∧ untouched p p' ∧ raised p' = raised p ++ [a].
Proof.
  intros Hfirst Hres. cbn [first_action] in Hfirst. injection Hfirst as <-.
  unfold run, reorder. repeat eff_step. declined_here Hres.
Qed.

Lemma delete_declined items p a c :
  first_action_ (Delete items) p = Some a →
  resolver a = Rejected c →
  ∃ p', run_ (Delete items) p = (Thrown (RfcError a c), p')
        ∧ untouched p p' ∧ raised p' = raised p ++ [a].
Proof.
  intros Hfirst Hres. cbn [first_action] in Hfirst. injection Hfirst as <-.
  unfold run, delete_, composer_delete. repeat eff_step. declined_here Hres.
Qed.

Lemma updateMemberValue_declined member oldValue newValue changeValue p a c :
  first_action_ (UpdateMemberValue member oldValue newValue changeValue) p = Some a →
  resolver a = Rejected c →
  ∃ p', run_ (UpdateMemberValue member oldValue newValue changeValue) p
        = (Thrown (RfcError a c), p')
        ∧ untouched p p' ∧ raised p' = raised p ++ [a].
Proof.
  intros Hfirst Hres. cbn [first_action] in Hfirst. injection Hfirst as <-.
  unfold run, updateMemberValue. declined_here Hres.
Qed.

Lemma updateFieldValue_declined field oldValue newValue changeValue p a c :
  first_action_ (UpdateFieldValue field oldValue newValue changeValue) p = Some a →
  resolver a = Rejected c →
  ∃ p', run_ (UpdateFieldValue field oldValue newValue changeValue) p
        = (Thrown (RfcError a c), p')
        ∧ untouched p p' ∧ raised p' = raised p ++ [a].
Proof.
  intros Hfirst Hres. cbn [first_action] in Hfirst. injection Hfirst as <-.
  unfold run, updateFieldValue. declined_here Hres.
Qed.

Lemma updateQualifiedObjects_declined t par p a c :
  first_action_ (UpdateQualifiedObjects t par) p = Some a →
  resolver a = Rejected c →
  ∃ p', run_ (UpdateQualifiedObjects t par) p = (Thrown (RfcError a c), p')
        ∧ untouched p p' ∧ raised p' = raised p ++ [a].
Proof.
  intros Hfirst Hres. cbn [first_action] in Hfirst. injection Hfirst as <-.
  unfold run, updateQualifiedObjects. declined_here Hres.
Qed.

Lemma getById_declined t id p a c :
  first_action_ (GetById t id) p = Some a →
  resolver a = Rejected c →
  ∃ p', run_ (GetById t id) p = (Thrown (RfcError a c), p')
        ∧ untouched p p' ∧ raised p' = raised p ++ [a].
Proof.
  intros Hfirst Hres. cbn [first_action] in Hfirst.
  unfold run, getById, uidWarden_get. repeat eff_step.
  destruct (uids p !! id); [done|]. injection Hfirst as <-.
  repeat eff_step. declined_here Hres.
Qed.

(** The first action of every operation. *)
Lemma first_action_declined op p a c :
  heap_wf p →
  first_action_ op p = Some a →
  resolver a = Rejected c →
  ∃ p', run_ op p = (Thrown (RfcError a c), p') ∧ untouched p p'
        ∧ raised p' = raised p ++ [a].
Proof.
  intros Hwf Hfirst Hres. destruct op.
  - by apply createNamespace_declined.
  - by apply createModel_declined.
  - by apply createInstance_declined.
  - by apply createMembers_declined.
  - by apply updateMembers_declined.
  - by apply rename_declined.
  - by apply move_declined.
  - by apply reorderMember_declined.
  - by apply deleteMembers_declined.
  - by apply updateQualifiedObject_declined.
  - by apply updateFields_declined.
  - by apply reorder_declined.
  - by apply delete_declined.
  - by apply updateMemberValue_declined.
  - by apply updateFieldValue_declined.
  - by apply updateQualifiedObjects_declined.
  - by apply getById_declined.
Qed.

(** *** A later action *)

(** [move] when [Project.get] has found the destination and refreshed it:
    a declined [MoveAction] ends the call in the state [Project.get]
    left. *)
Lemma move_declined_after_refresh src to p q found p1 c :
  src ≠ root p → parent (obj src p) = Some q → q ≠ to →
  Project_get_ Namespace (qualifiedName to p) p = (Returned (Some found), p1) →
  collection_get (name (obj src p1))
    (collectionOf (type (obj src p1)) (obj to p1)) p1 = None →
  resolver (MoveAction (type (obj src p1)) src to) = Rejected c →
  run_ (Move src to) p
  = (Thrown (RfcError (MoveAction (type (obj src p1)) src to) c),
     set_raised (λ l, l ++ [MoveAction (type (obj src p1)) src to]) p1).
Proof.
  intros Hroot Hpar Hq Hget Hfree Hres. unfold run, move. repeat eff_step.
  rewrite bool_decide_eq_false_2 by done. repeat eff_step.
  rewrite Hpar. rewrite bool_decide_eq_false_2 by done. repeat eff_step.
  erewrite bind_run_returned by exact Hget. cbn iota.
  repeat eff_step. rewrite Hfree.
  rewrite bool_decide_eq_false_2 by (by intros [? ?]).
  repeat eff_step. by apply commit_declined_at; [|left|].
Qed.

Lemma move_declined_after_quiet_refresh src to p q found response c :
  src ≠ root p → parent (obj src p) = Some q → q ≠ to →
  looked_up parentPath basename Namespace (qualifiedName to p) p = Some found →
  resolver (UpdateAction (type (obj found p)) found) = Accepted response →
  brings_update (type (obj found p)) response = false →
  collection_get (name (obj src p))
    (collectionOf (type (obj src p)) (obj to p)) p = None →
  resolver (MoveAction (type (obj src p)) src to) = Rejected c →
  ∃ p', run_ (Move src to) p
        = (Thrown (RfcError (MoveAction (type (obj src p)) src to) c), p')
    ∧ untouched p p'
    ∧ raised p' = raised p ++ [UpdateAction (type (obj found p)) found;
                               MoveAction (type (obj src p)) src to].
Proof.
  intros Hroot Hpar Hq Hlook Hacc Hquiet Hfree Hres.
  set (p1 := set_raised (λ l, l ++ [UpdateAction (type (obj found p)) found]) p).
  assert (Project_get_ Namespace (qualifiedName to p) p = (Returned (Some found), p1))
    as Hget.
  { rewrite (Project_get_looked_up _ _ _ _ Hlook).
    erewrite bind_run_returned;
      [reflexivity|by eapply updateQualifiedObject_nothing_new]. }
  rewrite (move_declined_after_refresh src to p q found p1 c Hroot Hpar Hq Hget Hfree Hres).
  eexists. split; [reflexivity|]. split.
  - eapply untouched_trans; apply untouched_raised.
  - simpl. by rewrite <- app_assoc.
Qed.

(** [updateFields] after [updateMembers] has returned: a declined refresh
    of the instance, or a declined [FieldGetAction] after the refresh,
    ends the call in the state reached then. *)
Lemma updateFields_declined_later instance mdl p members_ p1 c :
  model (obj instance p) = Some mdl →
  updateMembers_ mdl p = (Returned members_, p1) →
  (resolver (UpdateAction (type (obj instance p1)) instance) = Rejected c →
   run_ (UpdateFields instance) p
   = (Thrown (RfcError (UpdateAction (type (obj instance p1)) instance) c),
      set_raised (λ l, l ++ [UpdateAction (type (obj instance p1)) instance]) p1))
  ∧ (∀ p2,
       updateQualifiedObject_ instance p1 = (Returned tt, p2) →
       resolver (FieldGetAction instance) = Rejected c →
       run_ (UpdateFields instance) p
       = (Thrown (RfcError (FieldGetAction instance) c),
          set_raised (λ l, l ++ [FieldGetAction instance]) p2)).
Proof.
  intros Hmodel Hmembers. split.
  - intros Hres. unfold run, updateFields. repeat eff_step. rewrite Hmodel.
    repeat eff_step. erewrite bind_run_returned by exact Hmembers.
    unfold updateQualifiedObject. repeat eff_step.
    by apply commit_declined_at; [|left|].
  - intros p2 Hrefresh Hres. unfold run, updateFields. repeat eff_step.
    rewrite Hmodel. repeat eff_step.
    erewrite bind_run_returned by exact Hmembers. repeat eff_step.
    erewrite bind_run_returned by exact Hrefresh. repeat eff_step.
    by apply commit_declined_at; [|left|].
Qed.

Lemma get_walk_set_raised f tokens current p :
  get_walk tokens current (set_raised f p) = get_walk tokens current p.
Proof.
  revert current. induction tokens as [|token rest IH]; intros current; [done|].
  simpl. change (collection_get token (children (obj current (set_raised f p)))
                   (set_raised f p))
    with (collection_get token (children (obj current p)) p).
  destruct (collection_get token _ p); [apply IH|done].
Qed.

Lemma looked_up_set_raised f t path p :
  looked_up parentPath basename t path (set_raised f p)
  = looked_up parentPath basename t path p.
Proof.
  unfold looked_up.
  destruct (bool_decide (path = "") && bool_decide (t = Namespace)); [done|].
  destruct (parentPath path) as [parentQPath|]; [|done].
  change (root (set_raised f p)) with (root p). rewrite get_walk_set_raised.
  by destruct (get_walk _ (root p) p).
Qed.

(** [getById] when the authority has answered with a path: a declined
    refresh of the object at that path ends the call, and nothing has
    changed. *)
Lemma getById_declined_later t id p restore r c :
  uids p !! id = None →
  resolver (GetByIdAction t id) = Accepted (GetByIdResponse (Some restore)) →
  looked_up parentPath basename t (r_qualifiedPath restore) p = Some r →
  resolver (UpdateAction (type (obj r p)) r) = Rejected c →
  ∃ p', run_ (GetById t id) p
        = (Thrown (RfcError (UpdateAction (type (obj r p)) r) c), p')
    ∧ untouched p p'
    ∧ raised p' = raised p ++ [GetByIdAction t id; UpdateAction (type (obj r p)) r].
Proof.
  intros Hknown Hacc Hlook Hres.
  unfold run, getById, uidWarden_get. repeat eff_step. rewrite Hknown.
  unfold commit, fulfill, rfc_create. simpl. repeat eff_step. rewrite Hacc.
  cbn iota. repeat eff_step.
  set (p1 := set_raised _ p).
  assert (looked_up parentPath basename t (r_qualifiedPath restore) p1 = Some r)
    as Hlook1 by (subst p1; by rewrite looked_up_set_raised).
  assert (Project_get_ t (r_qualifiedPath restore) p1
          = (Thrown (RfcError (UpdateAction (type (obj r p)) r) c),
             set_raised (λ l, l ++ [UpdateAction (type (obj r p)) r]) p1)) as Hget.
  { rewrite (Project_get_looked_up _ _ _ _ Hlook1).
    unfold updateQualifiedObject. repeat eff_step.
    by apply commit_declined_at; [|left|]. }
  erewrite bind_run_thrown by exact Hget.
  eexists. split; [reflexivity|]. split.
  - eapply untouched_trans; apply untouched_raised.
  - simpl. by rewrite <- app_assoc.
Qed.

(** *** A rejected action has no local effect *)


(** *** The guards of [move] *)

(** A [Project.get] that finds nothing leaves the project as it was. *)
Lemma Project_get_none t path p p' :
  Project_get_ t path p = (Returned None, p') → p' = p.
Proof.
  unfold Project_get.
  destruct (bool_decide (path = "") && bool_decide (t = Namespace)).
  { unfold bind, gets, ret. intros; by simplify_eq. }
  destruct (parentPath path) as [parentQPath|]; [|unfold ret; intros; by simplify_eq].
  rewrite bind_gets_run.
  destruct (get_walk _ (root p) p) as [cur|]; [|unfold ret; intros; by simplify_eq].
  rewrite bind_gets_run.
  destruct (collection_get _ _ p) as [found|]; [|unfold ret; intros; by simplify_eq].
  unfold bind at 1.
  destruct (QualifiedObject_update _ _ _ _ p) as [[[]|e] p1];
    unfold ret; intros; by simplify_eq.
Qed.

(** C5, as amended: [move] raises [ArgumentError] and leaves the state as
    it is (so no action reaches the router) when the source is the root
    namespace or has no parent; it returns the source and leaves the state
    as it is when the destination is the source's parent; otherwise it
    looks the destination up with [Project.get]: when that finds no
    namespace, [move] raises [ArgumentError], the project is as before the
    call and nothing has been submitted; when it finds one and the
    destination's collection of the source's kind holds an object with the
    source's name, [move] raises [NameCollisionError] in the state
    [Project.get] left, without submitting a move action. *)
Theorem move_guards src to p :
  (src = root p →
   ∃ msg, move_ src to p = (Thrown (ArgumentError msg), p))
  ∧ (src ≠ root p → parent (obj src p) = None →
     ∃ msg, move_ src to p = (Thrown (ArgumentError msg), p))
  ∧ (src ≠ root p → parent (obj src p) = Some to →
     move_ src to p = (Returned src, p))
  ∧ (∀ q p1,
       src ≠ root p → parent (obj src p) = Some q → q ≠ to →
       Project_get_ Namespace (qualifiedName to p) p = (Returned None, p1) →
       p1 = p
       ∧ move_ src to p
         = (Thrown (ArgumentError
              "The 'to' Namespace provided to move() doesn't exist in this project"),
            p))
  ∧ (∀ q found p1,
       src ≠ root p → parent (obj src p) = Some q → q ≠ to →
       Project_get_ Namespace (qualifiedName to p) p = (Returned (Some found), p1) →
       is_Some (collection_get (name (obj src p1))
                  (collectionOf (type (obj src p1)) (obj to p1)) p1) →
       ∃ msg, move_ src to p = (Thrown (NameCollisionError msg), p1)).
Proof.
  split; [|split; [|split; [|split]]].
  - intros Hroot. unfold move. repeat eff_step.
    rewrite bool_decide_eq_true_2 by done. eauto.
  - intros Hroot Hpar. unfold move. repeat eff_step.
    rewrite bool_decide_eq_false_2 by done. repeat eff_step.
    rewrite Hpar. eauto.
  - intros Hroot Hpar. unfold move. repeat eff_step.
    rewrite bool_decide_eq_false_2 by done. repeat eff_step.
    rewrite Hpar. by rewrite bool_decide_eq_true_2.
  - intros q p1 Hroot Hpar Hq Hget.
    pose proof (Project_get_none _ _ _ _ Hget) as ->. split; [done|].
    unfold move. repeat eff_step.
    rewrite bool_decide_eq_false_2 by done. repeat eff_step.
    rewrite Hpar. rewrite bool_decide_eq_false_2 by done. repeat eff_step.
    by erewrite bind_run_returned by exact Hget.
  - intros q found p1 Hroot Hpar Hq Hget Hcollision. unfold move. repeat eff_step.
    rewrite bool_decide_eq_false_2 by done. repeat eff_step.
    rewrite Hpar. rewrite bool_decide_eq_false_2 by done. repeat eff_step.
    erewrite bind_run_returned by exact Hget. cbn iota.
    repeat eff_step. rewrite bool_decide_eq_true_2 by done. eauto.
Qed.

End declined.

(** *** Closed instances *)

Lemma new_Project_wf projectName rootId : heap_wf (new_Project projectName rootId).
Proof.
  split; simpl; intros r [o Hr].
  - apply lookup_singleton_Some in Hr as [<- _]. lia.
  - by rewrite lookup_empty in Hr.
Qed.



Lemma move_guards_witness :
  let accepts := λ _ : Action, Accepted NoResponse in
  let move_ := move accepts dot_parentPath dot_basename (λ _, ret tt) (λ _ _, ret tt) in
  let p := project_with_detached_namespace in
  (∃ msg, move_ 0%nat 1%nat p = (Thrown (ArgumentError msg), p))
  ∧ (∃ msg, move_ 2%nat 1%nat p = (Thrown (ArgumentError msg), p))
  ∧ move_ 1%nat 0%nat p = (Returned 1%nat, p)
  ∧ move_ 1%nat 3%nat p
    = (Thrown (ArgumentError
         "The 'to' Namespace provided to move() doesn't exist in this project"), p)
  ∧ (∃ msg, move_ 3%nat 0%nat p = (Thrown (NameCollisionError msg), p)).
Proof.
  intros accepts move_ p.
  pose proof (move_guards accepts dot_parentPath dot_basename
                (λ _, ret tt) (λ _ _, ret tt)) as Hguards.
  split; [|split; [|split; [|split]]].
  - destruct (Hguards 0%nat 1%nat p) as (H1 & _). by apply H1.
  - destruct (Hguards 2%nat 1%nat p) as (_ & H2 & _). by apply H2.
  - destruct (Hguards 1%nat 0%nat p) as (_ & _ & H3 & _). by apply H3.
  - destruct (Hguards 1%nat 3%nat p) as (_ & _ & _ & H4 & _).
    by apply (H4 0%nat p).
  - destruct (Hguards 3%nat 0%nat p) as (_ & _ & _ & _ & H5).
    by apply (H5 2%nat 0%nat p).
Defined.

(** C5, as stated, fails: the destination [X] holds a namespace with the
    source's name [A], but [X] is not a namespace of the project, and [move]
    raises [ArgumentError], not [NameCollisionError]. *)
Lemma move_to_namespace_outside_project_is_ArgumentError :
  let p := project_with_detached_namespace in
  (1%nat ≠ root p ∧ parent (obj 1%nat p) = Some 0%nat ∧ 0%nat ≠ 2%nat)
  ∧ is_Some (collection_get (name (obj 1%nat p))
               (collectionOf (type (obj 1%nat p)) (obj 2%nat p)) p)
  ∧ move (λ _, Accepted NoResponse) dot_parentPath dot_basename
         (λ _, ret tt) (λ _ _, ret tt) 1%nat 2%nat p
    = (Thrown (ArgumentError
         "The 'to' Namespace provided to move() doesn't exist in this project"), p).
Proof.
  intros p. split; [by vm_compute|]. split; [vm_compute; eauto|]. reflexivity.
Qed.

(** C4: reconciling the members [A, B, C] (ids 1, 2, 3) of a model against
    the authoritative list [C, A, D] (ids 3, 1, 4) adds one member, [D],
    created fresh and placed at index 2, removes one member, [B], and moves
    one, [C], to the front; the members are then [C, A, D], and [A] and [C]
    are the objects they were. *)
Theorem reconcile_ABC_against_CAD (nA nB nC nD nA' nC' : string)
    (vA vB vC vD vA' vC' : IValue) :
  let p := project_with_members
             [mkMember 1 nA vA "1"; mkMember 1 nB vB "2"; mkMember 1 nC vC "3"] in
  let master := [mkMemberRestoreInfo "3" nC' vC' 0;
                 mkMemberRestoreInfo "1" nA' vA' 1;
                 mkMemberRestoreInfo "4" nD vD 2] in
  let result := updateMembers (authority_with_members master) 1%nat p in
  members_of 1%nat p = [2; 3; 4]%nat
  ∧ result.1 = Returned []
  ∧ members_of 1%nat result.2 = [4; 2; 5]%nat
  ∧ (λ r, m_id (memberObj r result.2)) <$> members_of 1%nat result.2 = ["3"; "1"; "4"]
  ∧ memberObjects result.2 !! 2%nat = memberObjects p !! 2%nat
  ∧ memberObjects result.2 !! 4%nat = memberObjects p !! 4%nat
  ∧ memberObjects p !! 5%nat = None
  ∧ memberObjects result.2 !! 5%nat = Some (mkMember 1 nD vD "4")
  ∧ omap (λ e, match source e, data e with
               | OfProject, ActionData a => Some (event e, a)
               | _, _ => None
               end) (events result.2)
    = [(Events_Model_MemberAdding, MemberCreateAction 1 5 2);
       (Events_Model_MemberAdded, MemberCreateAction 1 5 2);
       (Events_Model_MemberRemoving, MemberDeleteAction 3);
       (Events_Model_MemberRemoved, MemberDeleteAction 3);
       (Events_Model_MemberMoving, MemberReorderAction (Some 4%nat) 2 0);
       (Events_Model_MemberMoved, MemberReorderAction (Some 4%nat) 2 0)].
Proof. repeat split; vm_compute; reflexivity. Qed.

(** C7 at the failing input: [deleteMembers] keeps a member when the key
    [member.name in names] asks for is not a property of the array, also
    when the name is an element of it, and removes a member whose name is an
    index of the array. With the names [speed] nothing is removed from the
    members [speed, 1]; with the names [x, y] the member named [1] is. *)
Theorem deleteMembers_tests_keys_of_names (v1 v2 : IValue) :
  let p := project_with_members
             [mkMember 1 "speed" v1 "m-1"; mkMember 1 "1" v2 "m-2"] in
  let accepts := λ _ : Action, Accepted NoResponse in
  ((deleteMembers accepts 1%nat ["speed"] p).1 = Returned []
   ∧ members_of 1%nat (deleteMembers accepts 1%nat ["speed"] p).2 = [2; 3]%nat)
  ∧ ((deleteMembers accepts 1%nat ["x"; "y"] p).1
       = Returned [mkIndexableItem 3%nat 1]
     ∧ members_of 1%nat (deleteMembers accepts 1%nat ["x"; "y"] p).2 = [2]%nat).
Proof. repeat split; vm_compute; reflexivity. Qed.

End OrchestratorFacts.

(** * More of ObservableCollection: the public mutators and the lookups *)

Module CollectionExtra.
Import ObservableCollection CollectionFacts.
Section extra.
Context {T : Type} `{EqDecision T}.
Implicit Types (c : Collection T) (changes sorted : list (IndexableItem T)).
Implicit Types (arr : list T) (it : IndexableItem T).

(** Deletions inside a prefix of the array leave the rest alone. *)
Lemma foldl_splice_out_app sorted arr rest :
  StronglySorted (λ x y, index y < index x) sorted →
  Forall (λ it, 0 ≤ index it < Z.of_nat (length arr)) sorted →
  foldl splice_out (arr ++ rest) sorted = foldl splice_out arr sorted ++ rest.
Proof.
  intros Hs. revert arr. induction Hs as [|it sorted Hs IH Hit]; intros arr Hall; [done|].
  apply Forall_cons in Hall as [Hi Hall]. simpl.
  assert (splice_out (arr ++ rest) it = splice_out arr it ++ rest) as ->.
  { unfold splice_out. rewrite !splice_delete by (rewrite ?length_app; lia).
    rewrite !delete_take_drop, take_app_le, drop_app_le by lia.
    by rewrite <- app_assoc. }
  apply IH. apply Forall_forall. intros z Hz.
  rewrite Forall_forall in Hit, Hall. specialize (Hit z Hz). specialize (Hall z Hz).
  simpl in Hit. unfold splice_out. rewrite splice_delete by lia.
  rewrite length_delete by (apply lookup_lt_is_Some_2; lia). lia.
Qed.

(** An entry with the largest index comes first in descending order. *)
Lemma array_sort_reverse_snoc changes it :
  Forall (λ x, index x < index it) changes →
  array_sort sortByIndexReverse (changes ++ [it])
  = it :: array_sort sortByIndexReverse changes.
Proof.
  intros Hall. unfold array_sort. rewrite foldr_app. simpl.
  generalize (@nil (IndexableItem T)).
  induction Hall as [|x changes Hx Hall IH]; intros l; [done|].
  simpl. rewrite IH. simpl.
  destruct (Z.leb_spec (sortByIndexReverse x it) 0) as [Hle|]; [|done].
  apply sortByIndexReverse_key in Hle. lia.
Qed.

(** The batch of the positions that [dead] selects, and what is left of the
    array once the batch is sorted and spliced out. *)
Lemma splice_out_selected (dead : nat → T → bool) arr :
  let batch := omap (λ ix, if dead ix.1 ix.2
                           then Some (ItemRemove ix.2 (Z.of_nat ix.1)) else None)
                    (imap pair arr) in
  let sorted := array_sort sortByIndexReverse batch in
  StronglySorted (λ x y, index y < index x) sorted
  ∧ Forall (λ it, 0 ≤ index it < Z.of_nat (length arr)) sorted
  ∧ sorted = reverse batch
  ∧ foldl splice_out arr sorted
    = omap (λ ix, if dead ix.1 ix.2 then None else Some ix.2) (imap pair arr).
Proof.
  induction arr as [|x arr IH] using rev_ind; [by repeat constructor|].
  cbv zeta in *. destruct IH as (Hs & Hall & Hrev & Hfold).
  rewrite imap_app, !omap_app. simpl. rewrite Nat.add_0_r.
  set (batch := omap _ (imap pair arr)) in *.
  assert (Forall (λ it, index it < Z.of_nat (length arr)) batch) as Hbatch.
  { apply Forall_forall. intros z Hz.
    rewrite Forall_forall in Hall. apply (Hall z).
    by rewrite (array_sort_perm sortByIndexReverse batch). }
  rewrite length_app. simpl.
  destruct (dead (length arr) x).
  - rewrite array_sort_reverse_snoc by done. split; [|split; [|split]].
    + constructor; [done|]. eapply Forall_impl; [exact Hall|]. simpl. lia.
    + constructor; [simpl; lia|]. eapply Forall_impl; [exact Hall|]. simpl. lia.
    + by rewrite reverse_snoc, Hrev.
    + simpl. unfold splice_out at 2. simpl.
      rewrite splice_delete by (rewrite length_app; simpl; lia).
      rewrite Nat2Z.id, delete_take_drop, take_app_length.
      rewrite drop_app_ge, drop_ge by (simpl; lia). simpl.
      rewrite !app_nil_r. exact Hfold.
  - rewrite app_nil_r. split; [done|]. split; [|split].
    + eapply Forall_impl; [exact Hall|]. simpl. lia.
    + done.
    + rewrite foldl_splice_out_app by done. by rewrite Hfold.
Qed.

(** X1. [add] appends its arguments in their order, whatever the collection
    holds, and reports them once before and once after with the index each
    one gets: the length before the call plus its position among the
    arguments. *)
Theorem add_appends_and_reports args c :
  let batch := imap (λ i x, ItemAdd x (length_ c + Z.of_nat i)) args in
  add args c
  = (Returned tt,
     {| items := items c ++ args; eventMap := eventMap c;
        emitted := emitted c ++
          [mkEmitted (adding (eventMap c)) batch (items c);
           mkEmitted (added (eventMap c)) batch (items c ++ args)] |}).
Proof.
  intros batch. rewrite add_is_a_batch, _add_run. fold batch. cbv zeta.
  rewrite array_sort_sorted_id by apply add_batch_sorted.
  subst batch. unfold length_. by rewrite foldl_splice_in_appends.
Qed.

(** X2. [insert] with an index in [0, length] puts the item at that index,
    keeps what was before it, shifts what was at or after it by one, and
    reports the one addition before and after. *)
Theorem insert_in_range_places_item (i : Z) (x : T) c :
  0 ≤ i ≤ length_ c →
  let arr := take (Z.to_nat i) (items c) ++ x :: drop (Z.to_nat i) (items c) in
  insert i x c
  = (Returned tt,
     {| items := arr; eventMap := eventMap c;
        emitted := emitted c ++
          [mkEmitted (adding (eventMap c)) [ItemAdd x i] (items c);
           mkEmitted (added (eventMap c)) [ItemAdd x i] arr] |})
  ∧ array_at i arr = Some x.
Proof.
  intros Hi arr. unfold length_ in Hi. split.
  - rewrite insert_in_range, _add_run by done. simpl.
    unfold splice_in. simpl. by rewrite splice_insert by done.
  - unfold array_at. destruct (Z.ltb_spec i 0); [lia|]. subst arr.
    rewrite lookup_app_r by (rewrite length_take; lia).
    rewrite length_take. by replace (Z.to_nat i - _)%nat with 0%nat by lia.
Qed.

(** X3. [removeAt] with an index in [0, length) deletes that position and
    nothing else, and reports the item that was there with the index. *)
Theorem removeAt_in_range_deletes_position (i : Z) c :
  0 ≤ i < length_ c →
  ∃ x, at_ i c = Some x ∧
    removeAt i c
    = (Returned tt,
       {| items := delete (Z.to_nat i) (items c); eventMap := eventMap c;
          emitted := emitted c ++
            [mkEmitted (removing (eventMap c)) [ItemRemove x i] (items c);
             mkEmitted (removed (eventMap c)) [ItemRemove x i]
               (delete (Z.to_nat i) (items c))] |}).
Proof.
  intros Hi. destruct (removeAt_in_range i c Hi) as (x & Hx & Hrun).
  exists x. split; [done|]. rewrite Hrun, _remove_run. simpl.
  unfold splice_out. simpl. unfold length_ in Hi. by rewrite splice_delete.
Qed.

Lemma omap_pair_ext {B} (f : nat → T → option B) (l : list (nat * T)) :
  omap (λ '(i, x), f i x) l = omap (λ ix, f ix.1 ix.2) l.
Proof.
  induction l as [|[i x] l IH]; [done|]. simpl.
  change (list_omap _ _ ?g l) with (omap g l). rewrite IH. done.
Qed.

Lemma omap_all_none {A B} (l : list A) : omap (λ _ : A, @None B) l = [].
Proof. by induction l. Qed.

Lemma omap_imap_pair_all {B} (g : nat → T → B) (h : nat → nat) arr :
  omap (λ ix : nat * T, Some (g ix.1 ix.2)) (imap (λ i x, (h i, x)) arr)
  = imap (λ i x, g (h i) x) arr.
Proof.
  revert h. induction arr as [|x arr IH]; intros h; [done|].
  simpl. f_equal. apply (IH (h ∘ S)).
Qed.

(** X4. [clear] empties the collection, whatever it holds, and reports every
    item with the index it had, from the last one to the first. *)
Theorem clear_empties c :
  let batch := reverse (imap (λ i x, ItemRemove x (Z.of_nat i)) (items c)) in
  clear c
  = (Returned tt,
     {| items := []; eventMap := eventMap c;
        emitted := emitted c ++
          [mkEmitted (removing (eventMap c)) batch (items c);
           mkEmitted (removed (eventMap c)) batch []] |}).
Proof.
  intros batch. rewrite clear_is_a_batch, _remove_run. cbv zeta.
  destruct (splice_out_selected (λ _ _, true) (items c)) as (_ & _ & Hrev & Hfold).
  cbv zeta in Hrev, Hfold. rewrite omap_all_none in Hfold.
  assert (omap (λ ix : nat * T, Some (ItemRemove ix.2 (Z.of_nat ix.1)))
               (imap pair (items c))
          = imap (λ i x, ItemRemove x (Z.of_nat i)) (items c)) as Hbatch.
  { apply (omap_imap_pair_all (λ i x, ItemRemove x (Z.of_nat i)) id). }
  rewrite Hbatch in Hrev, Hfold. by rewrite Hfold, Hrev.
Qed.


Lemma omap_selected {A B} (sel : A → bool) (g : A → B) (l : list A) :
  omap (λ a, if sel a then Some (g a) else None) l
  = g <$> filter (λ a, sel a = true) l.
Proof.
  induction l as [|a l IH]; [done|]. rewrite filter_cons. simpl.
  change (list_omap _ _ ?g l) with (omap g l). rewrite IH.
  destruct (sel a); by destruct (decide _).
Qed.

Lemma omap_not_selected {A B} (sel : A → bool) (g : A → B) (l : list A) :
  omap (λ a, if sel a then None else Some (g a)) l
  = g <$> filter (λ a, sel a = false) l.
Proof.
  induction l as [|a l IH]; [done|]. rewrite filter_cons. simpl.
  change (list_omap _ _ ?g l) with (omap g l). rewrite IH.
  destruct (sel a); by destruct (decide _).
Qed.

Lemma filter_selected_nil {A} (sel : A → bool) (l : list A) :
  length (filter (λ a, sel a = true) l) = 0%nat ↔ existsb sel l = false.
Proof.
  induction l as [|a l IH]; [done|]. rewrite filter_cons. simpl.
  destruct (sel a); destruct (decide _); simpl; try done.
Qed.

(** X5. [removeAll] without a filter does nothing and answers false.  With
    a filter it asks the filter about every item with its index and the
    array; when no item is selected it answers false and neither changes
    nor reports anything; otherwise it answers true, keeps exactly the
    items the filter did not select, in their order, and reports the
    selected ones with the indices they had, from the last to the first. *)
Theorem removeAll_removes_selected (p : T → Z → list T → bool) c :
  let selected := λ ix : nat * T, p ix.2 (Z.of_nat ix.1) (items c) in
  let batch :=
    reverse ((λ ix, ItemRemove ix.2 (Z.of_nat ix.1))
             <$> filter (λ ix, selected ix = true) (imap pair (items c))) in
  let kept := (filter (λ ix, selected ix = false) (imap pair (items c))).*2 in
  removeAll None c = (Returned false, c)
  ∧ removeAll (Some p) c
    = if existsb selected (imap pair (items c))
      then (Returned true,
            {| items := kept; eventMap := eventMap c;
               emitted := emitted c ++
                 [mkEmitted (removing (eventMap c)) batch (items c);
                  mkEmitted (removed (eventMap c)) batch kept] |})
      else (Returned false, c).
Proof.
  intros selected batch kept. split; [done|].
  unfold removeAll. unfold bind at 1. unfold gets. cbv beta iota zeta.
  rewrite (omap_pair_ext (λ i x, if p x (Z.of_nat i) (items c)
                                 then Some (ItemRemove x (Z.of_nat i)) else None)).
  rewrite (omap_selected selected (λ ix, ItemRemove ix.2 (Z.of_nat ix.1))).
  destruct (splice_out_selected (λ i x, p x (Z.of_nat i) (items c)) (items c))
    as (_ & _ & Hrev & Hfold). cbv zeta in Hrev, Hfold.
  rewrite (omap_selected selected (λ ix, ItemRemove ix.2 (Z.of_nat ix.1))) in Hrev, Hfold.
  rewrite (omap_not_selected selected snd) in Hfold.
  destruct (existsb selected (imap pair (items c))) eqn:Hex.
  - rewrite bool_decide_false.
    2:{ destruct (items c); simpl; [done|lia]. }
    rewrite bool_decide_false.
    2:{ rewrite length_fmap, filter_selected_nil. by rewrite Hex. }
    unfold bind. rewrite _remove_run. cbv zeta. by rewrite Hfold, Hrev.
  - destruct (bool_decide (length (items c) ≤ 0)%nat); [done|].
    rewrite bool_decide_true; [done|].
    rewrite length_fmap. by apply filter_selected_nil.
Qed.

(** X6. [remove] with pairwise distinct arguments, on a collection without
    repetitions, returns normally and removes exactly the arguments that
    are in the collection; the other items keep their order. *)
Theorem remove_takes_out_exactly_the_arguments args c :
  NoDup args → NoDup (items c) →
  (remove args c).1 = Returned tt
  ∧ items (remove args c).2 = filter (λ y, y ∉ args) (items c).
Proof.
  intros Hargs Hitems. split; [|by apply remove_distinct].
  unfold remove. unfold bind at 1. unfold gets. cbv beta iota.
  by rewrite _remove_run.
Qed.

(** What [insert], [removeAt], [add] and [remove] return and leave in the
    array; the events are left out. *)
Lemma insert_in_range_items (i : Z) (x : T) c :
  0 ≤ i ≤ length_ c →
  (insert i x c).1 = Returned tt
  ∧ items (insert i x c).2
    = take (Z.to_nat i) (items c) ++ x :: drop (Z.to_nat i) (items c).
Proof.
  intros Hi. rewrite insert_in_range, _add_run by done. simpl.
  unfold splice_in, length_ in *. simpl. by rewrite splice_insert by done.
Qed.

Lemma removeAt_in_range_items (i : Z) c :
  0 ≤ i < length_ c →
  (removeAt i c).1 = Returned tt
  ∧ items (removeAt i c).2 = delete (Z.to_nat i) (items c).
Proof.
  intros Hi. destruct (removeAt_in_range i c Hi) as (x & Hx & ->).
  rewrite _remove_run. simpl.
  unfold splice_out, length_ in *. simpl. by rewrite splice_delete by done.
Qed.

Lemma add_returns args c : (add args c).1 = Returned tt.
Proof. by rewrite add_is_a_batch, _add_run. Qed.

Lemma remove_returns args c : (remove args c).1 = Returned tt.
Proof.
  unfold remove. unfold bind at 1. unfold gets. cbv beta iota.
  by rewrite _remove_run.
Qed.

(** X7. [insert] at an index followed by [removeAt] of the same index gives
    back the array as it was; so does [removeAt] followed by [insert] of
    the removed item at the same index. *)
Theorem insert_and_removeAt_undo_each_other (i : Z) (x : T) c :
  0 ≤ i ≤ length_ c →
  (let r := (insert i x ;; removeAt i)%eff c in
   r.1 = Returned tt ∧ items r.2 = items c)
  ∧ (at_ i c = Some x →
     let r := (removeAt i ;; insert i x)%eff c in
     r.1 = Returned tt ∧ items r.2 = items c).
Proof.
  intros Hi. split.
  - cbv zeta. unfold bind.
    destruct (insert_in_range_items i x c Hi) as [Hout Hitems].
    destruct (insert i x c) as [o c1]. simpl in *. subst o.
    assert (0 ≤ i < length_ c1) as Hi1.
    { unfold length_ in *. rewrite Hitems.
      rewrite length_app, length_take. simpl. rewrite length_drop. lia. }
    destruct (removeAt_in_range_items i c1 Hi1) as [Hout1 ->].
    split; [done|]. rewrite Hitems. unfold length_ in Hi.
    replace (Z.to_nat i) with (length (take (Z.to_nat i) (items c))) at 1
      by (rewrite length_take; lia).
    by rewrite delete_middle, take_drop.
  - intros Hx. cbv zeta. unfold bind.
    assert (items c !! Z.to_nat i = Some x) as Hlook.
    { unfold at_, array_at in Hx. by destruct (i <? 0). }
    assert (0 ≤ i < length_ c) as Hi0.
    { apply lookup_lt_Some in Hlook. unfold length_. lia. }
    destruct (removeAt_in_range_items i c Hi0) as [Hout Hitems].
    destruct (removeAt i c) as [o c1]. simpl in *. subst o.
    assert (0 ≤ i ≤ length_ c1) as Hi1.
    { unfold length_ in *. rewrite Hitems.
      rewrite length_delete by (apply lookup_lt_is_Some_2; lia). lia. }
    destruct (insert_in_range_items i x c1 Hi1) as [Hout1 ->].
    split; [done|]. rewrite Hitems, delete_take_drop.
    rewrite take_app_length' by (rewrite length_take; unfold length_ in *; lia).
    rewrite drop_app_length' by (rewrite length_take; unfold length_ in *; lia).
    by apply take_drop_middle.
Qed.

Lemma filter_drops_all (P : T → Prop) `{∀ x, Decision (P x)} arr :
  (∀ x, x ∈ arr → ¬ P x) → filter P arr = [].
Proof.
  induction arr as [|x arr IH]; intros Hall; [done|].
  rewrite filter_cons. destruct (decide (P x)) as [HP|_].
  - destruct (Hall x); [by left|done].
  - apply IH. intros y Hy. apply Hall. by right.
Qed.

(** X8. [add] of new, pairwise distinct items followed by [remove] of the
    same items gives back the array as it was. *)
Theorem add_then_remove_restores args c :
  NoDup (items c ++ args) →
  let r := (add args ;; remove args)%eff c in
  r.1 = Returned tt ∧ items r.2 = items c.
Proof.
  intros Hnd. cbv zeta. unfold bind.
  pose proof (add_returns args c) as Hout. pose proof (add_appends args c) as Hitems.
  destruct (add args c) as [o c1]. simpl in *. subst o.
  apply NoDup_app in Hnd as Hparts. destruct Hparts as (_ & Hdisj & Hargs).
  rewrite <- Hitems in Hnd.
  split; [apply remove_returns|].
  rewrite (remove_distinct args c1 Hargs Hnd), Hitems, filter_app.
  rewrite (filter_keeps_all (λ y, y ∉ args))
    by (apply Forall_forall; intros y Hy Hn; exact (Hdisj y Hy Hn)).
  rewrite (filter_drops_all (λ y, y ∉ args)); [by rewrite app_nil_r|].
  intros y Hy Hn. done.
Qed.

(** X9. [indexOf] is the position of the first occurrence and [-1] when
    there is none, [contains] says whether there is one, and [at] reads
    back the item at the position [indexOf] returns; [at] outside
    [0, length) gives [undefined]. *)
Theorem indexOf_is_first_occurrence (x : T) c :
  (contains x c = true ↔ x ∈ items c)
  ∧ (x ∉ items c → indexOf x c = -1)
  ∧ (x ∈ items c →
     0 ≤ indexOf x c < length_ c
     ∧ at_ (indexOf x c) c = Some x
     ∧ ∀ j, j < indexOf x c → at_ j c ≠ Some x)
  ∧ (∀ j, at_ j c = None ↔ j < 0 ∨ length_ c ≤ j).
Proof.
  unfold contains, indexOf, at_, length_, array_indexOf, array_at.
  destruct (list_find (λ y, y = x) (items c)) as [[i y]|] eqn:Hfind.
  - apply list_find_Some in Hfind as (Hi & -> & Hfirst).
    assert (x ∈ items c) as Hin by (by eapply list_elem_of_lookup_2).
    split; [|split; [|split]].
    + rewrite bool_decide_eq_true. split; [done|lia].
    + done.
    + intros _. apply lookup_lt_Some in Hi as Hlt. split; [lia|]. split.
      * destruct (Z.ltb_spec (Z.of_nat i) 0); [lia|]. by rewrite Nat2Z.id.
      * intros j Hj. destruct (Z.ltb_spec j 0); [done|].
        intros Hjx. apply (Hfirst (Z.to_nat j) x Hjx); [lia|done].
    + intros j. destruct (Z.ltb_spec j 0); [split; [lia|done]|].
      rewrite lookup_ge_None. lia.
  - apply list_find_None in Hfind. rewrite Forall_forall in Hfind.
    split; [|split; [|split]].
    + rewrite bool_decide_eq_true. split; [lia|]. intros Hin. by destruct (Hfind x Hin).
    + done.
    + intros Hin. by destruct (Hfind x Hin).
    + intros j. destruct (Z.ltb_spec j 0); [split; [lia|done]|].
      rewrite lookup_ge_None. lia.
Qed.

(** X24. [insert] at the index [length] is [add] of the one item: the two
    calls return, leave the same array and emit the same events. *)
Theorem insert_at_length_is_add (x : T) c :
  insert (length_ c) x c = add [x] c.
Proof.
  rewrite insert_in_range by (unfold length_; lia).
  rewrite add_is_a_batch. simpl. by rewrite Z.add_0_r.
Qed.

(** X25. On a collection that is not empty, [removeAll] with a filter that
    selects every item answers true and does what [clear] does: the same
    array (empty) and the same events.  On an empty collection the two
    differ: [removeAll] answers false and emits nothing, while [clear] still
    emits its two events, with an empty list. *)
Theorem removeAll_of_everything_is_clear c :
  items c ≠ [] →
  removeAll (Some (λ _ _ _, true)) c = (Returned true, (clear c).2)
  ∧ (clear c).1 = Returned tt
  ∧ items (clear c).2 = []
  ∧ ∀ em log,
      let empty : Collection T :=
        {| items := []; eventMap := em; emitted := log |} in
      removeAll (Some (λ _ _ _, true)) empty = (Returned false, empty)
      ∧ clear empty
        = (Returned tt,
           {| items := []; eventMap := em;
              emitted := log ++ [mkEmitted (removing em) [] [];
                                 mkEmitted (removed em) [] []] |}).
Proof.
  intros Hne.
  assert (omap (λ '(i, x), if true then Some (ItemRemove x (Z.of_nat i)) else None)
               (imap pair (items c))
          = imap (λ i x, ItemRemove x (Z.of_nat i)) (items c)) as Hbatch.
  { rewrite (omap_pair_ext (λ i x, Some (ItemRemove x (Z.of_nat i)))).
    apply (omap_imap_pair_all (λ i x, ItemRemove x (Z.of_nat i)) id). }
  split; [|split; [|split]].
  - unfold removeAll. unfold bind at 1. unfold gets. cbv beta iota zeta.
    rewrite Hbatch, bool_decide_false by (destruct (items c); simpl; [done|lia]).
    rewrite bool_decide_false
      by (rewrite length_imap; destruct (items c); simpl; [done|lia]).
    rewrite clear_is_a_batch. unfold bind. by rewrite _remove_run.
  - by rewrite clear_is_a_batch, _remove_run.
  - rewrite clear_is_a_batch, _remove_run. cbv zeta. simpl.
    destruct (splice_out_selected (λ _ _, true) (items c)) as (_ & _ & _ & Hfold).
    cbv zeta in Hfold. rewrite omap_all_none in Hfold.
    rewrite (omap_imap_pair_all (λ i x, ItemRemove x (Z.of_nat i)) id) in Hfold.
    exact Hfold.
  - intros em log empty. split; [reflexivity|].
    by rewrite clear_is_a_batch, _remove_run.
Qed.

End extra.

Lemma insert_in_range_places_item_witness :
  let c : Collection nat :=
    {| items := [10; 20; 30]%nat; eventMap := defaultEventMap; emitted := [] |} in
  let arr := [10; 7; 20; 30]%nat in
  insert 1 7%nat c
  = (Returned tt,
     {| items := arr; eventMap := defaultEventMap;
        emitted := [mkEmitted "adding" [ItemAdd 7%nat 1] [10; 20; 30]%nat;
                    mkEmitted "added" [ItemAdd 7%nat 1] arr] |})
  ∧ array_at 1 arr = Some 7%nat.
Proof.
  intros c arr. apply (insert_in_range_places_item 1 7%nat c).
  unfold length_. simpl. lia.
Defined.

Lemma removeAt_in_range_deletes_position_witness :
  let c : Collection nat :=
    {| items := [10; 20; 30]%nat; eventMap := defaultEventMap; emitted := [] |} in
  ∃ x, at_ 1 c = Some x ∧
    removeAt 1 c
    = (Returned tt,
       {| items := [10; 30]%nat; eventMap := defaultEventMap;
          emitted := [mkEmitted "removing" [ItemRemove x 1] [10; 20; 30]%nat;
                      mkEmitted "removed" [ItemRemove x 1] [10; 30]%nat] |}).
Proof.
  intros c. apply (removeAt_in_range_deletes_position 1 c).
  unfold length_. simpl. lia.
Defined.

Lemma remove_takes_out_exactly_the_arguments_witness :
  let c : Collection nat :=
    {| items := [10; 20; 30]%nat; eventMap := defaultEventMap; emitted := [] |} in
  (remove [30; 40; 10]%nat c).1 = Returned tt
  ∧ items (remove [30; 40; 10]%nat c).2
    = filter (λ y, y ∉ [30; 40; 10]%nat) [10; 20; 30]%nat.
Proof.
  intros c. apply (remove_takes_out_exactly_the_arguments [30; 40; 10]%nat c).
  - apply (bool_decide_unpack _). vm_compute. exact I.
  - apply (bool_decide_unpack _). vm_compute. exact I.
Defined.

Lemma insert_and_removeAt_undo_each_other_witness :
  let c : Collection nat :=
    {| items := [10; 20; 30]%nat; eventMap := defaultEventMap; emitted := [] |} in
  (let r := (insert 1 20%nat ;; removeAt 1)%eff c in
   r.1 = Returned tt ∧ items r.2 = items c)
  ∧ (at_ 1 c = Some 20%nat →
     let r := (removeAt 1 ;; insert 1 20%nat)%eff c in
     r.1 = Returned tt ∧ items r.2 = items c).
Proof.
  intros c. apply (insert_and_removeAt_undo_each_other 1 20%nat c).
  unfold length_. simpl. lia.
Defined.

Lemma add_then_remove_restores_witness :
  let c : Collection nat :=
    {| items := [10; 20; 30]%nat; eventMap := defaultEventMap; emitted := [] |} in
  let r := (add [40; 50]%nat ;; remove [40; 50]%nat)%eff c in
  r.1 = Returned tt ∧ items r.2 = items c.
Proof.
  intros c. apply (add_then_remove_restores [40; 50]%nat c).
  apply (bool_decide_unpack _). vm_compute. exact I.
Defined.

Lemma indexOf_is_first_occurrence_witness :
  let c : Collection nat :=
    {| items := [10; 20; 10]%nat; eventMap := defaultEventMap; emitted := [] |} in
  indexOf 10%nat c = 0 ∧ at_ (indexOf 10%nat c) c = Some 10%nat
  ∧ indexOf 40%nat c = -1 ∧ contains 40%nat c = false.
Proof.
  intros c.
  destruct (indexOf_is_first_occurrence 10%nat c) as (_ & _ & Hin & _).
  destruct (indexOf_is_first_occurrence 40%nat c) as (Hc & Hout & _ & _).
  assert (10%nat ∈ items c) as H10 by (by left).
  assert (40%nat ∉ items c) as H40.
  { apply (bool_decide_unpack _). vm_compute. exact I. }
  destruct (Hin H10) as (_ & Hat & _).
  split; [reflexivity|]. split; [exact Hat|]. split; [exact (Hout H40)|].
  destruct (contains 40%nat c) eqn:E; [|done]. destruct H40. by apply Hc.
Defined.

Lemma removeAll_of_everything_is_clear_witness :
  let c : Collection nat :=
    {| items := [10; 20; 30]%nat; eventMap := defaultEventMap; emitted := [] |} in
  removeAll (Some (λ _ _ _, true)) c = (Returned true, (clear c).2)
  ∧ items (clear c).2 = [].
Proof.
  intros c.
  destruct (removeAll_of_everything_is_clear c) as (Hall & _ & Hitems & _);
    [discriminate|].
  by split.
Defined.

End CollectionExtra.

(** * More of Field: runs of changes *)

Module FieldExtra.
Import FieldInheritance FieldFacts FieldSequences.

Section extra.
Context {V : Type} {HV : Value V} {HL : ValueLaws V}.
Implicit Types (w : World V) (m : Member V) (v : V) (ops : list (ValueOp V)).

Lemma member_value_set_agrees v w : agrees w → agrees (member_value_set v w).
Proof.
  intros Hw. destruct (isInheriting w) eqn:Hi.
  - destruct (member_value_set_inherited v w Hi (Hw Hi)) as (_ & Heq & Hm).
    intros _. by rewrite Hm.
  - intros Hi'. unfold isInheriting in *.
    rewrite member_value_set_ignored in Hi' by done. congruence.
Qed.

Lemma field_value_set_agrees v w : agrees (field_value_set v w).
Proof.
  destruct (equals (m_value (member w)) v) eqn:Heq.
  - destruct w as [[mn mv] [fn fi fv] log]. simpl in Heq.
    unfold agrees, field_value_set, _onValueChanged, _onValueChanging, emit,
      isInheriting, value. simpl. rewrite Heq. simpl.
    intros _. by rewrite equals_sym.
  - destruct (field_value_set_diverges v w Heq) as (Hi & _ & _).
    intros Hi'. congruence.
Qed.

Lemma apply_ops_agrees ops w :
  Reset ∉ ops → agrees w → agrees (apply_ops ops w).
Proof.
  revert w. induction ops as [|op ops IH]; intros w Hops Hw; [done|].
  apply not_elem_of_cons in Hops as [Hop Hops].
  apply (IH _ Hops). destruct op as [v|v|]; simpl.
  - by apply member_value_set_agrees.
  - apply field_value_set_agrees.
  - done.
Qed.

(** X10. As long as nobody calls [reset], a field that says it inherits
    holds a value equal to its member's current value, after any run of
    changes of the member's value and of the field's own value. *)
Theorem inheriting_field_agrees_with_member m ops :
  Reset ∉ ops →
  isInheriting (apply_ops ops (new_Field m)) = true →
  equals (value (apply_ops ops (new_Field m)))
         (m_value (member (apply_ops ops (new_Field m)))) = true.
Proof.
  intros Hops. apply (apply_ops_agrees ops (new_Field m) Hops).
  intros _. apply new_Field_inherits.
Qed.

Lemma field_value_set_detached v w :
  isInheriting w = false →
  isInheriting (field_value_set v w) = false ∧ value (field_value_set v w) = v.
Proof.
  destruct w as [[mn mv] [fn fi fv] log]. unfold isInheriting. simpl. intros ->.
  unfold field_value_set, _onValueChanged, _onValueChanging, _setIsInheriting,
    emit, isInheriting, value. simpl.
  by destruct (equals mv v).
Qed.

(** X11. Inheritance is switched back on by [reset] only: once a field
    does not inherit, no run of changes of the member's value and of the
    field's value makes it inherit again, the member's changes never reach
    the field, and the field holds what it was last set to. *)
Theorem detached_field_stays_detached w ops :
  Reset ∉ ops →
  isInheriting w = false →
  isInheriting (apply_ops ops w) = false
  ∧ value (apply_ops ops w) = last_FieldSet (value w) ops.
Proof.
  revert w. induction ops as [|op ops IH]; intros w Hops Hw; [done|].
  apply not_elem_of_cons in Hops as [Hop Hops].
  unfold apply_ops, last_FieldSet. simpl.
  destruct op as [v|v|]; simpl; [| |done].
  - assert (field (member_value_set v w) = field w) as Hf
      by (by apply member_value_set_ignored).
    destruct (IH (member_value_set v w) Hops) as [Hi Hv].
    { unfold isInheriting in *. by rewrite Hf. }
    split; [exact Hi|]. unfold apply_ops, last_FieldSet in Hv. rewrite Hv.
    unfold value. by rewrite Hf.
  - destruct (field_value_set_detached v w Hw) as [Hi' Hv'].
    destruct (IH (field_value_set v w) Hops Hi') as [Hi Hv].
    split; [exact Hi|]. unfold apply_ops, last_FieldSet in Hv. by rewrite Hv, Hv'.
Qed.

End extra.

Lemma inheriting_field_agrees_with_member_witness :
  let ops := [MemberSet 5; FieldSet 5; MemberSet 7] in
  let w := apply_ops ops (new_Field (mkMember "speed" 3)) in
  equals (value w) (m_value (member w)) = true.
Proof.
  intros ops w.
  apply (inheriting_field_agrees_with_member
           (HL := SimpleValue_laws Z) (mkMember "speed" 3) ops).
  - subst ops. rewrite !not_elem_of_cons.
    repeat split; try discriminate. apply not_elem_of_nil.
  - reflexivity.
Defined.

Lemma detached_field_stays_detached_witness :
  let w := field_value_set 8 (new_Field (mkMember "speed" 3)) in
  let ops := [MemberSet 5; FieldSet 5; MemberSet 7] in
  isInheriting (apply_ops ops w) = false
  ∧ value (apply_ops ops w) = last_FieldSet (value w) ops.
Proof.
  intros w ops. apply (detached_field_stays_detached w ops).
  - subst ops. rewrite !not_elem_of_cons.
    repeat split; try discriminate. apply not_elem_of_nil.
  - reflexivity.
Defined.

End FieldExtra.

(** * The value classes *)

Module ValuesFacts.
Import Values.

Section facts.
Context {Attachment : Type} (Empty : Attachment).
Implicit Types (u v w o this : SimpleValue Attachment) (a : Attachment).

Lemma strict_equals_true (x y : Payload) :
  strict_equals x y = true ↔ x = y ∧ x ≠ PNaN.
Proof.
  unfold strict_equals. destruct x, y; rewrite ?bool_decide_eq_true;
    split; try done; (intros [? ?]; done) || (by intros ->).
Qed.

Lemma strict_equals_refl (x : Payload) :
  strict_equals x x = bool_decide (x ≠ PNaN).
Proof.
  destruct x; simpl; [by rewrite !bool_decide_true..|done].
Qed.

Lemma strict_equals_sym (x y : Payload) : strict_equals x y = strict_equals y x.
Proof.
  destruct (strict_equals x y) eqn:Hxy, (strict_equals y x) eqn:Hyx; try done.
  - apply strict_equals_true in Hxy as [-> Hn].
    by rewrite (proj2 (strict_equals_true y y)) in Hyx.
  - apply strict_equals_true in Hyx as [-> Hn].
    by rewrite (proj2 (strict_equals_true x x)) in Hxy.
Qed.

(** X12. [equals] of two value objects says whether their types have the
    same name and their payloads are identical ([===]).  It is symmetric
    and transitive, and a value equals itself unless its payload is [NaN],
    which is identical to nothing: [equals] is reflexive on the other
    values only.  It does not look at the attachments, and it throws an
    [ArgumentError] for [null]. *)
Theorem equals_is_a_partial_equivalence u v w a :
  equals v (Some v) = Returned (bool_decide (value v ≠ PNaN))
  ∧ equals v (Some w) = equals w (Some v)
  ∧ (equals u (Some v) = Returned true → equals v (Some w) = Returned true →
     equals u (Some w) = Returned true)
  ∧ equals (attach a v) (Some w) = equals v (Some w)
  ∧ equals v (Some (attach a w)) = equals v (Some w)
  ∧ equals v None = Thrown (ArgumentError "other value must be valid").
Proof.
  unfold equals, IType_equals, value. simpl. repeat split.
  - by rewrite bool_decide_true, strict_equals_refl.
  - f_equal. f_equal; [apply bool_decide_ext; naive_solver|apply strict_equals_sym].
  - intros Huv Hvw. injection Huv as Huv. injection Hvw as Hvw.
    apply andb_true_iff in Huv as [H1 H2]. apply andb_true_iff in Hvw as [H3 H4].
    apply bool_decide_eq_true in H1, H3.
    apply strict_equals_true in H2 as [H2 Hn]. apply strict_equals_true in H4 as [H4 _].
    rewrite bool_decide_true by congruence. simpl. f_equal.
    apply strict_equals_true. split; [congruence|done].
Qed.

(** X13. [clone] of a value built by [new BoolValue] or by [new UIntValue]
    does not throw and returns a value of the same class with the same
    type, payload and attachment.  The copy [equals] the original unless the
    payload is [NaN]: [new UIntValue(NaN)] is accepted ([NaN < 0] is false),
    and its clone does not equal it.  A plain [SimpleValue] has no [clone]:
    the call throws [NotImplementedError]. *)
Theorem clone_copies_constructed_values (value : option Payload)
    (attachment : option Attachment) (payload : Payload) (t : IType) :
  clone Empty (new_BoolValue Empty value attachment)
    = Returned (new_BoolValue Empty value attachment)
  ∧ (∀ v, new_UIntValue Empty value attachment = Returned v →
          clone Empty v = Returned v
          ∧ equals v (Some v) = Returned (bool_decide (Values.value v ≠ PNaN)))
  ∧ (∃ v, new_UIntValue Empty (Some PNaN) attachment = Returned v
          ∧ clone Empty v = Returned v ∧ equals v (Some v) = Returned false)
  ∧ clone Empty (new_SimpleValue Empty payload t attachment)
    = Thrown (NotImplementedError "clone() not implemented").
Proof.
  split; [done|]. split; [|split; [|done]].
  - intros v Hv. unfold new_UIntValue in Hv.
    destruct (lt_zero (default (PNumber 0) value)) eqn:Hlt; [done|].
    injection Hv as <-. split.
    + unfold clone, new_UIntValue. simpl. unfold Values.value. simpl. by rewrite Hlt.
    + unfold equals, IType_equals. simpl. by rewrite strict_equals_refl.
  - eexists. split; [reflexivity|]. split; reflexivity.
Qed.

(** X14. [setLocally(other)] either takes the payload of [other], after
    which the receiver has kept its class, type and attachment and [equals]
    [other] unless the payload is [NaN], or throws an [Error] and leaves
    the receiver as it was; it throws exactly when the two types have
    different names, and then the two values were not equal. *)
Theorem setLocally_sets_or_refuses this o :
  match setLocally (Some o) this with
  | (Returned _, this') =>
      type_name (type o) = type_name (type this)
      ∧ value this' = value o
      ∧ equals this' (Some o) = Returned (bool_decide (value o ≠ PNaN))
      ∧ class this' = class this ∧ type this' = type this
      ∧ attachment this' = attachment this
  | (Thrown e, this') =>
      type_name (type o) ≠ type_name (type this)
      ∧ e = Error "Cannot set Value. Incompatible Type"
      ∧ this' = this
      ∧ equals this (Some o) = Returned false
  end.
Proof.
  unfold setLocally, bind, gets, IType_equals, id.
  case_bool_decide as Hty; unfold modify, throw; simpl.
  - repeat split; try done.
    unfold equals, IType_equals, value. simpl.
    by rewrite bool_decide_true, strict_equals_refl.
  - repeat split; try done.
    unfold equals, IType_equals. by rewrite bool_decide_false.
Qed.

(** X15. [setLocally] copies the payload without the check of the
    constructor of [UIntValue]: the constructor refuses a negative number,
    but a [UIntValue] takes one from a [SimpleValue] of the type
    [type-uint], and its [clone] then throws the [ArgumentError] of the
    constructor. *)
Theorem setLocally_skips_the_check_of_UIntValue (n : Z) value attachment v :
  n < 0 →
  new_UIntValue Empty value attachment = Returned v →
  new_UIntValue Empty (Some (PNumber n)) attachment
    = Thrown (ArgumentError "value must be positive")
  ∧ ∃ v', setLocally (Some (new_SimpleValue Empty (PNumber n) SingletonUIntType None)) v
          = (Returned tt, v')
    ∧ class v' = UIntValue_class ∧ Values.value v' = PNumber n
    ∧ clone Empty v' = Thrown (ArgumentError "value must be positive").
Proof.
  intros Hn Hv. unfold new_UIntValue in *. simpl.
  destruct (Z.ltb_spec n 0) as [_|]; [|lia]. split; [done|].
  destruct (lt_zero (default (PNumber 0) value)); [done|]. injection Hv as <-.
  eexists. split; [reflexivity|]. simpl. repeat split.
  unfold clone, new_UIntValue. simpl.
  by destruct (Z.ltb_spec n 0) as [_|]; [|lia].
Qed.

End facts.

Lemma equals_is_a_partial_equivalence_witness :
  let u := new_BoolValue (Attachment := nat) 0%nat (Some (PBool false)) None in
  let v := new_SimpleValue 0%nat (PBool false) SingletonBoolType (Some 7%nat) in
  let w := new_BoolValue 0%nat (Some (PBool false)) (Some 9%nat) in
  equals u (Some w) = Returned true.
Proof.
  intros u v w.
  destruct (equals_is_a_partial_equivalence u v w 0%nat) as (_ & _ & Htrans & _).
  apply Htrans; reflexivity.
Defined.

Lemma clone_copies_constructed_values_witness :
  let v := mkSimpleValue UIntValue_class SingletonUIntType (PNumber 5) 0%nat in
  clone 0%nat v = Returned v ∧ equals v (Some v) = Returned true.
Proof.
  intros v.
  destruct (clone_copies_constructed_values 0%nat (Some (PNumber 5)) None
              (PBool true) SingletonBoolType) as (_ & Huint & _).
  apply (Huint v). reflexivity.
Defined.

Lemma setLocally_skips_the_check_of_UIntValue_witness :
  let v := mkSimpleValue UIntValue_class SingletonUIntType (PNumber 5) 0%nat in
  new_UIntValue 0%nat (Some (PNumber (-1))) None
    = Thrown (ArgumentError "value must be positive")
  ∧ ∃ v', setLocally (Some (new_SimpleValue 0%nat (PNumber (-1)) SingletonUIntType None)) v
          = (Returned tt, v')
    ∧ class v' = UIntValue_class ∧ value v' = PNumber (-1)
    ∧ clone 0%nat v' = Thrown (ArgumentError "value must be positive").
Proof.
  intros v.
  apply (setLocally_skips_the_check_of_UIntValue 0%nat (-1) (Some (PNumber 5)) None v).
  - lia.
  - reflexivity.
Defined.

End ValuesFacts.

(** * The event router *)

Module EventRouterFacts.
Import EventRouter.

Section facts.
Context {IEvent : Type} (name : IEvent → string).
Implicit Types (r : Router IEvent) (h : EventHandler IEvent).

(** The handlers filed under a name. *)
Lemma on_lookup h r (n : string) :
  default [] (on h r !! n)
  = default [] (r !! n) ++ (if decide (h_name h = n) then [h] else []).
Proof.
  unfold on, Router in *. destruct (decide (h_name h = n)) as [<-|Hne].
  - destruct (r !! h_name h) eqn:Hr; cbn iota; by rewrite lookup_insert_eq.
  - rewrite app_nil_r.
    destruct (r !! h_name h) eqn:Hr; cbn iota; by rewrite lookup_insert_ne.
Qed.

Lemma on_all_lookup (hs : list (EventHandler IEvent)) r (n : string) :
  default [] (foldl (λ r h, on h r) r hs !! n)
  = default [] (r !! n) ++ filter (λ h, h_name h = n) hs.
Proof.
  revert r. induction hs as [|h hs IH]; intros r; simpl.
  - by rewrite app_nil_r.
  - rewrite IH, on_lookup, filter_cons.
    destruct (decide (h_name h = n)); [by rewrite <- app_assoc|by rewrite app_nil_r].
Qed.

Lemma raise_default (ev : IEvent) r :
  raise name ev r
  = (default [] (r !! name ev),
     forallb (λ h, h_fulfils h ev) (default [] (r !! name ev))).
Proof. unfold raise. by destruct (r !! name ev). Qed.

(** X16. After any sequence of registrations on a new router, [raise]
    calls exactly the handlers whose own name is the name of the event,
    once each, in the order they were registered, and all of them even when
    one of the promises rejects; handlers of other names are not called;
    the promise that [raise] returns fulfils when every promise of the
    called handlers fulfils, and in particular when no handler has that
    name. *)
Theorem raise_calls_the_handlers_of_that_name_in_order
    (hs : list (EventHandler IEvent)) (ev : IEvent) :
  let called := filter (λ h, h_name h = name ev) hs in
  raise name ev (foldl (λ r h, on h r) new hs)
  = (called, forallb (λ h, h_fulfils h ev) called).
Proof.
  intros called. rewrite raise_default, on_all_lookup.
  unfold new, Router. by rewrite lookup_empty.
Qed.

End facts.
End EventRouterFacts.

(** * NamedCollection *)

Module NamedCollectionFacts.
Import NamedCollection.

Section facts.
Context {T : Type} (name : T → string).

(** X17. For a string, [indexByName] and [findByName] agree: when an item
    has the name, [indexByName] is the position of the first such item and
    [findByName] (and [get]) is that item; when none has it, [indexByName]
    is [undefined] and [findByName] is [null].  For an argument that is not
    a string [findByName] throws, while [indexByName] emits an [error]
    event. *)
Theorem lookups_by_name_agree (s : string) (_items : list T) :
  match indexByName name (JsString s) _items with
  | Index i =>
      ∃ item, at_ (Z.of_nat i) _items = Some item ∧ name item = s
        ∧ get name (JsString s) _items = Returned (Some item)
        ∧ ∀ j other, (j < i)%nat → _items !! j = Some other → name other ≠ s
  | Undefined =>
      get name (JsString s) _items = Returned None
      ∧ ∀ item, item ∈ _items → name item ≠ s
  | EmitError _ => False
  end
  ∧ get name JsOther _items = Thrown "Invalid name type passed to findByName()"
  ∧ indexByName name JsOther _items
    = EmitError "indexByName expects a string argument".
Proof.
  split; [|done]. unfold indexByName, get, findByName, at_, array_at.
  destruct (list_find _ _items) as [[i item]|] eqn:Hfind; simpl.
  - apply list_find_Some in Hfind as (Hi & Hname & Hfirst).
    exists item. destruct (Z.ltb_spec (Z.of_nat i) 0); [lia|].
    rewrite Nat2Z.id. repeat split; try done.
    intros j other Hj Hother. by apply (Hfirst j).
  - apply list_find_None in Hfind. rewrite Forall_forall in Hfind.
    split; [done|]. exact Hfind.
Qed.

End facts.

Lemma lookups_by_name_agree_witness :
  indexByName id (JsString "b") ["a"; "b"; "c"; "b"] = Index 1
  ∧ get id (JsString "b") ["a"; "b"; "c"; "b"] = Returned (Some "b")
  ∧ indexByName id (JsString "z") ["a"; "b"] = Undefined
  ∧ get id (JsString "z") ["a"; "b"] = Returned None.
Proof.
  pose proof (lookups_by_name_agree id "b" ["a"; "b"; "c"; "b"]) as [H1 _].
  pose proof (lookups_by_name_agree id "z" ["a"; "b"]) as [H2 _].
  change (indexByName id (JsString "b") ["a"; "b"; "c"; "b"]) with (Index 1) in *.
  change (indexByName id (JsString "z") ["a"; "b"]) with Undefined in *.
  destruct H1 as (item & _ & _ & Hget & _). destruct H2 as [Hnone _].
  repeat split; try done.
Defined.

End NamedCollectionFacts.

(** * The names of the actions *)

Module ActionSetFacts.
Import ActionSet.

Lemma members_complete (a : ActionSet) : a ∈ members.
Proof. destruct a; unfold members; repeat first [by left | right]. Qed.

Lemma members_names_NoDup : NoDup (to_string <$> members).
Proof. apply (bool_decide_unpack _). vm_compute. exact I. Qed.

(** X18. No two members of [ActionSet] stand for the same string, so an
    action is identified by its name. *)
Theorem to_string_injective (a b : ActionSet) :
  to_string a = to_string b → a = b.
Proof.
  intros Hab.
  destruct (proj1 (list_elem_of_lookup _ _) (members_complete a)) as [i Hi].
  destruct (proj1 (list_elem_of_lookup _ _) (members_complete b)) as [j Hj].
  assert (i = j) as ->.
  { eapply (NoDup_lookup _ i j (to_string a) members_names_NoDup).
    - by rewrite list_lookup_fmap, Hi.
    - by rewrite list_lookup_fmap, Hj, Hab. }
  congruence.
Qed.

Lemma to_string_injective_witness : InstanceReorder = InstanceReorder.
Proof. apply (to_string_injective InstanceReorder InstanceReorder). reflexivity. Defined.

End ActionSetFacts.

(** * More of the orchestrator and of Project *)

Module OrchestratorExtra.
Import ObservableCollection Orchestrator OrchestratorFacts ProjectOps.

Section extra.
Context (resolver : Action → Verdict).
Context (parentPath : string → option string) (basename : string → string).
Context (orphan : nat → M unit) (restore_namespace : nat → RestoreInfo → M unit).

Abbreviation submitted_ := (submitted parentPath basename).
Abbreviation updateMembers_ :=
  (updateMembers resolver).
Abbreviation Project_get_ :=
  (Project_get resolver parentPath basename orphan restore_namespace).

(** X19. [createMembers] submits one batch with one [MemberCreateAction]
    for each parameter, in the order of the parameters, for members that
    are allocated in that order.  The index of an action is the index of the
    parameter when it has one that is not 0, and otherwise the running
    index: the number of members of the model plus the position of the
    parameter; an index 0 given by the caller is taken as no index. *)
Theorem createMembers_submits_running_indices mdl params p :
  let len := Z.of_nat (length (members_of mdl p)) in
  let index_of (k : nat) (param : MemberCreateInfo) :=
    match ci_index param with
    | Some i => if i =? 0 then len + Z.of_nat k else i
    | None => len + Z.of_nat k
    end in
  submitted_ (CreateMembers mdl params) p
  = Some (BatchedActions
            (imap (λ k param,
                     MemberCreateAction mdl (nextRef p + k)%nat (index_of k param))
                  params)).
Proof.
  intros len index_of. unfold submitted, run, createMembers.
  repeat eff_step.
  destruct (createMembers_actions_built mdl params len p) as (p1 & Hrun & _ & Hraised).
  fold len. erewrite bind_run_returned by exact Hrun.
  repeat eff_step. unfold commit, reject, fulfill, rfc_create. simpl.
  repeat eff_step. simpl. rewrite Hraised.
  rewrite lookup_app_r, Nat.sub_diag by lia. simpl. do 2 f_equal.
  rewrite fmap_imap. apply imap_ext. intros k param _. simpl. reflexivity.
Qed.


(** X20. [updateMembers] checks the list the authority sends before it
    touches the model: when the indexes of the list are not 0, 1, ...,
    n - 1 in some order (one is missing, repeated, negative or too large),
    it raises an [Error], and the project is as before the call except that
    the router has received the [MemberGetAction]. *)
Theorem updateMembers_refuses_indexes_with_gaps mdl results p :
  resolver (MemberGetAction mdl) = Accepted (MemberGetResponse true results) →
  ¬ (ri_index <$> (item <$> results) ≡ₚ Z.of_nat <$> seq 0 (length results)) →
  updateMembers_ mdl p
  = (Thrown (PlainError "Failed to retrieve an accurate list of Members. The indexes are not sequential."),
     set_raised (λ l, l ++ [MemberGetAction mdl]) p).
Proof.
  intros Hres Hgap. unfold updateMembers, commit, fulfill, rfc_create. simpl.
  repeat eff_step. rewrite Hres. simpl.
  rewrite bool_decide_false; [reflexivity|].
  intros Hseq. apply Hgap.
  rewrite array_sort_length, length_fmap in Hseq. rewrite <- Hseq.
  by rewrite array_sort_perm.
Qed.

Lemma collection_get_name n l p r :
  collection_get n l p = Some r → r ∈ l ∧ name (obj r p) = n.
Proof.
  unfold collection_get. intros Hget.
  destruct (list_find _ l) as [[i x]|] eqn:Hfind; [|done].
  injection Hget as <-. apply list_find_Some in Hfind as (Hi & Hn & _).
  split; [by eapply list_elem_of_lookup_2|done].
Qed.

(** X21. [Project.get] of the empty path for a namespace is the root, and
    nothing is sent to the authority.  A [get] that finds nothing returns
    [undefined] and leaves the project as it was: nothing is sent either.  An
    object that [get] returns for another path is named as the last part of
    the path, and it is in the collection of the asked kind of the namespace
    that the walk along the parent path ends in. *)
Theorem Project_get_finds_by_name_or_changes_nothing t path p :
  Project_get_ Namespace "" p = (Returned (Some (root p)), p)
  ∧ (∀ p', Project_get_ t path p = (Returned None, p') → p' = p)
  ∧ (∀ r p', Project_get_ t path p = (Returned (Some r), p') →
       (path = "" ∧ t = Namespace ∧ r = root p ∧ p' = p)
       ∨ ∃ parentQPath cur,
           parentPath path = Some parentQPath
           ∧ get_walk (filter (λ it, it ≠ "") (split_dot parentQPath)) (root p) p
             = Some cur
           ∧ r ∈ collectionOf t (obj cur p)
           ∧ name (obj r p) = basename path).
Proof.
  split; [done|]. unfold Project_get.
  destruct (bool_decide (path = "") && bool_decide (t = Namespace)) eqn:Hroot.
  { apply andb_true_iff in Hroot as [Hp Ht].
    apply bool_decide_eq_true in Hp, Ht.
    split; [by intros p'|]. intros r p' Hrun. left.
    unfold bind, gets, ret in Hrun. by injection Hrun as <- <-. }
  destruct (parentPath path) as [parentQPath|]; [|split; intros; unfold ret in *; by simplify_eq].
  rewrite bind_gets_run.
  destruct (get_walk _ (root p) p) as [cur|] eqn:Hwalk;
    [|split; intros; unfold ret in *; by simplify_eq].
  rewrite bind_gets_run.
  destruct (collection_get _ _ p) as [found|] eqn:Hget;
    [|split; intros; unfold ret in *; by simplify_eq].
  apply collection_get_name in Hget as [Hin Hname]. split.
  - intros p' Hrun. unfold bind at 1 in Hrun.
    destruct (QualifiedObject_update _ _ _ _ p) as [[[]|e] p1];
      unfold ret in *; by simplify_eq.
  - intros r p' Hrun. right. exists parentQPath, cur.
    unfold bind at 1 in Hrun.
    destruct (QualifiedObject_update _ _ _ _ p) as [[[]|e] p1];
      unfold ret in *; by simplify_eq.
Qed.

Lemma create_walk_existing children_create tokens current r p :
  get_walk tokens current p = Some r →
  create_walk children_create tokens current p = (Returned r, p).
Proof.
  revert current. induction tokens as [|token rest IH]; intros current Hwalk.
  - simpl in *. by injection Hwalk as <-.
  - simpl in *. rewrite bind_gets_run.
    destruct (collection_get token _ p) as [next|]; [|done].
    rewrite bind_ret_run. by apply IH.
Qed.

(** X22. [Project.create] of a path whose namespaces all exist creates
    nothing and sends nothing: it returns the namespace the path leads to
    and leaves the project as it was, so calling it twice is as good as
    once; the empty path is refused with an [ArgumentError]. *)
Theorem Project_create_keeps_existing_namespaces children_create path r p :
  path ≠ "" →
  get_walk (split_dot path) (root p) p = Some r →
  Project_create children_create path p = (Returned r, p)
  ∧ ∃ msg, Project_create children_create "" p = (Thrown (ArgumentError msg), p).
Proof.
  intros Hpath Hwalk. split; [|by eexists].
  unfold Project_create. rewrite bool_decide_false by done.
  rewrite bind_gets_run. by apply create_walk_existing.
Qed.

(** X23. [Project.delete] of the root path raises an [Error] and
    [Project.delete] of a path that [Project.get] does not find answers
    false; in both cases the project is as it was and the collections are
    not asked to delete anything. *)
Theorem Project_delete_guards collection_delete t path p :
  Project_delete resolver parentPath basename orphan restore_namespace
      collection_delete Namespace "" p
    = (Thrown (PlainError "Cannot delete the Root Namespace"), p)
  ∧ (∀ p', Project_get resolver parentPath basename orphan restore_namespace
             t path p = (Returned None, p') →
           Project_delete resolver parentPath basename orphan restore_namespace
             collection_delete t path p = (Returned false, p)).
Proof.
  split.
  - assert (Project_get_ Namespace "" p = (Returned (Some (root p)), p)) as Hroot by done.
    unfold Project_delete. rewrite (bind_run_returned _ _ _ _ _ Hroot). cbn iota.
    rewrite bind_gets_run. by rewrite bool_decide_true.
  - intros p' Hget.
    pose proof (Project_get_none _ _ _ _ _ t path p p' Hget) as ->.
    unfold Project_delete. by erewrite bind_run_returned by exact Hget.
Qed.


End extra.

Lemma updateMembers_refuses_indexes_with_gaps_witness :
  let master := [mkMemberRestoreInfo "m-1" "speed" (UIntValue 3) 0;
                 mkMemberRestoreInfo "m-2" "armed" (BoolValue true) 2] in
  let p := project_with_members [] in
  updateMembers (authority_with_members master) 1%nat p
  = (Thrown (PlainError "Failed to retrieve an accurate list of Members. The indexes are not sequential."),
     set_raised (λ l, l ++ [MemberGetAction 1%nat]) p).
Proof.
  intros master p.
  apply (updateMembers_refuses_indexes_with_gaps (authority_with_members master) 1%nat
           ((λ m, mkIndexableItem m (ri_index m)) <$> master) p).
  - reflexivity.
  - simpl. intros Hperm.
    assert (2 ∈ [0; 2]) as Hin by (right; left).
    rewrite Hperm in Hin.
    apply elem_of_cons in Hin as [Hin|Hin]; [discriminate|].
    apply elem_of_cons in Hin as [Hin|Hin]; [discriminate|].
    by apply not_elem_of_nil in Hin.
Defined.

Lemma Project_get_finds_by_name_or_changes_nothing_witness :
  let get_ := Project_get (λ _, Accepted NoResponse) dot_parentPath dot_basename
                (λ _, ret tt) (λ _ _, ret tt) in
  let p := project_with_detached_namespace in
  get_ Namespace "" p = (Returned (Some 0%nat), p)
  ∧ (get_ Namespace "X" p).2 = p
  ∧ name (obj 1%nat p) = dot_basename "A".
Proof.
  intros get_ p.
  pose proof (Project_get_finds_by_name_or_changes_nothing
                (λ _, Accepted NoResponse) dot_parentPath dot_basename
                (λ _, ret tt) (λ _ _, ret tt)) as Hget.
  split; [|split].
  - destruct (Hget Namespace "" p) as (Hroot & _). exact Hroot.
  - destruct (Hget Namespace "X" p) as (_ & Hnone & _).
    apply (Hnone (get_ Namespace "X" p).2). reflexivity.
  - destruct (Hget Namespace "A" p) as (_ & _ & Hsome).
    destruct (Hsome 1%nat (get_ Namespace "A" p).2 eq_refl)
      as [(Hpath & _)|(parentQPath & cur & _ & _ & _ & Hname)]; [discriminate|].
    exact Hname.
Defined.

Lemma Project_create_keeps_existing_namespaces_witness :
  let p := project_with_detached_namespace in
  let create_ := Project_create (λ _ _, throw (PlainError "not called")) in
  create_ "A" p = (Returned 1%nat, p)
  ∧ ∃ msg, create_ "" p = (Thrown (ArgumentError msg), p).
Proof.
  intros p create_.
  apply (Project_create_keeps_existing_namespaces
           (λ _ _, throw (PlainError "not called")) "A" 1%nat p).
  - discriminate.
  - reflexivity.
Defined.

Lemma Project_delete_guards_witness :
  let p := project_with_detached_namespace in
  let delete_ := Project_delete (λ _, Accepted NoResponse) dot_parentPath dot_basename
                   (λ _, ret tt) (λ _ _, ret tt)
                   (λ _ _ _, throw (PlainError "not called")) in
  delete_ Namespace "" p
    = (Thrown (PlainError "Cannot delete the Root Namespace"), p)
  ∧ delete_ Model "A" p = (Returned false, p).
Proof.
  intros p delete_.
  destruct (Project_delete_guards (λ _, Accepted NoResponse) dot_parentPath
              dot_basename (λ _, ret tt) (λ _ _, ret tt)
              (λ _ _ _, throw (PlainError "not called")) Model "A" p)
    as [Hroot Hnone].
  split; [exact Hroot|]. apply (Hnone p). reflexivity.
Defined.

Lemma createMembers_submits_running_indices_witness :
  let p := project_with_members [mkMember 1%nat "speed" (UIntValue 3) "m-1"] in
  submitted dot_parentPath dot_basename
    (CreateMembers 1%nat [mkMemberCreateInfo "first" (BoolValue true) (Some 0);
                          mkMemberCreateInfo "second" (BoolValue true) (Some 5);
                          mkMemberCreateInfo "third" (BoolValue true) None]) p
  = Some (BatchedActions [MemberCreateAction 1%nat 3%nat 1;
                          MemberCreateAction 1%nat 4%nat 5;
                          MemberCreateAction 1%nat 5%nat 3]).
Proof.
  intros p.
  exact (createMembers_submits_running_indices dot_parentPath dot_basename 1%nat
           [mkMemberCreateInfo "first" (BoolValue true) (Some 0);
            mkMemberCreateInfo "second" (BoolValue true) (Some 5);
            mkMemberCreateInfo "third" (BoolValue true) None] p).
Defined.


End OrchestratorExtra.
